(** * A symbol table on two left-leaning red-black trees with a reverse index

    Embedding of [RedBlackNode.js] and [RedBlackTree.js]
    (src/data-structures/tree/red-black-tree).

    The JavaScript objects are mutated in place, so the embedding keeps an
    explicit store of node objects and every method is a computation on
    the state of one [RedBlackTree] instance that may return, throw, or
    fail to terminate.  A second, purely functional view of the trees that
    hang in the store is introduced later and proved to describe what the
    store-level methods do. *)

From stdpp Require Import gmap strings list sorting pretty.
From Stdlib Require Import ZArith Lia.

Local Open Scope Z_scope.

(** ** JavaScript values *)

(** The values that travel through the table: keys, payloads, colours.
    [JNum z] is the [Number] whose value is the integer [z], [JStr s] the
    string whose code units are the characters of [s], and an object is
    known by its reference only.  The table computes with numbers only
    where it decodes a string key (see [decodeStrKey]) and where it adds
    subtree sizes. *)
Inductive jsval : Type :=
| JUndefined
| JNull
| JBool (b : bool)
| JNum (z : Z)
| JStr (s : string)
| JObj (ref : nat).

#[global] Instance jsval_eq_dec : EqDecision jsval.
Proof. solve_decision. Defined.

Inductive jstype : Type := TUndefined | TObject | TBoolean | TNumber | TString.

#[global] Instance jstype_eq_dec : EqDecision jstype.
Proof. solve_decision. Defined.

(** [typeof v] *)
Definition typeof (v : jsval) : jstype :=
  match v with
  | JUndefined => TUndefined
  | JNull => TObject
  | JBool _ => TBoolean
  | JNum _ => TNumber
  | JStr _ => TString
  | JObj _ => TObject
  end.

(** [v == null] *)
Definition isNullish (v : jsval) : bool :=
  match v with
  | JUndefined | JNull => true
  | _ => false
  end.

(** Truthiness, as used by [!!v], [v || w] and [if (v)]. *)
Definition truthy (v : jsval) : bool :=
  match v with
  | JUndefined | JNull => false
  | JBool b => b
  | JNum z => negb (z =? 0)
  | JStr s => negb (bool_decide (s = ""%string))
  | JObj _ => true
  end.

(** [v === w] *)
Definition strictEq (v w : jsval) : bool := bool_decide (v = w).

(** The property name under which [obj[v]] is read or written. *)
Definition toPropertyKey (v : jsval) : string :=
  match v with
  | JUndefined => "undefined"
  | JNull => "null"
  | JBool true => "true"
  | JBool false => "false"
  | JNum z => pretty z
  | JStr s => s
  | JObj _ => "[object Object]"
  end.

(** A default parameter [p = d] takes [d] when the argument is
    [undefined]. *)
Definition orDefault (d v : jsval) : jsval :=
  match v with
  | JUndefined => d
  | _ => v
  end.

Definition RED : jsval := JBool true.
Definition BLACK : jsval := JBool false.

(** ** Outcomes *)

Inductive error : Type :=
| TypeError            (* property of null, call of something not a function *)
| ValueIsNull          (* 'Value can not be null!' *)
| KeyAndValueNotFound  (* 'Key and value not found' *)
| ExpectStringOrNumber (* 'Expect string or number, found null' *)
| KeyTooLong           (* 'String type key exceed STRING_ENCODING_LENGTH' *)
| InputNotString       (* 'Input should be string' *)
| InconsistentTypes.   (* 'Not consistent comparation type: ...' *)

(** What running a piece of code gives: a value, an exception, or no
    result at all.  [OutOfFuel] stands for a run that does not come back
    (a descent through a cyclic store); [Dangling] for a reference to an
    object the store does not hold, which no JavaScript run can produce. *)
Inductive outcome (A : Type) : Type :=
| Ret (a : A)
| Throw (e : error)
| OutOfFuel
| Dangling.

Arguments Ret {A} a.
Arguments Throw {A} e.
Arguments OutOfFuel {A}.
Arguments Dangling {A}.

Definition obind {A B} (o : outcome A) (k : A → outcome B) : outcome B :=
  match o with
  | Ret a => k a
  | Throw e => Throw e
  | OutOfFuel => OutOfFuel
  | Dangling => Dangling
  end.

(** ** RedBlackNode.js *)

Definition addr := nat.

(** A node object.  [left] and [right] are references into the store. *)
Record RedBlackNode : Type := mkNode {
  left : option addr;
  right : option addr;
  key : jsval;
  value : jsval;
  color : jsval;
  size : Z
}.

Definition setLeft (p : option addr) (n : RedBlackNode) : RedBlackNode :=
  mkNode p (right n) (key n) (value n) (color n) (size n).
Definition setRight (p : option addr) (n : RedBlackNode) : RedBlackNode :=
  mkNode (left n) p (key n) (value n) (color n) (size n).
Definition setKey (k : jsval) (n : RedBlackNode) : RedBlackNode :=
  mkNode (left n) (right n) k (value n) (color n) (size n).
Definition setValue (v : jsval) (n : RedBlackNode) : RedBlackNode :=
  mkNode (left n) (right n) (key n) v (color n) (size n).
Definition setColor (c : jsval) (n : RedBlackNode) : RedBlackNode :=
  mkNode (left n) (right n) (key n) (value n) c (size n).
Definition setSize (z : Z) (n : RedBlackNode) : RedBlackNode :=
  mkNode (left n) (right n) (key n) (value n) (color n) z.

Definition STRING_ENCODING_LENGTH : Z := 8.
Definition STRING_SEGMENT : Z := 58.
Definition STRING_COMBINATION : Z := STRING_SEGMENT ^ STRING_ENCODING_LENGTH.

(** [new RedBlackNode(key, value, color, size)]; an argument left out is
    passed as [JUndefined] (and [size] as its default). *)
Definition newRedBlackNode (k v c : jsval) (sz : Z) : outcome RedBlackNode :=
  let tooLong := match k with
                 | JStr s => bool_decide (Z.of_nat (String.length s) > STRING_ENCODING_LENGTH)
                 | _ => false
                 end in
  if tooLong then Throw KeyTooLong
  else Ret (mkNode None None (orDefault JNull k) (orDefault JNull v)
                   (orDefault JNull c) sz).

Definition charCode (c : Ascii.ascii) : Z := Z.of_nat (Ascii.nat_of_ascii c).

(** [[...s].map(char => char.charCodeAt(0) - 64).reduce((a, b) => a + b)]
    on a non-empty [s]; the second argument is the running sum. *)
Fixpoint sumCodes (s : string) (acc : Z) : Z :=
  match s with
  | EmptyString => acc
  | String c rest => sumCodes rest (acc + (charCode c - 64))
  end.

(** [decodeStrKey(key)].  [None] is [NaN], which is what the empty string
    decodes to ([''.charCodeAt(0)] is [NaN]).  For 7-bit characters every
    intermediate value is an integer below 2^53 in magnitude
    (at most 64 * 58^8 plus the small sum), so the floating-point
    arithmetic of the source is the integer arithmetic written here. *)
Definition decodeStrKey (k : jsval) : outcome (option Z) :=
  match k with
  | JStr EmptyString => Ret None
  | JStr (String c rest) =>
      let k0 := match rest with
                | EmptyString => 0
                | String c1 rest1 => sumCodes rest1 (charCode c1 - 64)
                end in
      Ret (Some (k0 + (charCode c - 64) * STRING_COMBINATION))
  | _ => Throw InputNotString
  end.

(** [a > b] and [a < b] on numbers that may be [NaN]. *)
Definition numGt (a b : option Z) : bool :=
  match a, b with
  | Some x, Some y => bool_decide (x > y)
  | _, _ => false
  end.
Definition numLt (a b : option Z) : bool :=
  match a, b with
  | Some x, Some y => bool_decide (x < y)
  | _, _ => false
  end.

(** [this.compareTo(node)], on the two keys it reads. *)
Definition compareTo (thisKey nodeKey : jsval) : outcome Z :=
  match thisKey, nodeKey with
  | JNum a, JNum b =>
      if bool_decide (a > b) then Ret 1
      else if bool_decide (a < b) then Ret (-1)
      else Ret 0
  | JStr _, JStr _ =>
      obind (decodeStrKey thisKey) (fun key1 =>
      obind (decodeStrKey nodeKey) (fun key2 =>
      if numGt key1 key2 then Ret 1
      else if numLt key1 key2 then Ret (-1)
      else Ret 0))
  | _, _ => Throw InconsistentTypes
  end.

(** ** RedBlackTree.js: the object and its store *)

(** A [Set] of keys: no key twice, in order of first insertion
    (which is the order [Array.from] lists them in). *)
Definition setAdd (k : jsval) (ks : list jsval) : list jsval :=
  if bool_decide (k ∈ ks) then ks else ks ++ [k].
Definition setDelete (k : jsval) (ks : list jsval) : list jsval :=
  filter (λ x, x ≠ k) ks.

(** One [RedBlackTree] instance together with the node objects it can
    reach: [store] holds the objects, the two roots are references into
    it, and [invertedIndex] maps a property name to the key set kept
    under it. *)
Record rbt : Type := mkRbt {
  store : list RedBlackNode;
  numberRoot : option addr;
  stringRoot : option addr;
  invertedIndex : gmap string (list jsval)
}.

(** [new RedBlackTree()] *)
Definition emptyRbt : rbt := mkRbt [] None None ∅.

(** [invertedIndex] is a plain object, so a name it does not own is looked
    up in [Object.prototype].  The table gives, for each inherited name,
    how many elements [Array.from] makes of the inherited member (its
    [length]; none for [__proto__]). *)
Definition objectPrototype : list (string * nat) :=
  [ ("constructor", 1); ("hasOwnProperty", 1); ("isPrototypeOf", 1);
    ("propertyIsEnumerable", 1); ("toLocaleString", 0); ("toString", 0);
    ("valueOf", 0); ("__defineGetter__", 2); ("__defineSetter__", 2);
    ("__lookupGetter__", 1); ("__lookupSetter__", 1); ("__proto__", 0) ]%nat.

Fixpoint assoc {A} (name : string) (tbl : list (string * A)) : option A :=
  match tbl with
  | [] => None
  | (n, a) :: rest => if bool_decide (n = name) then Some a else assoc name rest
  end.

(** The three things [this.invertedIndex[v]] can be. *)
Inductive slot : Type :=
| SlotKeys (ks : list jsval)     (* a key set put there by [putRecv] *)
| SlotInherited (len : nat)      (* a member of [Object.prototype] *)
| SlotUndefined.

Definition indexSlot (idx : gmap string (list jsval)) (v : jsval) : slot :=
  match idx !! toPropertyKey v with
  | Some ks => SlotKeys ks
  | None =>
      match assoc (toPropertyKey v) objectPrototype with
      | Some len => SlotInherited len
      | None => SlotUndefined
      end
  end.

(** ** Computations on the instance *)

Definition M (A : Type) : Type := rbt → outcome A * rbt.

Definition ret {A} (a : A) : M A := λ s, (Ret a, s).
Definition throw {A} (e : error) : M A := λ s, (Throw e, s).
Definition outOfFuel {A} : M A := λ s, (OutOfFuel, s).
Definition lift {A} (o : outcome A) : M A := λ s, (o, s).

Definition bind {A B} (m : M A) (k : A → M B) : M B :=
  λ s, match m s with
       | (Ret a, s') => k a s'
       | (Throw e, s') => (Throw e, s')
       | (OutOfFuel, s') => (OutOfFuel, s')
       | (Dangling, s') => (Dangling, s')
       end.

Notation "x <- c1 ;; c2" := (bind c1 (λ x, c2))
  (at level 100, c1 at next level, c2 at level 200, right associativity).
Notation "c1 ;; c2" := (bind c1 (λ _, c2))
  (at level 100, c2 at level 200, right associativity).

(** [a && b] and [!a] on computations: [b] runs only when [a] gave [true]. *)
Definition andM (a b : M bool) : M bool := x <- a ;; if x then b else ret false.
Definition notM (a : M bool) : M bool := x <- a ;; ret (negb x).

Definition withStore (s : rbt) (st : list RedBlackNode) : rbt :=
  mkRbt st (numberRoot s) (stringRoot s) (invertedIndex s).
Definition withIndex (s : rbt) (idx : gmap string (list jsval)) : rbt :=
  mkRbt (store s) (numberRoot s) (stringRoot s) idx.

Definition getNumberRoot : M (option addr) := λ s, (Ret (numberRoot s), s).
Definition getStringRoot : M (option addr) := λ s, (Ret (stringRoot s), s).
Definition setNumberRoot (p : option addr) : M unit :=
  λ s, (Ret tt, mkRbt (store s) p (stringRoot s) (invertedIndex s)).
Definition setStringRoot (p : option addr) : M unit :=
  λ s, (Ret tt, mkRbt (store s) (numberRoot s) p (invertedIndex s)).

(** Reading any property of [p]: a [TypeError] when [p] is [null]. *)
Definition deref (p : option addr) : M RedBlackNode :=
  λ s, match p with
       | None => (Throw TypeError, s)
       | Some a => match store s !! a with
                   | Some n => (Ret n, s)
                   | None => (Dangling, s)
                   end
       end.

(** [p.f] *)
Definition getf {A} (f : RedBlackNode → A) (p : option addr) : M A :=
  n <- deref p ;; ret (f n).

(** [p.f = v], as the update [upd] of the object [p] refers to. *)
Definition setf (upd : RedBlackNode → RedBlackNode) (p : option addr) : M unit :=
  λ s, match p with
       | None => (Throw TypeError, s)
       | Some a => match store s !! a with
                   | Some n => (Ret tt, withStore s (<[a := upd n]> (store s)))
                   | None => (Dangling, s)
                   end
       end.

(** A node object enters the store when a tree first links it; until then
    only local variables of the running method refer to it. *)
Definition alloc (n : RedBlackNode) : M addr :=
  λ s, (Ret (length (store s)), withStore s (store s ++ [n])).

(** Recursion depth and loop length are bounded by the number of objects
    in the store whenever the store holds trees. *)
Definition getFuel : M nat := λ s, (Ret (S (length (store s))), s).

(** The index update of [putRecv]:
    [if (typeof this.invertedIndex[v] === 'undefined')
       this.invertedIndex[v] = new Set([k]);
     else this.invertedIndex[v].add(k);] *)
Definition indexAdd (v k : jsval) : M unit :=
  λ s, match indexSlot (invertedIndex s) v with
       | SlotUndefined =>
           (Ret tt, withIndex s (<[toPropertyKey v := [k]]> (invertedIndex s)))
       | SlotKeys ks =>
           (Ret tt, withIndex s (<[toPropertyKey v := setAdd k ks]> (invertedIndex s)))
       | SlotInherited _ => (Throw TypeError, s)
       end.

(** [this.invertedIndex[v].delete(k)] *)
Definition indexDelete (v k : jsval) : M unit :=
  λ s, match indexSlot (invertedIndex s) v with
       | SlotKeys ks =>
           (Ret tt, withIndex s (<[toPropertyKey v := setDelete k ks]> (invertedIndex s)))
       | SlotUndefined | SlotInherited _ => (Throw TypeError, s)
       end.

(** ** RedBlackTree.js: the methods *)

(** [isRed(node)] *)
Definition isRed (p : option addr) : M bool :=
  match p with
  | None => ret false
  | Some _ => c <- getf color p ;; ret (strictEq c RED)
  end.

(** [isEmpty()] *)
Definition isEmpty : M bool :=
  n <- getNumberRoot ;; s <- getStringRoot ;;
  ret (bool_decide (n = None) && bool_decide (s = None)).

(** [size()] of the table *)
Definition rbtSize : M Z :=
  e <- isEmpty ;;
  if e then ret 0 else
  n <- getNumberRoot ;;
  if bool_decide (n = None) then (s <- getStringRoot ;; getf size s) else
  s <- getStringRoot ;;
  if bool_decide (s = None) then (n <- getNumberRoot ;; getf size n) else
  a <- (n <- getNumberRoot ;; getf size n) ;;
  b <- (s <- getStringRoot ;; getf size s) ;;
  ret (a + b).

(** [sizeAt(node)] *)
Definition sizeAt (p : option addr) : M Z :=
  match p with
  | None => ret 0
  | Some _ => getf size p
  end.

(** [!c] on a colour *)
Definition notColor (c : jsval) : jsval := JBool (negb (truthy c)).

(** [rotateLeft(node)] *)
Definition rotateLeft (node : option addr) : M (option addr) :=
  let h := node in
  x <- getf right node ;;
  xl <- getf left x ;; setf (setRight xl) h ;;
  setf (setLeft h) x ;;
  xl <- getf left x ;; c <- getf color xl ;; setf (setColor c) x ;;
  xl <- getf left x ;; setf (setColor RED) xl ;;
  hs <- getf size h ;; setf (setSize hs) x ;;
  a <- (hl <- getf left h ;; sizeAt hl) ;;
  b <- (hr <- getf right h ;; sizeAt hr) ;;
  setf (setSize (a + b + 1)) h ;;
  ret x.

(** [rotateRight(node)] *)
Definition rotateRight (node : option addr) : M (option addr) :=
  let h := node in
  x <- getf left node ;;
  xr <- getf right x ;; setf (setLeft xr) h ;;
  setf (setRight h) x ;;
  xr <- getf right x ;; c <- getf color xr ;; setf (setColor c) x ;;
  xr <- getf right x ;; setf (setColor RED) xr ;;
  hs <- getf size h ;; setf (setSize hs) x ;;
  a <- (hl <- getf left h ;; sizeAt hl) ;;
  b <- (hr <- getf right h ;; sizeAt hr) ;;
  setf (setSize (a + b + 1)) h ;;
  ret x.

(** [flipColors(node)] *)
Definition flipColors (node : option addr) : M unit :=
  let h := node in
  c <- getf color h ;; setf (setColor (notColor c)) h ;;
  l <- getf left h ;; c <- getf color l ;; setf (setColor (notColor c)) l ;;
  r <- getf right h ;; c <- getf color r ;; setf (setColor (notColor c)) r.

(** [moveRedLeft(node)] *)
Definition moveRedLeft (node : option addr) : M (option addr) :=
  let h := node in
  flipColors h ;;
  c <- (r <- getf right h ;; rl <- getf left r ;; isRed rl) ;;
  if c then
    (r <- getf right h ;; r' <- rotateRight r ;; setf (setRight r') h ;;
     h <- rotateLeft h ;;
     flipColors h ;;
     ret h)
  else ret h.

(** [moveRedRight(node)] *)
Definition moveRedRight (node : option addr) : M (option addr) :=
  let h := node in
  flipColors h ;;
  c <- (l <- getf left h ;; ll <- getf left l ;; isRed ll) ;;
  if c then
    (h <- rotateRight h ;;
     flipColors h ;;
     ret h)
  else ret h.

(** [fixRightLining(node)].  The three tests and the colour flip all go
    through [node], the reference the method was called with, also after a
    rotation has made another object the root of the subtree. *)
Definition fixRightLining (node : option addr) : M (option addr) :=
  let fixedNode := node in
  c <- andM (r <- getf right node ;; isRed r)
            (notM (l <- getf left node ;; isRed l)) ;;
  fixedNode <- (if c then rotateLeft node else ret fixedNode) ;;
  c <- andM (l <- getf left node ;; isRed l)
            (l <- getf left node ;; ll <- getf left l ;; isRed ll) ;;
  fixedNode <- (if c then rotateRight node else ret fixedNode) ;;
  c <- andM (l <- getf left node ;; isRed l)
            (r <- getf right node ;; isRed r) ;;
  (if c then flipColors node else ret tt) ;;
  ret fixedNode.

(** [balance(node)] *)
Definition balance (node : option addr) : M (option addr) :=
  let h := node in
  c <- (r <- getf right h ;; isRed r) ;;
  h <- (if c then rotateLeft h else ret h) ;;
  c <- andM (l <- getf left h ;; isRed l)
            (l <- getf left h ;; ll <- getf left l ;; isRed ll) ;;
  h <- (if c then rotateRight h else ret h) ;;
  c <- andM (l <- getf left h ;; isRed l)
            (r <- getf right h ;; isRed r) ;;
  (if c then flipColors h else ret tt) ;;
  a <- (hl <- getf left h ;; sizeAt hl) ;;
  b <- (hr <- getf right h ;; sizeAt hr) ;;
  setf (setSize (a + b + 1)) h ;;
  ret h.

(** [minAt(node)] *)
Fixpoint minAt (fuel : nat) (node : option addr) : M (option addr) :=
  match fuel with
  | O => outOfFuel
  | S fuel' =>
      let x := node in
      l <- getf left x ;;
      if bool_decide (l = None) then ret x
      else (l <- getf left x ;; minAt fuel' l)
  end.

(** [putRecv(node, newNode)] *)
Fixpoint putRecv (fuel : nat) (node : option addr) (newNode : RedBlackNode)
  : M (option addr) :=
  match fuel with
  | O => outOfFuel
  | S fuel' =>
      match node with
      | None =>
          indexAdd (value newNode) (key newNode) ;;
          p <- alloc newNode ;;
          ret (Some p)
      | Some _ =>
          let nextNode := node in
          nk <- getf key node ;;
          cmp <- lift (compareTo (key newNode) nk) ;;
          (if bool_decide (cmp < 0) then
             (l <- getf left nextNode ;;
              l' <- putRecv fuel' l newNode ;;
              setf (setLeft l') nextNode)
           else if bool_decide (cmp > 0) then
             (r <- getf right nextNode ;;
              r' <- putRecv fuel' r newNode ;;
              setf (setRight r') nextNode)
           else setf (setValue (value newNode)) nextNode) ;;
          nextNode <- fixRightLining nextNode ;;
          a <- (l <- getf left nextNode ;; sizeAt l) ;;
          b <- (r <- getf right nextNode ;; sizeAt r) ;;
          setf (setSize (a + b + 1)) nextNode ;;
          indexAdd (value newNode) (key newNode) ;;
          ret nextNode
      end
  end.

(** What [find] hands back: a stored value (or [null]), an array of keys,
    or the record [{ key, value }] whose [value] is an array of keys or
    [null]. *)
Inductive found : Type :=
| FValue (v : jsval)
| FArray (ks : list jsval)
| FRecord (k : jsval) (ks : option (list jsval)).

(** [!!r] *)
Definition foundTruthy (r : found) : bool :=
  match r with
  | FValue v => truthy v
  | FArray _ | FRecord _ _ => true
  end.

(** [Array.from(this.invertedIndex[v])], when that slot is not undefined *)
Definition slotArray (sl : slot) : option (list jsval) :=
  match sl with
  | SlotKeys ks => Some ks
  | SlotInherited len => Some (replicate len JUndefined)
  | SlotUndefined => None
  end.

Definition getIndexSlot (v : jsval) : M slot :=
  λ s, (Ret (indexSlot (invertedIndex s) v), s).

(** [findIter(node, searchNode)]; one unit of fuel per turn of the loop. *)
Fixpoint findIter (fuel : nat) (node : option addr) (searchNode : RedBlackNode)
  : M found :=
  match fuel with
  | O => outOfFuel
  | S fuel' =>
      let currentNode := node in
      match currentNode with
      | None => ret (FValue JNull)
      | Some _ =>
          ck <- getf key currentNode ;;
          cmp <- lift (compareTo (key searchNode) ck) ;;
          if bool_decide (cmp < 0) then
            (l <- getf left currentNode ;; findIter fuel' l searchNode)
          else if bool_decide (cmp > 0) then
            (r <- getf right currentNode ;; findIter fuel' r searchNode)
          else if isNullish (value searchNode) then
            (v <- getf value currentNode ;; ret (FValue v))
          else
            (v <- getf value currentNode ;;
             if negb (strictEq v (value searchNode)) then ret (FValue JNull)
             else
               (v <- getf value currentNode ;;
                keys <- getIndexSlot v ;;
                k <- getf key currentNode ;;
                ret (FRecord k (slotArray keys))))
      end
  end.

(** [find(obj)], on the two properties of [obj] that it reads; a property
    [obj] lacks reads as [JUndefined].  The if-chain either returns
    ([inl]) or leaves a search node to look for ([inr]). *)
Definition find (objKey objValue : jsval) : M found :=
  searchNode <- lift (newRedBlackNode JUndefined JUndefined JUndefined 1) ;;
  let hasKey := truthy objKey in
  let hasValue := truthy objValue in
  go <- (if hasKey && hasValue then
           ret (inr (setValue objValue (setKey objKey searchNode)))
         else if hasKey then
           ret (inr (setKey objKey searchNode))
         else if hasValue then
           (keys <- getIndexSlot objValue ;;
            match slotArray keys with
            | Some ks => ret (inl (FArray ks))
            | None => ret (inl (FArray []))
            end)
         else throw KeyAndValueNotFound) ;;
  match go with
  | inl result => ret result
  | inr searchNode =>
      fuel <- getFuel ;;
      if bool_decide (typeof objKey = TNumber) then
        (r <- getNumberRoot ;; findIter fuel r searchNode)
      else if bool_decide (typeof objKey = TString) then
        (r <- getStringRoot ;; findIter fuel r searchNode)
      else ret (FValue JNull)
  end.

(** [constains(k)] *)
Definition constains (k : jsval) : M bool :=
  r <- find k JUndefined ;; ret (foundTruthy r).

(** What the variable [h] of [removeRecv] holds: a node reference, or,
    after [h = this.moveRedRight], the method itself. *)
Inductive hvar : Type :=
| HNode (p : option addr)
| HMethod.

(** [h.key]: a function object has no such property. *)
Definition hkey (h : hvar) : M jsval :=
  match h with
  | HNode p => getf key p
  | HMethod => ret JUndefined
  end.

(** [removeRecv(node, removeNode)].  The two arms of the outer [if]
    either return ([inl], the early [return null]) or fall through to the
    index update with their [h] ([inr]).  No node object ever carries a
    [val] property other than the [undefined] the successor arm writes, so
    [h.val] reads as [JUndefined]; [this.deleteMin] is not defined, so
    calling it is a [TypeError]. *)
Fixpoint removeRecv (fuel : nat) (node : option addr) (removeNode : RedBlackNode)
  : M (option addr) :=
  match fuel with
  | O => outOfFuel
  | S fuel' =>
      let h := node in
      nk <- getf key node ;;
      cmp <- lift (compareTo (key removeNode) nk) ;;
      go <- (if bool_decide (cmp < 0) then
               (c <- andM (notM (l <- getf left node ;; isRed l))
                          (notM (l <- getf left node ;; ll <- getf left l ;; isRed ll)) ;;
                h <- (if c then moveRedLeft h else ret h) ;;
                l <- getf left h ;;
                l' <- removeRecv fuel' l removeNode ;;
                setf (setLeft l') h ;;
                ret (inr h))
             else
               (c <- (l <- getf left h ;; isRed l) ;;
                h <- (if c then rotateRight h else ret h) ;;
                c <- andM (hk <- getf key h ;;
                           cmp <- lift (compareTo (key removeNode) hk) ;;
                           ret (bool_decide (cmp = 0)))
                          (r <- getf right h ;; ret (bool_decide (r = None))) ;;
                if c then ret (inl None) else
                c <- andM (notM (r <- getf right h ;; isRed r))
                          (notM (r <- getf right h ;; rl <- getf left r ;; isRed rl)) ;;
                let h := if c then HMethod else HNode h in
                hk <- hkey h ;;
                cmp <- lift (compareTo (key removeNode) hk) ;;
                match h with
                | HMethod => throw InconsistentTypes
                | HNode h =>
                    if bool_decide (cmp = 0) then
                      (r <- getf right h ;;
                       minFuel <- getFuel ;;
                       x <- minAt minFuel r ;;
                       xk <- getf key x ;; setf (setKey xk) h ;;
                       throw TypeError)
                    else
                      (r <- getf right h ;;
                       r' <- removeRecv fuel' r removeNode ;;
                       setf (setRight r') h ;;
                       ret (inr h))
                end)) ;;
      match go with
      | inl result => ret result
      | inr h =>
          k <- getf key h ;; indexDelete JUndefined k ;;
          balance h
      end
  end.

(** [removeNumber(key)] *)
Definition removeNumber (k : jsval) : M bool :=
  c <- andM (notM (r <- getNumberRoot ;; l <- getf left r ;; isRed l))
            (notM (r <- getNumberRoot ;; r' <- getf right r ;; isRed r')) ;;
  (if c then (r <- getNumberRoot ;; setf (setColor RED) r) else ret tt) ;;
  removeNode <- lift (newRedBlackNode k JUndefined JUndefined 1) ;;
  fuel <- getFuel ;;
  r <- getNumberRoot ;;
  r' <- removeRecv fuel r removeNode ;;
  setNumberRoot r' ;;
  e <- isEmpty ;;
  (if negb e then (r <- getNumberRoot ;; setf (setColor BLACK) r) else ret tt) ;;
  ret true.

(** [removeString(key)]: the result of [removeRecv] on the string tree is
    assigned to [this.numberRoot]. *)
Definition removeString (k : jsval) : M bool :=
  c <- andM (notM (r <- getStringRoot ;; l <- getf left r ;; isRed l))
            (notM (r <- getStringRoot ;; r' <- getf right r ;; isRed r')) ;;
  (if c then (r <- getStringRoot ;; setf (setColor RED) r) else ret tt) ;;
  removeNode <- lift (newRedBlackNode k JUndefined JUndefined 1) ;;
  fuel <- getFuel ;;
  r <- getStringRoot ;;
  r' <- removeRecv fuel r removeNode ;;
  setNumberRoot r' ;;
  e <- isEmpty ;;
  (if negb e then (r <- getStringRoot ;; setf (setColor BLACK) r) else ret tt) ;;
  ret true.

(** [remove(key)] *)
Definition remove (k : jsval) : M bool :=
  if isNullish k then throw ExpectStringOrNumber else
  c <- constains k ;;
  if negb c then ret false else
  if bool_decide (typeof k = TNumber) then removeNumber k
  else if bool_decide (typeof k = TString) then removeString k
  else ret false.

Section Clock.

(** What [Date.now()] reads during the call. *)
Variable now : Z.

(** [getRandomKey()] *)
Definition getRandomKey : M jsval := ret (JNum now).

(** [put(key, value)] *)
Definition put (key value : jsval) : M unit :=
  k <- (if isNullish key then getRandomKey else ret key) ;;
  newNode <- lift (newRedBlackNode k value RED 1) ;;
  (if bool_decide (typeof key = TNumber) then
     (fuel <- getFuel ;;
      r <- getNumberRoot ;;
      r' <- putRecv fuel r newNode ;;
      setNumberRoot r' ;;
      r <- getNumberRoot ;; setf (setColor BLACK) r)
   else ret tt) ;;
  (if bool_decide (typeof key = TString) then
     (fuel <- getFuel ;;
      r <- getStringRoot ;;
      r' <- putRecv fuel r newNode ;;
      setStringRoot r' ;;
      r <- getStringRoot ;; setf (setColor BLACK) r)
   else ret tt).

(** [insert(val)].  The argument of [put] is the object literal
    [{ value: val }]: a fresh object, which [put] receives as its [key]
    while its [value] parameter is left out.  Nothing reads the object's
    content or keeps its reference, so any reference stands for it. *)
Definition insert (val : jsval) : M bool :=
  if isNullish val then throw ValueIsNull else
  lastSize <- rbtSize ;;
  put (JObj 0) JUndefined ;;
  sz <- rbtSize ;;
  if bool_decide (sz > lastSize) then ret true else ret false.

End Clock.

(** ** RedBlackTree.js: the methods that read the table *)

(** The two exceptions the reading methods throw of their own.  A method
    that can throw one of them gives it back on the left of a sum; the
    exceptions of the code it calls come out as before. *)
Inductive queryError : Type :=
| TreeIsEmpty        (* 'Tree is empty' *)
| CanNotAcceptNull.  (* 'Can not accept null value!' *)

Definition Q (A : Type) : Type := M (queryError + A).

Definition qret {A} (a : A) : Q A := ret (inr a).
Definition qthrow {A} (e : queryError) : Q A := ret (inl e).
Definition qbind {A B} (m : Q A) (k : A → Q B) : Q B :=
  r <- m ;;
  match r with
  | inl e => ret (inl e)
  | inr a => k a
  end.

Notation "x <~ c1 ;; c2" := (qbind c1 (λ x, c2))
  (at level 100, c1 at next level, c2 at level 200, right associativity).

(** [maxAt(node)] *)
Fixpoint maxAt (fuel : nat) (node : option addr) : M (option addr) :=
  match fuel with
  | O => outOfFuel
  | S fuel' =>
      r <- getf right node ;;
      if bool_decide (r = None) then ret node
      else (r <- getf right node ;; maxAt fuel' r)
  end.

(** [min()] *)
Definition rbtMin : Q (option addr) :=
  e <- isEmpty ;;
  if e then qthrow TreeIsEmpty else
  n <- getNumberRoot ;;
  if bool_decide (n = None) then
    (fuel <- getFuel ;; s <- getStringRoot ;; x <- minAt fuel s ;; qret x)
  else
    (fuel <- getFuel ;; n <- getNumberRoot ;; x <- minAt fuel n ;; qret x).

(** [max()] *)
Definition rbtMax : Q (option addr) :=
  e <- isEmpty ;;
  if e then qthrow TreeIsEmpty else
  s <- getStringRoot ;;
  if bool_decide (s = None) then
    (fuel <- getFuel ;; n <- getNumberRoot ;; x <- maxAt fuel n ;; qret x)
  else
    (fuel <- getFuel ;; s <- getStringRoot ;; x <- maxAt fuel s ;; qret x).

(** What [keysRange] and [entriesRange] can be called with: [null],
    nothing, a node object of the store, or any other object, of which
    only the [key] is read. *)
Inductive nodeArg : Type :=
| ArgNull
| ArgUndefined
| ArgRef (p : addr)
| ArgObj (key : jsval).

(** [arg === null] *)
Definition isNullArg (a : nodeArg) : bool :=
  match a with
  | ArgNull => true
  | _ => false
  end.

(** [arg.key] *)
Definition argKey (a : nodeArg) : M jsval :=
  match a with
  | ArgNull | ArgUndefined => throw TypeError
  | ArgRef p => getf key (Some p)
  | ArgObj k => ret k
  end.

(** A node reference handed on as an argument. *)
Definition asArg (p : option addr) : nodeArg :=
  match p with
  | Some a => ArgRef a
  | None => ArgNull
  end.

(** [keysRangeRecv(node, arr, min, max)]; the array the calls push to is
    passed along. *)
Fixpoint keysRangeRecv (fuel : nat) (node : option addr) (arr : list jsval)
    (min max : RedBlackNode) : M (list jsval) :=
  match fuel with
  | O => outOfFuel
  | S fuel' =>
      match node with
      | None => ret arr
      | Some _ =>
          nk <- getf key node ;;
          cmpLow <- lift (compareTo (key min) nk) ;;
          nk <- getf key node ;;
          cmpHigh <- lift (compareTo (key max) nk) ;;
          arr <- (if bool_decide (cmpLow < 0) then
                    (l <- getf left node ;; keysRangeRecv fuel' l arr min max)
                  else ret arr) ;;
          arr <- (if bool_decide (cmpLow ≤ 0) && bool_decide (cmpHigh >= 0) then
                    (k <- getf key node ;; ret (arr ++ [k]))
                  else ret arr) ;;
          if bool_decide (cmpHigh > 0) then
            (r <- getf right node ;; keysRangeRecv fuel' r arr min max)
          else ret arr
      end
  end.

(** [keysRange(min, max)] *)
Definition keysRange (min max : nodeArg) : Q (list jsval) :=
  if isNullArg min || isNullArg max then qthrow CanNotAcceptNull else
  let numberKeys := [] in
  let stringKeys := [] in
  mk <- argKey min ;;
  numberKeys <-
    (if bool_decide (typeof mk = TNumber) then
       (mk <- argKey min ;;
        low <- lift (newRedBlackNode mk JUndefined JUndefined 1) ;;
        fuel <- getFuel ;;
        r <- getNumberRoot ;; m <- maxAt fuel r ;; hk <- getf key m ;;
        high <- lift (newRedBlackNode hk JUndefined JUndefined 1) ;;
        r <- getNumberRoot ;;
        keysRangeRecv fuel r numberKeys low high)
     else ret numberKeys) ;;
  xk <- argKey max ;;
  stringKeys <-
    (if bool_decide (typeof xk = TString) then
       (fuel <- getFuel ;;
        r <- getStringRoot ;; m <- minAt fuel r ;; lk <- getf key m ;;
        low <- lift (newRedBlackNode lk JUndefined JUndefined 1) ;;
        xk <- argKey max ;;
        high <- lift (newRedBlackNode xk JUndefined JUndefined 1) ;;
        r <- getStringRoot ;;
        keysRangeRecv fuel r stringKeys low high)
     else ret stringKeys) ;;
  qret (numberKeys ++ stringKeys).

(** [keys()] *)
Definition keys : Q (list jsval) :=
  e <- isEmpty ;;
  if e then qret [] else
  mn <~ rbtMin ;;
  mx <~ rbtMax ;;
  keysRange (asArg mn) (asArg mx).




(** [height(node)].  A call with [null] (or without argument) looks at
    the roots and calls [height] on their children; a child that is
    [null] makes that call look at the roots again.  [fuel] bounds the
    depth of the calls: a run that is out of fuel for every amount of it
    is one the engine ends when its stack is full. *)
Fixpoint rbtHeight (fuel : nat) (node : option addr) : M Z :=
  match fuel with
  | O => outOfFuel
  | S fuel' =>
      match node with
      | None =>
          e <- isEmpty ;;
          if e then ret 0 else
          n <- getNumberRoot ;;
          if bool_decide (n = None) then
            (a <- (s <- getStringRoot ;; l <- getf left s ;; rbtHeight fuel' l) ;;
             b <- (s <- getStringRoot ;; r <- getf right s ;; rbtHeight fuel' r) ;;
             ret (1 + Z.max a b))
          else
          s <- getStringRoot ;;
          if bool_decide (s = None) then
            (a <- (n <- getNumberRoot ;; l <- getf left n ;; rbtHeight fuel' l) ;;
             b <- (n <- getNumberRoot ;; r <- getf right n ;; rbtHeight fuel' r) ;;
             ret (1 + Z.max a b))
          else
          strings <-
            (a <- (s <- getStringRoot ;; l <- getf left s ;; rbtHeight fuel' l) ;;
             b <- (s <- getStringRoot ;; r <- getf right s ;; rbtHeight fuel' r) ;;
             ret (Z.max a b)) ;;
          numbers <-
            (a <- (n <- getNumberRoot ;; l <- getf left n ;; rbtHeight fuel' l) ;;
             b <- (n <- getNumberRoot ;; r <- getf right n ;; rbtHeight fuel' r) ;;
             ret (Z.max a b)) ;;
          ret (1 + strings + numbers)
      | Some _ => getf size node
      end
  end.

(** [removeMin()] and [removeMax()] have empty bodies: whatever they are
    called with, they give [undefined], which a link holds like [null]. *)
Definition removeMin (_ : option addr) : M (option addr) := ret None.
Definition removeMax (_ : option addr) : M (option addr) := ret None.

(** [removeMaxFrom(node)] *)
Definition removeMaxFrom (node : option addr) : M (option addr) := ret node.

(** [removeMinFrom(node)] *)
Definition removeMinFrom (node : option addr) : M (option addr) :=
  let h := node in
  l <- getf left h ;;
  if bool_decide (l = None) then ret None else
  c <- andM (notM (l <- getf left h ;; isRed l))
            (notM (l <- getf left h ;; ll <- getf left l ;; isRed ll)) ;;
  h <- (if c then moveRedLeft h else ret h) ;;
  l <- getf left h ;;
  l' <- removeMin l ;;
  setf (setLeft l') h ;;
  balance h.

(** * The trees that hang in the store

    The methods above work on node objects in a store.  What follows
    describes the same objects as trees, gives for each method of the
    insertion path the function on trees it computes, and defines what
    the statements about the table are written with.  That the methods
    compute these functions is proved further down ([rotateLeft_rep],
    [fixRightLining_rep], [putRecv_rep], [findIter_rep]). *)

(** A tree of node objects, each with the address it lives at. *)
Inductive tree : Type :=
| Leaf
| Node (a : addr) (l : tree) (k v c : jsval) (sz : Z) (r : tree).

(** The reference to the root object: [null] for the empty tree. *)
Definition ptr (t : tree) : option addr :=
  match t with
  | Leaf => None
  | Node a _ _ _ _ _ _ => Some a
  end.

(** The addresses of the node objects of a tree. *)
Fixpoint addrs (t : tree) : list addr :=
  match t with
  | Leaf => []
  | Node a l _ _ _ _ r => a :: addrs l ++ addrs r
  end.

(** Keys and values from left to right. *)
Fixpoint elems (t : tree) : list (jsval * jsval) :=
  match t with
  | Leaf => []
  | Node _ l k v _ _ r => elems l ++ (k, v) :: elems r
  end.

(** The longest path down, which bounds the depth of a descent. *)
Fixpoint height (t : tree) : nat :=
  match t with
  | Leaf => 0
  | Node _ l _ _ _ _ r => S (Nat.max (height l) (height r))
  end.

(** [rep h t]: the store [h] holds, at the addresses [t] names, exactly
    the node objects [t] describes. *)
Fixpoint rep (h : list RedBlackNode) (t : tree) : Prop :=
  match t with
  | Leaf => True
  | Node a l k v c sz r =>
      h !! a = Some (mkNode (ptr l) (ptr r) k v c sz) ∧ rep h l ∧ rep h r
  end.

(** [h'] differs from [h] at addresses in [A] only. *)
Definition footprint (A : list addr) (h h' : list RedBlackNode) : Prop :=
  length h' = length h ∧ ∀ p, p ∉ A → h' !! p = h !! p.

(** Reading a tree out of the store, to depth [fuel]. *)
Fixpoint reify (fuel : nat) (h : list RedBlackNode) (p : option addr)
  : option tree :=
  match fuel with
  | O => None
  | S fuel' =>
      match p with
      | None => Some Leaf
      | Some a =>
          match h !! a with
          | None => None
          | Some n =>
              match reify fuel' h (left n), reify fuel' h (right n) with
              | Some l, Some r =>
                  Some (Node a l (key n) (value n) (color n) (size n) r)
              | _, _ => None
              end
          end
      end
  end.

(** [isRed], [node.left], [node.right] and [sizeAt] on trees. *)
Definition isRedT (t : tree) : bool :=
  match t with
  | Leaf => false
  | Node _ _ _ _ c _ _ => strictEq c RED
  end.

Definition leftT (t : tree) : tree :=
  match t with
  | Leaf => Leaf
  | Node _ l _ _ _ _ _ => l
  end.

Definition rightT (t : tree) : tree :=
  match t with
  | Leaf => Leaf
  | Node _ _ _ _ _ _ r => r
  end.

Definition sizeAtT (t : tree) : Z :=
  match t with
  | Leaf => 0
  | Node _ _ _ _ _ sz _ => sz
  end.

(** [node.color = c] and [node.color = !node.color] *)
Definition setColorT (c : jsval) (t : tree) : tree :=
  match t with
  | Leaf => Leaf
  | Node a l k v _ sz r => Node a l k v c sz r
  end.

Definition flipT (t : tree) : tree :=
  match t with
  | Leaf => Leaf
  | Node a l k v c sz r => Node a l k v (notColor c) sz r
  end.

(** What [rotateLeft] and [rotateRight] make of a subtree whose right
    (left) child is there. *)
Definition rotateLeftT (t : tree) : tree :=
  match t with
  | Node a l k v c sz (Node b xl xk xv xc xsz xr) =>
      Node b (Node a l k v RED (sizeAtT l + sizeAtT xl + 1) xl) xk xv c sz xr
  | _ => t
  end.

Definition rotateRightT (t : tree) : tree :=
  match t with
  | Node a (Node b xl xk xv xc xsz xr) k v c sz r =>
      Node b xl xk xv c sz (Node a xr k v RED (sizeAtT xr + sizeAtT r + 1) r)
  | _ => t
  end.

(** What [flipColors] makes of a subtree with both children. *)
Definition flipColorsT (t : tree) : tree :=
  match t with
  | Node a l k v c sz r => Node a (flipT l) k v (notColor c) sz (flipT r)
  | Leaf => Leaf
  end.

Definition setRightT (r : tree) (t : tree) : tree :=
  match t with
  | Node a l k v c sz _ => Node a l k v c sz r
  | Leaf => Leaf
  end.

(** What [fixRightLining] makes of the subtree.  After a rotation the
    object the method was called with is a child of the new root, and the
    remaining tests (and the flip) look at that child. *)
Definition fixRightLiningT (t : tree) : tree :=
  if isRedT (rightT t) && negb (isRedT (leftT t)) then rotateLeftT t
  else if isRedT (leftT t) && isRedT (leftT (leftT t)) then
    let t2 := rotateRightT t in
    let node := rightT t2 in
    if isRedT (leftT node) && isRedT (rightT node)
    then setRightT (flipColorsT node) t2
    else t2
  else if isRedT (leftT t) && isRedT (rightT t) then flipColorsT t
  else t.

(** [node.size = sizeAt(node.left) + sizeAt(node.right) + 1] *)
Definition setSizeT (t : tree) : tree :=
  match t with
  | Node a l k v c _ r => Node a l k v c (sizeAtT l + sizeAtT r + 1) r
  | Leaf => Leaf
  end.

(** The result of a comparison that does not throw. *)
Definition cmpKeys (k1 k2 : jsval) : Z :=
  match compareTo k1 k2 with
  | Ret c => c
  | _ => 0
  end.

(** What [putRecv] makes of the subtree; [a0] is the address the new node
    object gets if it is linked. *)
Fixpoint putRecvT (a0 : addr) (t : tree) (n : RedBlackNode) : tree :=
  match t with
  | Leaf => Node a0 Leaf (key n) (value n) (color n) (size n) Leaf
  | Node a l k v c sz r =>
      let t1 :=
        if bool_decide (cmpKeys (key n) k < 0)
        then Node a (putRecvT a0 l n) k v c sz r
        else if bool_decide (cmpKeys (key n) k > 0)
        then Node a l k v c sz (putRecvT a0 r n)
        else Node a l k (value n) c sz r in
      setSizeT (fixRightLiningT t1)
  end.

(** The node [findIter] stops at, if any: its key and value. *)
Fixpoint findT (t : tree) (k : jsval) : option (jsval * jsval) :=
  match t with
  | Leaf => None
  | Node _ l k' v' _ _ r =>
      if bool_decide (cmpKeys k k' < 0) then findT l k
      else if bool_decide (cmpKeys k k' > 0) then findT r k
      else Some (k', v')
  end.

(** The index after [indexAdd]. *)
Definition indexAddT (idx : gmap string (list jsval)) (v k : jsval)
  : gmap string (list jsval) :=
  <[toPropertyKey v := setAdd k (default [] (idx !! toPropertyKey v))]> idx.

(** A value whose property name is not one of [Object.prototype]'s. *)
Definition ownable (v : jsval) : Prop :=
  assoc (toPropertyKey v) objectPrototype = None.

(** A number in the range where every integer is a [Number] and prints as
    its decimal digits. *)
Definition safeInteger (v : jsval) : bool :=
  match v with
  | JNum z => bool_decide (Z.abs z < 2 ^ 53)
  | _ => true
  end.

(** A value the index can keep a key set for, under the property name the
    embedding computes: a safe integer if it is a number, and not named
    like a member of [Object.prototype]. *)
Definition indexable (v : jsval) : Prop :=
  safeInteger v = true ∧ ownable v.

(** All keys of a tree have the given type. *)
Definition keysTyped (ty : jstype) (t : tree) : Prop :=
  Forall (λ e, typeof e.1 = ty) (elems t).

(** ** What the table holds *)

(** The integer by which a key is ordered: the number itself, or the
    surrogate [decodeStrKey] computes for a non-empty string. *)
Definition rank (k : jsval) : Z :=
  match k with
  | JNum z => z
  | JStr _ => match decodeStrKey k with
              | Ret (Some z) => z
              | _ => 0
              end
  | _ => 0
  end.

(** The characters of the string are 7-bit: for these the surrogate is an
    integer below 2^53 and the arithmetic of [decodeStrKey] is exact. *)
Fixpoint sevenBit (s : string) : bool :=
  match s with
  | EmptyString => true
  | String c rest => bool_decide (charCode c < 128) && sevenBit rest
  end.

(** A key the tree for keys of type [ty] can order: a number, or a
    non-empty string of 7-bit characters (which decodes to a number). *)
Definition keyOk (ty : jstype) (k : jsval) : bool :=
  bool_decide (typeof k = ty)
  && match k with
     | JNum _ => true
     | JStr s => negb (bool_decide (s = ""%string)) && sevenBit s
     | _ => false
     end.

Definition ranks (es : list (jsval * jsval)) : list Z := (λ e, rank e.1) <$> es.

(** Search-tree order: from left to right the keys are of the tree's type
    and strictly increasing in rank. *)
Definition bst (ty : jstype) (t : tree) : Prop :=
  Forall (λ e, keyOk ty e.1 = true) (elems t)
  ∧ StronglySorted Z.lt (ranks (elems t)).

#[global] Instance bst_dec ty t : Decision (bst ty t).
Proof. unfold bst. apply _. Defined.

(** The two trees as the store holds them. *)
Definition numberTree (s : rbt) : option tree :=
  reify (S (length (store s))) (store s) (numberRoot s).
Definition stringTree (s : rbt) : option tree :=
  reify (S (length (store s))) (store s) (stringRoot s).

(** The state every table built by [put] of storable keys is in: both
    roots lead to trees in search-tree order (keys of the tree's type,
    no empty string, strictly increasing) that share no node object. *)
Definition wellFormed (s : rbt) : bool :=
  match numberTree s, stringTree s with
  | Some tn, Some ts =>
      bool_decide (NoDup (addrs tn ++ addrs ts))
      && bool_decide (bst TNumber tn) && bool_decide (bst TString ts)
  | _, _ => false
  end.

(** Keys and values of a tree of the instance, from left to right. *)
Definition entriesOf (ot : option tree) : list (jsval * jsval) :=
  match ot with
  | Some t => elems t
  | None => []
  end.

(** The tree [put], [find] and [remove] route a key to. *)
Definition routedEntries (s : rbt) (k : jsval) : list (jsval * jsval) :=
  match typeof k with
  | TNumber => entriesOf (numberTree s)
  | TString => entriesOf (stringTree s)
  | _ => []
  end.

(** The first entry whose key compares equal to [k]. *)
Fixpoint lookupE (k : jsval) (es : list (jsval * jsval)) : option (jsval * jsval) :=
  match es with
  | [] => None
  | (k', v') :: es' =>
      if bool_decide (rank k = rank k') then Some (k', v') else lookupE k es'
  end.

(** Ordered insertion: a key that compares equal to one present keeps the
    old key and takes the new value. *)
Fixpoint insE (k v : jsval) (es : list (jsval * jsval)) : list (jsval * jsval) :=
  match es with
  | [] => [(k, v)]
  | (k', v') :: es' =>
      if bool_decide (rank k < rank k') then (k, v) :: es
      else if bool_decide (rank k > rank k') then (k', v') :: insE k v es'
      else (k', v) :: es'
  end.

(** A key [put] stores: a number, or a non-empty string of 7-bit
    characters within the length limit. *)
Definition storableKey (k : jsval) : bool :=
  match k with
  | JNum _ => true
  | JStr s =>
      negb (bool_decide (s = ""%string)) && sevenBit s
      && bool_decide (Z.of_nat (String.length s) ≤ STRING_ENCODING_LENGTH)
  | _ => false
  end.

(** The value a node holds after construction with [v]. *)
Definition storedValue (v : jsval) : jsval := orDefault JNull v.

(** A key [find] can search for: truthy, and a number or a string (of
    7-bit characters). *)
Definition searchableKey (k : jsval) : bool :=
  match k with
  | JNum z => negb (z =? 0)
  | JStr s => negb (bool_decide (s = ""%string)) && sevenBit s
  | _ => false
  end.

(** The value [find({ key: k })] reports for an entry list. *)
Definition valueAt (k : jsval) (es : list (jsval * jsval)) : jsval :=
  match lookupE k es with
  | Some (_, v) => v
  | None => JNull
  end.

(** How many entries compare equal to [k]. *)
Fixpoint countKey (k : jsval) (es : list (jsval * jsval)) : nat :=
  match es with
  | [] => 0
  | (k', _) :: es' =>
      ((if bool_decide (rank k = rank k') then 1 else 0) + countKey k es')%nat
  end.

(** A run of [put] calls, in order. *)
Fixpoint puts (now : Z) (ops : list (jsval * jsval)) : M unit :=
  match ops with
  | [] => ret tt
  | (k, v) :: ops' => put now k v ;; puts now ops'
  end.

(** The key set the index keeps for the property name of [v]; empty when
    there is none. *)
Definition indexKeys (s : rbt) (v : jsval) : list jsval :=
  default [] (invertedIndex s !! toPropertyKey v).

(** The index after a run of [put] calls whose keys are all stored. *)
Definition indexAfter (idx : gmap string (list jsval)) (ops : list (jsval * jsval))
  : gmap string (list jsval) :=
  foldl (λ idx op, indexAddT idx (storedValue op.2) op.1) idx ops.

(** ** The red-black balance conditions *)

(** No red link hangs below a red link. *)
Fixpoint noRedRed (t : tree) : bool :=
  match t with
  | Leaf => true
  | Node _ l _ _ c _ r =>
      negb (strictEq c RED && (isRedT l || isRedT r))
      && noRedRed l && noRedRed r
  end.

(** The number of black links on every path down to an absent child, when
    it is the same on all of them. *)
Fixpoint blackHeight (t : tree) : option nat :=
  match t with
  | Leaf => Some 0%nat
  | Node _ l _ _ c _ r =>
      match blackHeight l, blackHeight r with
      | Some hl, Some hr =>
          if bool_decide (hl = hr)
          then Some (if strictEq c RED then hl else S hl)
          else None
      | _, _ => None
      end
  end.

Definition redBlackBalanced (t : tree) : bool :=
  noRedRed t && bool_decide (is_Some (blackHeight t)).

(** What a [put] call may be given for it to return: a storable key, and
    a value the index can keep a key set for. *)
Definition putOk (op : jsval * jsval) : Prop :=
  storableKey op.1 = true ∧ indexable (storedValue op.2).

(** ** Sample tables *)

(** The table of the repository's tests, with two string keys more. *)
Definition sampleOps : list (jsval * jsval) :=
  [ (JNum 6, JNum 60); (JNum 2, JNum 20); (JNum 5, JNum 50);
    (JNum 7, JNum 70); (JNum 1, JNum 10); (JNum 3, JNum 30);
    (JNum 8, JNum 80); (JNum 4, JNum 40);
    (JStr "a", JNum 3); (JStr "bb", JNum 0) ].

Definition sampleTable : rbt := (puts 0 sampleOps emptyRbt).2.

(** Keys put in descending order. *)
Definition descendingOps : list (jsval * jsval) :=
  [ (JNum 3, JNum 30); (JNum 2, JNum 20); (JNum 1, JNum 10); (JNum 0, JNum 5) ].

(** One numeric and one string key. *)
Definition mixedTable : rbt :=
  (puts 0 [ (JNum 1, JNum 10); (JStr "a", JNum 1) ] emptyRbt).2.

(** Three numeric keys, which make a root with two black children. *)
Definition threeTable : rbt :=
  (puts 0 [ (JNum 1, JNum 10); (JNum 2, JNum 20); (JNum 3, JNum 30) ] emptyRbt).2.

(** ** Sizes, ranges and ends of a tree *)

(** Every node's [size] is the number of nodes of its subtree. *)
Fixpoint sized (t : tree) : bool :=
  match t with
  | Leaf => true
  | Node _ l _ _ _ sz r =>
      bool_decide (sz = sizeAtT l + sizeAtT r + 1) && sized l && sized r
  end.

(** The subtrees below the root carry their sizes; the root's own [size]
    may be out of date, as it is between a descent and the assignment
    that closes [putRecv]. *)
Definition sizedBelow (t : tree) : bool :=
  match t with
  | Leaf => true
  | Node _ l _ _ _ _ r => sized l && sized r
  end.

Definition sizedTable (s : rbt) : bool :=
  match numberTree s, stringTree s with
  | Some tn, Some ts => sized tn && sized ts
  | _, _ => false
  end.

(** The tree [put(k, v)] leaves where [t] was: the descent of [putRecv]
    with the new node, then the root coloured black. *)
Definition putTree (s : rbt) (t : tree) (k v : jsval) : tree :=
  setColorT BLACK
    (putRecvT (length (store s)) t (mkNode None None k (storedValue v) RED 1)).

(** The entries whose key lies between [lo] and [hi] in the order of the
    tree. *)
Definition inRange (lo hi : jsval) (e : jsval * jsval) : bool :=
  bool_decide (rank lo ≤ rank e.1) && bool_decide (rank e.1 ≤ rank hi).

Definition rangeOf (lo hi : jsval) (es : list (jsval * jsval))
  : list (jsval * jsval) :=
  filter (λ e, inRange lo hi e = true) es.

(** The entries from [lo] on. *)
Definition fromKey (lo : jsval) (es : list (jsval * jsval))
  : list (jsval * jsval) :=
  filter (λ e, rank lo ≤ rank e.1) es.

(** The entries up to [hi]. *)
Definition uptoKey (hi : jsval) (es : list (jsval * jsval))
  : list (jsval * jsval) :=
  filter (λ e, rank e.1 ≤ rank hi) es.

(** The leftmost and the rightmost node of a tree that is not empty. *)
Fixpoint minT (t : tree) : tree :=
  match t with
  | Node _ (Node _ _ _ _ _ _ _ as l) _ _ _ _ _ => minT l
  | _ => t
  end.

Fixpoint maxT (t : tree) : tree :=
  match t with
  | Node _ _ _ _ _ _ (Node _ _ _ _ _ _ _ as r) => maxT r
  | _ => t
  end.

Definition keyT (t : tree) : jsval :=
  match t with
  | Leaf => JUndefined
  | Node _ _ k _ _ _ _ => k
  end.

(** The tree [min()] and the tree [max()] look into: numbers come before
    strings. *)
Definition minTree (tn ts : tree) : tree :=
  match tn with
  | Leaf => ts
  | _ => tn
  end.

Definition maxTree (tn ts : tree) : tree :=
  match ts with
  | Leaf => tn
  | _ => ts
  end.

(** The entry at the root. *)
Definition entryT (t : tree) : option (jsval * jsval) :=
  match t with
  | Leaf => None
  | Node _ _ k v _ _ _ => Some (k, v)
  end.

(** What [find({ key: k, value: v })] makes of the entry it stops at. *)
Definition foundRecord (idx : gmap string (list jsval)) (v : jsval)
    (oe : option (jsval * jsval)) : found :=
  match oe with
  | Some (k0, v0) =>
      if strictEq v0 v then FRecord k0 (slotArray (indexSlot idx v0))
      else FValue JNull
  | None => FValue JNull
  end.

(** ** What a computation leaves alone *)

(** A computation that never changes the instance or its store. *)
Definition readOnly {A} (m : M A) : Prop :=
  ∀ s o s', m s = (o, s') → s' = s.

(** A computation that changes node objects at most: the roots and the
    index stay. *)
Definition storeOnly {A} (m : M A) : Prop :=
  ∀ s o s', m s = (o, s') →
    numberRoot s' = numberRoot s ∧ stringRoot s' = stringRoot s
    ∧ invertedIndex s' = invertedIndex s.

(** [x.right], if [x] is a node object of the store. *)
Definition rightAt (s : rbt) (x : option addr) : option (option addr) :=
  match x with
  | Some b => right <$> store s !! b
  | None => None
  end.

(** ** More sample tables *)

(** A table with one numeric key, and one with one string key. *)
Definition oneNumberTable : rbt := (put 0 (JNum 7) (JNum 70) emptyRbt).2.
Definition oneStringTable : rbt := (put 0 (JStr "k") (JNum 70) emptyRbt).2.

(** Every key the two trees hold is one [put] stores (a string key is
    within the length limit of the node constructor). *)
Definition storableKeys (s : rbt) : bool :=
  forallb (λ e, storableKey e.1)
          (entriesOf (numberTree s) ++ entriesOf (stringTree s)).

(** ** What [height()] computes *)

(** The larger of the entry counts of the two subtrees of the root, when
    the root has both. *)
Definition childCount (t : tree) : option Z :=
  match t with
  | Node _ (Node _ _ _ _ _ _ _ as l) _ _ _ _ (Node _ _ _ _ _ _ _ as r) =>
      Some (Z.max (Z.of_nat (length (elems l))) (Z.of_nat (length (elems r))))
  | _ => None
  end.

(** The number [height()] returns for the two trees of a table, if it
    returns. *)
Definition heightResult (tn ts : tree) : option Z :=
  match tn, ts with
  | Leaf, Leaf => Some 0
  | Leaf, _ => (λ m, 1 + m) <$> childCount ts
  | _, Leaf => (λ m, 1 + m) <$> childCount tn
  | _, _ =>
      match childCount ts, childCount tn with
      | Some a, Some b => Some (1 + a + b)
      | _, _ => None
      end
  end.

(** What [balance] makes of a subtree: the three steps of the fix-up, each
    on the root the step before has left, and then the size of the root. *)
Definition balanceT (t : tree) : tree :=
  let t1 := if isRedT (rightT t) then rotateLeftT t else t in
  let t2 := if isRedT (leftT t1) && isRedT (leftT (leftT t1))
            then rotateRightT t1 else t1 in
  let t3 := if isRedT (leftT t2) && isRedT (rightT t2)
            then flipColorsT t2 else t2 in
  setSizeT t3.

(** What [moveRedLeft] and [moveRedRight] make of a subtree whose root has
    both children. *)
Definition moveRedLeftT (t : tree) : tree :=
  let t1 := flipColorsT t in
  if isRedT (leftT (rightT t1))
  then flipColorsT (rotateLeftT (setRightT (rotateRightT (rightT t1)) t1))
  else t1.

Definition moveRedRightT (t : tree) : tree :=
  let t1 := flipColorsT t in
  if isRedT (leftT (leftT t1)) then flipColorsT (rotateRightT t1) else t1.

(** ** Facts about the tree functions *)

Lemma addrs_flipT t : addrs (flipT t) = addrs t.
Proof. by destruct t. Qed.

Lemma elems_flipT t : elems (flipT t) = elems t.
Proof. by destruct t. Qed.

Lemma addrs_setSizeT t : addrs (setSizeT t) = addrs t.
Proof. by destruct t. Qed.

Lemma elems_setSizeT t : elems (setSizeT t) = elems t.
Proof. by destruct t. Qed.

Ltac case_colors :=
  repeat match goal with
  | |- context [isRedT ?t] => destruct t; cbn [isRedT leftT rightT andb negb]
  | |- context [strictEq ?c RED] =>
      destruct (strictEq c RED); cbn [isRedT leftT rightT andb negb]
  end.

Lemma fixRightLiningT_addrs t : addrs (fixRightLiningT t) ≡ₚ addrs t.
Proof.
  destruct t as [|a l k v c sz r]; [done|].
  unfold fixRightLiningT. cbn [leftT rightT].
  case_colors;
    cbn [rotateLeftT rotateRightT flipColorsT setRightT leftT rightT isRedT
         andb negb];
    case_colors; cbn [rotateLeftT rotateRightT flipColorsT setRightT flipT addrs];
    rewrite ?addrs_flipT; try done; solve_Permutation.
Qed.

Lemma fixRightLiningT_elems t : elems (fixRightLiningT t) = elems t.
Proof.
  destruct t as [|a l k v c sz r]; [done|].
  unfold fixRightLiningT. cbn [leftT rightT].
  case_colors;
    cbn [rotateLeftT rotateRightT flipColorsT setRightT leftT rightT isRedT
         andb negb];
    case_colors; cbn [rotateLeftT rotateRightT flipColorsT setRightT flipT elems];
    rewrite ?elems_flipT; try done; by simplify_list_eq.
Qed.

Lemma fixRightLiningT_node t : t ≠ Leaf → fixRightLiningT t ≠ Leaf.
Proof.
  intros Ht Hf. apply Ht.
  pose proof (fixRightLiningT_addrs t) as Hp. rewrite Hf in Hp.
  destruct t; [done|]. by apply Permutation_nil_cons in Hp.
Qed.

Lemma setSizeT_node t : t ≠ Leaf → setSizeT t ≠ Leaf.
Proof. by destruct t. Qed.

Lemma putRecvT_addrs a0 t n :
  ∃ extra, (extra = [] ∨ extra = [a0])
           ∧ addrs (putRecvT a0 t n) ≡ₚ extra ++ addrs t.
Proof.
  induction t as [|a l IHl k v c sz r IHr]; simpl.
  - exists [a0]. auto.
  - repeat case_bool_decide.
    + destruct IHl as (extra & He & IH). exists extra. split; [done|].
      rewrite addrs_setSizeT, fixRightLiningT_addrs. simpl. rewrite IH.
      solve_Permutation.
    + destruct IHr as (extra & He & IH). exists extra. split; [done|].
      rewrite addrs_setSizeT, fixRightLiningT_addrs. simpl. rewrite IH.
      solve_Permutation.
    + exists []. split; [auto|].
      by rewrite addrs_setSizeT, fixRightLiningT_addrs.
Qed.

Lemma putRecvT_NoDup a0 t n :
  NoDup (addrs t) → a0 ∉ addrs t → NoDup (addrs (putRecvT a0 t n)).
Proof.
  intros Hnd Ha0. destruct (putRecvT_addrs a0 t n) as (extra & [-> | ->] & ->).
  - done.
  - simpl. by apply NoDup_cons.
Qed.

Lemma putRecvT_addrs_elem a0 t n p :
  p ∈ addrs (putRecvT a0 t n) → p = a0 ∨ p ∈ addrs t.
Proof.
  destruct (putRecvT_addrs a0 t n) as (extra & [-> | ->] & ->); simpl.
  - auto.
  - intros [->|?]%elem_of_cons; auto.
Qed.

Lemma putRecvT_node a0 t n : putRecvT a0 t n ≠ Leaf.
Proof.
  destruct t; simpl; [done|].
  apply setSizeT_node, fixRightLiningT_node. by repeat case_bool_decide.
Qed.

(** ** Order of keys *)

Lemma keyOk_typeof ty k : keyOk ty k = true → typeof k = ty.
Proof. unfold keyOk. intros [H _]%andb_true_iff. by apply bool_decide_eq_true in H. Qed.

Lemma keyOk_type ty k : keyOk ty k = true → ty = TNumber ∨ ty = TString.
Proof.
  unfold keyOk. intros [H1 H2]%andb_true_iff. apply bool_decide_eq_true in H1.
  destruct k; try done; simpl in H1; auto.
Qed.

(** On keys a tree can order, [compareTo] is the comparison of ranks. *)
Lemma cmpKeys_rank ty k1 k2 :
  keyOk ty k1 = true → keyOk ty k2 = true →
  (cmpKeys k1 k2 < 0 ↔ rank k1 < rank k2)
  ∧ (cmpKeys k1 k2 > 0 ↔ rank k1 > rank k2).
Proof.
  unfold keyOk, cmpKeys.
  intros [H1 H1']%andb_true_iff [H2 H2']%andb_true_iff.
  apply bool_decide_eq_true in H1, H2.
  destruct k1 as [| | |z1|s1|]; try done; destruct k2 as [| | |z2|s2|];
    try done; simpl in *; try congruence.
  - repeat case_bool_decide; lia.
  - destruct s1 as [|c1 s1]; [done|]. destruct s2 as [|c2 s2]; [done|].
    cbn [decodeStrKey compareTo obind numGt numLt rank].
    repeat case_bool_decide; lia.
Qed.

Lemma keysTyped_bst ty t : bst ty t → keysTyped ty t.
Proof.
  intros [H _]. unfold keysTyped. eapply Forall_impl; [exact H|].
  intros e He. by apply keyOk_typeof.
Qed.

(** ** Ordered entry lists *)

Lemma lookupE_app k es1 es2 :
  lookupE k (es1 ++ es2)
  = match lookupE k es1 with
    | Some e => Some e
    | None => lookupE k es2
    end.
Proof.
  induction es1 as [|[k' v'] es1 IH]; simpl; [done|].
  by case_bool_decide.
Qed.

Lemma lookupE_none k es :
  Forall (λ e, rank e.1 ≠ rank k) es → lookupE k es = None.
Proof.
  induction 1 as [|[k' v'] es Hne _ IH]; simpl; [done|].
  simpl in Hne. by rewrite bool_decide_false.
Qed.

Lemma insE_app_lt k v el k' v' er :
  rank k < rank k' →
  insE k v (el ++ (k', v') :: er) = insE k v el ++ (k', v') :: er.
Proof.
  intros Hlt. induction el as [|[k0 v0] el IH]; simpl.
  - by rewrite bool_decide_true.
  - repeat case_bool_decide; by rewrite ?IH.
Qed.

Lemma insE_app_ge k v el e er :
  Forall (λ e, rank e.1 < rank k) el →
  insE k v (el ++ e :: er) = el ++ insE k v (e :: er).
Proof.
  induction 1 as [|[k0 v0] el Hlt _ IH]; [done|].
  simpl in Hlt. cbn [app insE].
  rewrite bool_decide_false by lia. rewrite bool_decide_true by lia.
  by rewrite IH.
Qed.

Lemma ranks_app es1 es2 : ranks (es1 ++ es2) = ranks es1 ++ ranks es2.
Proof. apply fmap_app. Qed.

Lemma insE_elem k v es e :
  e ∈ insE k v es → e = (k, v) ∨ e ∈ es ∨ ∃ v', (e.1, v') ∈ es ∧ rank e.1 = rank k.
Proof.
  induction es as [|[k0 v0] es IH]; simpl.
  - intros ->%list_elem_of_singleton. auto.
  - repeat case_bool_decide.
    + intros [->|Hin]%elem_of_cons; auto.
    + intros [->|Hin]%elem_of_cons.
      * right; left. apply elem_of_cons; auto.
      * apply IH in Hin as [->|[Hin|(v' & Hin & Hr)]]; auto.
        -- right; left. apply elem_of_cons; auto.
        -- right; right. exists v'. split; [|done]. apply elem_of_cons; auto.
    + intros [->|Hin]%elem_of_cons.
      * right; right. exists v0. split; [apply elem_of_cons; auto|simpl; lia].
      * right; left. apply elem_of_cons; auto.
Qed.

Lemma insE_sorted k v es :
  StronglySorted Z.lt (ranks es) → StronglySorted Z.lt (ranks (insE k v es)).
Proof.
  induction es as [|[k0 v0] es IH]; simpl.
  - intros _. repeat constructor.
  - intros [Hall Hs]%StronglySorted_cons.
    repeat case_bool_decide; simpl.
    + apply StronglySorted_cons. split.
      * apply Forall_cons. split; [done|].
        eapply Forall_impl; [exact Hall|]. simpl. intros; lia.
      * apply StronglySorted_cons; auto.
    + apply StronglySorted_cons. split; [|auto].
      apply Forall_forall. intros z Hz.
      apply list_elem_of_fmap in Hz as (e & -> & He).
      rewrite Forall_forall in Hall.
      apply insE_elem in He as [->|[He|(v' & He & Hr)]].
      * simpl. lia.
      * apply Hall. apply list_elem_of_fmap. eauto.
      * apply (Hall (rank e.1)). apply list_elem_of_fmap.
        exists (e.1, v'). done.
    + apply StronglySorted_cons; auto.
Qed.

Lemma insE_keyOk ty k v es :
  keyOk ty k = true →
  Forall (λ e, keyOk ty e.1 = true) es →
  Forall (λ e, keyOk ty e.1 = true) (insE k v es).
Proof.
  intros Hk Hall. apply Forall_forall. intros e He.
  rewrite Forall_forall in Hall.
  apply insE_elem in He as [->|[He|(v' & He & Hr)]]; auto.
  apply (Hall _ He).
Qed.

Lemma lookupE_insE_same k' k v es :
  rank k' = rank k → ∃ k0, lookupE k' (insE k v es) = Some (k0, v).
Proof.
  intros Hr. induction es as [|[k0 v0] es IH]; simpl.
  - rewrite bool_decide_true by done. eauto.
  - repeat case_bool_decide; simpl.
    + rewrite bool_decide_true by done. eauto.
    + rewrite bool_decide_false by lia. done.
    + rewrite bool_decide_true by lia. eauto.
Qed.

Lemma lookupE_insE_other k' k v es :
  rank k' ≠ rank k → lookupE k' (insE k v es) = lookupE k' es.
Proof.
  intros Hr. induction es as [|[k0 v0] es IH]; simpl.
  - by rewrite bool_decide_false.
  - repeat case_bool_decide; simpl; repeat case_bool_decide; try done; lia.
Qed.

(** ** Search trees *)

Lemma bst_node_inv ty a l k v c sz r :
  bst ty (Node a l k v c sz r) →
  bst ty l ∧ bst ty r ∧ keyOk ty k = true
  ∧ Forall (λ e, rank e.1 < rank k) (elems l)
  ∧ Forall (λ e, rank k < rank e.1) (elems r).
Proof.
  unfold bst. simpl. intros [Hok Hs].
  apply Forall_app in Hok as [Hokl Hok]. apply Forall_cons in Hok as [Hk Hokr].
  rewrite ranks_app in Hs. simpl in Hs.
  apply StronglySorted_app in Hs as (Hlr & Hsl & Hsr).
  apply StronglySorted_cons in Hsr as [Hkr Hsr].
  split_and!; auto.
  - apply Forall_forall. intros e He. apply Hlr.
    + apply list_elem_of_fmap. eauto.
    + apply elem_of_cons. auto.
  - apply Forall_forall. intros e He. rewrite Forall_forall in Hkr.
    apply Hkr. apply list_elem_of_fmap. eauto.
Qed.

Lemma findT_lookupE ty t k :
  bst ty t → keyOk ty k = true → findT t k = lookupE k (elems t).
Proof.
  intros Hbst Hk. induction t as [|a l IHl k' v' c sz r IHr]; simpl; [done|].
  apply bst_node_inv in Hbst as (Hbl & Hbr & Hk' & Hl & Hr).
  destruct (cmpKeys_rank ty k k' Hk Hk') as [Hlt Hgt].
  rewrite lookupE_app. simpl.
  case_bool_decide as H1; [|case_bool_decide as H2].
  - rewrite IHl by done. destruct (lookupE k (elems l)); [done|].
    rewrite bool_decide_false by lia.
    symmetry. apply lookupE_none.
    eapply Forall_impl; [exact Hr|]. simpl. intros; lia.
  - rewrite lookupE_none.
    + rewrite bool_decide_false by lia. auto.
    + eapply Forall_impl; [exact Hl|]. simpl. intros; lia.
  - rewrite lookupE_none.
    + rewrite bool_decide_true by lia. done.
    + eapply Forall_impl; [exact Hl|]. simpl. intros; lia.
Qed.

Lemma putRecvT_elems ty a0 t n :
  bst ty t → keyOk ty (key n) = true →
  elems (putRecvT a0 t n) = insE (key n) (value n) (elems t).
Proof.
  intros Hbst Hk. induction t as [|a l IHl k' v' c sz r IHr]; simpl; [done|].
  apply bst_node_inv in Hbst as (Hbl & Hbr & Hk' & Hl & Hr).
  destruct (cmpKeys_rank ty (key n) k' Hk Hk') as [Hlt Hgt].
  rewrite elems_setSizeT, fixRightLiningT_elems.
  case_bool_decide as H1; [|case_bool_decide as H2]; simpl.
  - rewrite IHl by done. rewrite insE_app_lt by lia. done.
  - rewrite IHr by done. rewrite insE_app_ge.
    + simpl. rewrite bool_decide_false by lia. by rewrite bool_decide_true by lia.
    + eapply Forall_impl; [exact Hl|]. simpl. intros; lia.
  - rewrite insE_app_ge.
    + simpl. rewrite bool_decide_false by lia. by rewrite bool_decide_false by lia.
    + eapply Forall_impl; [exact Hl|]. simpl. intros; lia.
Qed.

Lemma putRecvT_bst ty a0 t n :
  bst ty t → keyOk ty (key n) = true → bst ty (putRecvT a0 t n).
Proof.
  intros Hbst Hk. unfold bst. rewrite (putRecvT_elems ty) by done.
  destruct Hbst as [Hok Hs]. split.
  - by apply insE_keyOk.
  - by apply insE_sorted.
Qed.

Lemma elems_setColorT c t : elems (setColorT c t) = elems t.
Proof. by destruct t. Qed.

Lemma addrs_setColorT c t : addrs (setColorT c t) = addrs t.
Proof. by destruct t. Qed.

(** ** The store methods on trees *)

Lemma rep_lookup h a l k v c sz r :
  rep h (Node a l k v c sz r) →
  h !! a = Some (mkNode (ptr l) (ptr r) k v c sz).
Proof. intros [H _]. exact H. Qed.

Lemma rep_addr_lt h t a : rep h t → a ∈ addrs t → (a < length h)%nat.
Proof.
  induction t as [|b l IHl k v c sz r IHr]; simpl.
  - intros _ H. by apply not_elem_of_nil in H.
  - intros (Hb & Hl & Hr) Ha.
    apply elem_of_cons in Ha as [->|Ha]; [by eapply lookup_lt_Some|].
    apply elem_of_app in Ha as [Ha|Ha]; auto.
Qed.

(** Writing outside a tree leaves it in place. *)
Lemma rep_insert h t a n : rep h t → a ∉ addrs t → rep (<[a:=n]> h) t.
Proof.
  induction t as [|b l IHl k v c sz r IHr]; simpl; [done|].
  intros (Hb & Hl & Hr) Ha.
  apply not_elem_of_cons in Ha as [Hab Ha].
  apply not_elem_of_app in Ha as [Hal Har].
  split_and!; auto. by rewrite list_lookup_insert_ne.
Qed.

Lemma rep_app h t n : rep h t → rep (h ++ [n]) t.
Proof.
  induction t as [|b l IHl k v c sz r IHr]; simpl; [done|].
  intros (Hb & Hl & Hr). split_and!; auto.
  rewrite lookup_app_l; [done|]. by eapply lookup_lt_Some.
Qed.

(** Two stores that agree on a tree's addresses hold the same tree. *)
Lemma rep_agree h h' t :
  rep h t → (∀ a, a ∈ addrs t → h' !! a = h !! a) → rep h' t.
Proof.
  induction t as [|b l IHl k v c sz r IHr]; simpl; [done|].
  intros (Hb & Hl & Hr) Hag. split_and!.
  - rewrite Hag; [done|]. apply elem_of_cons; auto.
  - apply IHl; [done|]. intros a Ha. apply Hag.
    apply elem_of_cons; right. apply elem_of_app; auto.
  - apply IHr; [done|]. intros a Ha. apply Hag.
    apply elem_of_cons; right. apply elem_of_app; auto.
Qed.

Lemma bind_eq {A B} (m : M A) (k : A → M B) s a s' :
  m s = (Ret a, s') → bind m k s = k a s'.
Proof. unfold bind. by intros ->. Qed.

Lemma getf_eq {A} (f : RedBlackNode → A) a n s :
  store s !! a = Some n → getf f (Some a) s = (Ret (f n), s).
Proof. unfold getf, bind, deref, ret. by intros ->. Qed.

Lemma setf_eq upd a n s :
  store s !! a = Some n →
  setf upd (Some a) s = (Ret tt, withStore s (<[a := upd n]> (store s))).
Proof. unfold setf. by intros ->. Qed.

Lemma isRed_rep s t : rep (store s) t → isRed (ptr t) s = (Ret (isRedT t), s).
Proof.
  destruct t as [|a l k v c sz r]; simpl; [done|].
  intros (Ha & _). unfold bind. by rewrite (getf_eq _ _ _ _ Ha).
Qed.

Lemma sizeAt_rep s t : rep (store s) t → sizeAt (ptr t) s = (Ret (sizeAtT t), s).
Proof.
  destruct t as [|a l k v c sz r]; simpl; [done|].
  intros (Ha & _). by rewrite (getf_eq _ _ _ _ Ha).
Qed.

Lemma bind_assoc {A B C} (m : M A) (k1 : A → M B) (k2 : B → M C) s :
  bind (bind m k1) k2 s = bind m (λ x, bind (k1 x) k2) s.
Proof. unfold bind. destruct (m s) as [[]]; reflexivity. Qed.

Lemma bind_ret {A B} (a : A) (k : A → M B) s : bind (ret a) k s = k a s.
Proof. reflexivity. Qed.

Lemma bind_getf {A B} (f : RedBlackNode → A) (k : A → M B) a n s :
  store s !! a = Some n → bind (getf f (Some a)) k s = k (f n) s.
Proof. intros H. unfold bind at 1. by rewrite (getf_eq _ _ _ _ H). Qed.

Lemma bind_setf {B} upd (k : unit → M B) a n s :
  store s !! a = Some n →
  bind (setf upd (Some a)) k s = k tt (withStore s (<[a := upd n]> (store s))).
Proof. intros H. unfold bind at 1. by rewrite (setf_eq _ _ _ _ H). Qed.

Lemma bind_isRed {B} (k : bool → M B) t s :
  rep (store s) t → bind (isRed (ptr t)) k s = k (isRedT t) s.
Proof. intros H. unfold bind at 1. by rewrite (isRed_rep _ _ H). Qed.

Lemma bind_isRed_node {B} (k : bool → M B) a n s :
  store s !! a = Some n →
  bind (isRed (Some a)) k s = k (strictEq (color n) RED) s.
Proof.
  intros H. unfold isRed. rewrite bind_assoc, (bind_getf _ _ _ _ _ H).
  reflexivity.
Qed.

Lemma bind_sizeAt_node {B} (k : Z → M B) a n s :
  store s !! a = Some n → bind (sizeAt (Some a)) k s = k (size n) s.
Proof. intros H. unfold sizeAt. by rewrite (bind_getf _ _ _ _ _ H). Qed.

Lemma bind_sizeAt {B} (k : Z → M B) t s :
  rep (store s) t → bind (sizeAt (ptr t)) k s = k (sizeAtT t) s.
Proof. intros H. unfold bind at 1. by rewrite (sizeAt_rep _ _ H). Qed.

Lemma withStore_withStore s h h' : withStore (withStore s h) h' = withStore s h'.
Proof. reflexivity. Qed.

(** Symbolic execution: a read or a write at an address whose content is
    known through the writes made so far. *)
Ltac norm :=
  unfold setLeft, setRight, setKey, setValue, setColor, setSize, withStore,
    withIndex in *;
  cbn [left right key value color size store numberRoot stringRoot
       invertedIndex ptr andb negb leftT rightT isRedT sizeAtT rotateLeftT
       rotateRightT flipColorsT flipT setRightT setSizeT] in *.

(** Unpack what [rep] says about the nodes in sight. *)
Ltac rep_facts :=
  repeat match goal with
  | H : rep ?h (Node ?a ?l _ _ _ _ ?r) |- _ =>
      lazymatch goal with
      | _ : h !! a = Some _ |- _ => fail
      | _ =>
          let H1 := fresh "Hlk" in
          let H2 := fresh "Hrepl" in
          let H3 := fresh "Hrepr" in
          pose proof H as (H1 & H2 & H3)
      end
  end.

Ltac solve_lookup :=
  norm;
  repeat first
    [ rewrite list_lookup_insert_eq
        by (rewrite ?length_insert; eauto using lookup_lt_Some)
    | rewrite list_lookup_insert_ne by congruence ];
  first [ eassumption | reflexivity ].

Ltac solve_rep :=
  norm;
  repeat (apply rep_insert; [|solve [eauto]]);
  eassumption.

Ltac mstep1 :=
  first
    [ rewrite bind_assoc
    | rewrite bind_ret
    | erewrite bind_getf by solve_lookup
    | erewrite bind_setf by solve_lookup
    | erewrite bind_isRed by solve_rep
    | erewrite bind_sizeAt by solve_rep
    | erewrite bind_isRed_node by solve_lookup
    | erewrite bind_sizeAt_node by solve_lookup
    | erewrite setf_eq by solve_lookup
    | erewrite getf_eq by solve_lookup
    | erewrite isRed_rep by solve_rep
    | erewrite sizeAt_rep by solve_rep
    | match goal with
      | H : isRedT ?t = _ |- context [isRedT ?t] => rewrite H
      | H : strictEq ?c RED = _ |- context [strictEq ?c RED] => rewrite H
      end ].

Ltac msteps := norm; rep_facts; repeat (mstep1; norm).

Lemma footprint_refl A h : footprint A h h.
Proof. by split. Qed.

Lemma footprint_trans A h1 h2 h3 :
  footprint A h1 h2 → footprint A h2 h3 → footprint A h1 h3.
Proof.
  intros [L1 F1] [L2 F2]. split; [congruence|].
  intros p Hp. rewrite F2, F1; auto.
Qed.

Lemma footprint_weaken A B h h' :
  (∀ p, p ∈ A → p ∈ B) → footprint A h h' → footprint B h h'.
Proof. intros HAB [L F]. split; [done|]. intros p Hp. apply F. auto. Qed.

Lemma footprint_rep A h h' t :
  footprint A h h' → rep h t → (∀ p, p ∈ addrs t → p ∉ A) → rep h' t.
Proof.
  intros [_ F] Hrep Hdisj. eapply rep_agree; [done|].
  intros a Ha. apply F. auto.
Qed.

Ltac solve_footprint :=
  split; [by rewrite !length_insert|];
  let p := fresh "p" in let Hp := fresh "Hp" in
  intros p Hp; repeat (apply not_elem_of_cons in Hp as [? Hp]);
  rewrite !list_lookup_insert_ne by congruence; reflexivity.

(** What a duplicate-free list says about the lists inside it. *)
Lemma nodup_sub {A} (k l : list A) : NoDup k → l ⊆+ k → NoDup l.
Proof.
  intros Hk Hl. revert Hk.
  induction Hl as [|x l k Hlk IH|x y l|x l k Hl IH|l k m _ IH1 _ IH2]; intros Hk.
  - done.
  - apply NoDup_cons in Hk as [Hx Hk]. apply NoDup_cons. split; [|auto].
    intros Hin. apply Hx. by eapply elem_of_submseteq.
  - revert Hk. apply NoDup_Permutation_proper, Permutation_swap.
  - apply NoDup_cons in Hk as [_ Hk]. auto.
  - auto.
Qed.

Lemma nodup_notin {A} (k : list A) a l : NoDup k → a :: l ⊆+ k → a ∉ l.
Proof. intros Hk Hl. by apply (nodup_sub _ _ Hk), NoDup_cons in Hl as [? _]. Qed.

Lemma nodup_neq {A} (k : list A) a b : NoDup k → [a; b] ⊆+ k → a ≠ b.
Proof.
  intros Hk Hl. apply (nodup_notin _ _ _ Hk) in Hl.
  intros ->. apply Hl. apply elem_of_cons; auto.
Qed.

Lemma nodup_disjoint {A} (k l1 l2 : list A) p :
  NoDup k → l1 ++ l2 ⊆+ k → p ∈ l1 → p ∉ l2.
Proof.
  intros Hk Hl. apply (nodup_sub _ _ Hk), NoDup_app in Hl as (_ & Hd & _). auto.
Qed.

Ltac nd H :=
  simpl in H |- *;
  repeat match goal with |- _ ∧ _ => split end;
  first
    [ eapply (nodup_neq _ _ _ H); solve_submseteq
    | eapply (nodup_notin _ _ _ H); solve_submseteq
    | eapply (nodup_sub _ _ H); solve_submseteq
    | match goal with
      | Hp : _ ∈ _ |- _ => eapply (nodup_disjoint _ _ _ _ H); [|exact Hp];
                           solve_submseteq
      end ].

Lemma rotateLeft_rep s a l k v c sz b xl xk xv xc xsz xr :
  let t := Node a l k v c sz (Node b xl xk xv xc xsz xr) in
  rep (store s) t → NoDup (addrs t) →
  ∃ h', rotateLeft (Some a) s = (Ret (Some b), withStore s h')
        ∧ rep h' (rotateLeftT t)
        ∧ footprint [a; b] (store s) h'.
Proof.
  intros t (Ha & Hl & Hb & Hxl & Hxr) Hnd.
  assert (a ≠ b) by nd Hnd.
  assert ((a ∉ addrs l) ∧ (a ∉ addrs xl) ∧ (a ∉ addrs xr)) as (?&?&?) by nd Hnd.
  assert ((b ∉ addrs l) ∧ (b ∉ addrs xl) ∧ (b ∉ addrs xr)) as (?&?&?) by nd Hnd.
  unfold rotateLeft.
  msteps.
  eexists. split; [reflexivity|]. split.
  - simpl. split_and!; try solve_lookup; solve_rep.
  - solve_footprint.
Qed.

Lemma rotateRight_rep s a b xl xk xv xc xsz xr k v c sz r :
  let t := Node a (Node b xl xk xv xc xsz xr) k v c sz r in
  rep (store s) t → NoDup (addrs t) →
  ∃ h', rotateRight (Some a) s = (Ret (Some b), withStore s h')
        ∧ rep h' (rotateRightT t)
        ∧ footprint [a; b] (store s) h'.
Proof.
  intros t (Ha & (Hb & Hxl & Hxr) & Hr) Hnd.
  assert (a ≠ b) by nd Hnd.
  assert ((a ∉ addrs r) ∧ (a ∉ addrs xl) ∧ (a ∉ addrs xr)) as (?&?&?) by nd Hnd.
  assert ((b ∉ addrs r) ∧ (b ∉ addrs xl) ∧ (b ∉ addrs xr)) as (?&?&?) by nd Hnd.
  unfold rotateRight.
  msteps.
  eexists. split; [reflexivity|]. split.
  - simpl. split_and!; try solve_lookup; solve_rep.
  - solve_footprint.
Qed.

Lemma flipColors_rep s a b lk lv lc lsz ll lr k v c sz d rk rv rc rsz rl rr :
  let t := Node a (Node b ll lk lv lc lsz lr) k v c sz
                  (Node d rl rk rv rc rsz rr) in
  rep (store s) t → NoDup (addrs t) →
  ∃ h', flipColors (Some a) s = (Ret tt, withStore s h')
        ∧ rep h' (flipColorsT t)
        ∧ footprint [a; b; d] (store s) h'.
Proof.
  intros t (Ha & (Hb & Hll & Hlr) & (Hd & Hrl & Hrr)) Hnd.
  assert (a ≠ b ∧ a ≠ d ∧ b ≠ d) as (?&?&?) by nd Hnd.
  assert ((a ∉ addrs ll) ∧ (a ∉ addrs lr) ∧ (a ∉ addrs rl) ∧ (a ∉ addrs rr))
    as (?&?&?&?) by nd Hnd.
  assert ((b ∉ addrs ll) ∧ (b ∉ addrs lr) ∧ (b ∉ addrs rl) ∧ (b ∉ addrs rr))
    as (?&?&?&?) by nd Hnd.
  assert ((d ∉ addrs ll) ∧ (d ∉ addrs lr) ∧ (d ∉ addrs rl) ∧ (d ∉ addrs rr))
    as (?&?&?&?) by nd Hnd.
  unfold flipColors.
  msteps.
  unfold ret. eexists. split; [reflexivity|]. split.
  - simpl. split_and!; try solve_lookup; solve_rep.
  - solve_footprint.
Qed.

Lemma isRedT_node t : isRedT t = true → ∃ a l k v c sz r, t = Node a l k v c sz r.
Proof. destruct t; [done|]. eauto 10. Qed.

Ltac solve_elem :=
  simpl; repeat (rewrite ?elem_of_cons, ?elem_of_app, ?elem_of_nil in * );
  intuition.

Lemma fixRightLining_rep s t :
  t ≠ Leaf → rep (store s) t → NoDup (addrs t) →
  ∃ h', fixRightLining (ptr t) s = (Ret (ptr (fixRightLiningT t)), withStore s h')
        ∧ rep h' (fixRightLiningT t)
        ∧ footprint (addrs t) (store s) h'.
Proof.
  intros Hne Hrep Hnd. destruct t as [|a l k v c sz r]; [done|]. clear Hne.
  destruct s as [h0 nr sr idx]. norm.
  pose proof Hrep as (Ha & Hl & Hr).
  unfold fixRightLining, fixRightLiningT, andM, notM.
  msteps.
  destruct (isRedT r) eqn:Er; msteps.
  - destruct (isRedT l) eqn:El; msteps.
    + (* both children red: no rotation to the left *)
      destruct (isRedT_node _ El) as (b & ll & lk & lv & lc & lsz & lr & ->).
      destruct (isRedT_node _ Er) as (d & rl & rk & rv & rc & rsz & rr & ->).
      pose proof Hl as (Hb & Hll & Hlr).
      msteps.
      destruct (isRedT ll) eqn:Ell; msteps.
      * edestruct (rotateRight_rep (mkRbt h0 nr sr idx))
          as (h1 & Hrun & Hrep1 & Hfp1); [exact Hrep|exact Hnd|].
        rewrite (bind_eq _ _ _ _ _ Hrun).
        msteps.
        destruct (isRedT lr) eqn:Elr; msteps.
        -- destruct (isRedT_node _ Elr) as (e & ? & ? & ? & ? & ? & ? & ->).
           msteps.
           edestruct (flipColors_rep (mkRbt h1 nr sr idx) a)
             as (h2 & Hrun2 & Hrep2 & Hfp2); [norm; eassumption|nd Hnd|].
           norm. rewrite (bind_eq _ _ _ _ _ Hrun2). msteps.
           eexists. split; [reflexivity|]. split; [|].
           ++ simpl. split_and!; try apply Hrep2.
              ** destruct Hfp2 as [_ F]. rewrite F; [done|]. nd Hnd.
              ** eapply footprint_rep; [exact Hfp2|done|]. intros p Hp. nd Hnd.
           ++ eapply footprint_trans.
              ** eapply footprint_weaken; [|exact Hfp1]. intros p Hp. solve_elem.
              ** eapply footprint_weaken; [|exact Hfp2]. intros p Hp. solve_elem.
        -- eexists. split; [reflexivity|]. split; [done|].
           eapply footprint_weaken; [|done]. intros p Hp. solve_elem.
      * edestruct (flipColors_rep (mkRbt h0 nr sr idx))
          as (h1 & Hrun & Hrep1 & Hfp1); [exact Hrep|exact Hnd|].
        rewrite (bind_eq _ _ _ _ _ Hrun). msteps.
        eexists. split; [reflexivity|]. split; [done|].
        eapply footprint_weaken; [|done]. intros p Hp. solve_elem.
    + (* right red, left not: rotate left; the old root, now the left
         child, still has a left child that is not red *)
      destruct (isRedT_node _ Er) as (d & rl & rk & rv & rc & rsz & rr & ->).
      edestruct (rotateLeft_rep (mkRbt h0 nr sr idx))
        as (h1 & Hrun & Hrep1 & Hfp1); [exact Hrep|exact Hnd|].
      rewrite (bind_eq _ _ _ _ _ Hrun).
      msteps.
      eexists. split; [reflexivity|]. split; [done|].
      eapply footprint_weaken; [|done]. intros p Hp. solve_elem.
  - destruct (isRedT l) eqn:El; msteps.
    + destruct (isRedT_node _ El) as (b & ll & lk & lv & lc & lsz & lr & ->).
      msteps.
      destruct (isRedT ll) eqn:Ell; msteps.
      * edestruct (rotateRight_rep (mkRbt h0 nr sr idx))
          as (h1 & Hrun & Hrep1 & Hfp1); [exact Hrep|exact Hnd|].
        rewrite (bind_eq _ _ _ _ _ Hrun).
        msteps.
        destruct (isRedT lr) eqn:Elr; msteps.
        -- eexists. split; [reflexivity|]. split; [done|].
           eapply footprint_weaken; [|done]. intros p Hp. solve_elem.
        -- eexists. split; [reflexivity|]. split; [done|].
           eapply footprint_weaken; [|done]. intros p Hp. solve_elem.
      * eexists. split; [reflexivity|]. split; [done|]. apply footprint_refl.
    + eexists. split; [reflexivity|]. split; [done|]. apply footprint_refl.
Qed.

Lemma setAdd_idem k ks : setAdd k (setAdd k ks) = setAdd k ks.
Proof.
  unfold setAdd. destruct (bool_decide (k ∈ ks)) eqn:E.
  - by rewrite E.
  - rewrite bool_decide_true; [done|]. apply elem_of_app. right.
    by apply elem_of_cons; left.
Qed.

Lemma indexAddT_idem idx v k :
  indexAddT (indexAddT idx v k) v k = indexAddT idx v k.
Proof.
  unfold indexAddT. rewrite lookup_insert_eq. simpl.
  by rewrite setAdd_idem, insert_insert_eq.
Qed.

Lemma indexAdd_eq v k s :
  ownable v →
  indexAdd v k s = (Ret tt, withIndex s (indexAddT (invertedIndex s) v k)).
Proof.
  intros Hown. unfold indexAdd, indexSlot, indexAddT.
  destruct (invertedIndex s !! toPropertyKey v) as [ks|]; [done|].
  by rewrite Hown.
Qed.

Lemma bind_indexAdd {B} (k0 : unit → M B) v k s :
  ownable v →
  bind (indexAdd v k) k0 s = k0 tt (withIndex s (indexAddT (invertedIndex s) v k)).
Proof. intros H. unfold bind at 1. by rewrite (indexAdd_eq _ _ _ H). Qed.

Lemma compareTo_typed ty k1 k2 :
  ty = TNumber ∨ ty = TString → typeof k1 = ty → typeof k2 = ty →
  compareTo k1 k2 = Ret (cmpKeys k1 k2).
Proof.
  unfold cmpKeys.
  intros [-> | ->] H1 H2; destruct k1; try discriminate; destruct k2;
    try discriminate; simpl.
  - by repeat case_bool_decide.
  - destruct s as [|c1 s1], s0 as [|c2 s2]; simpl;
      by repeat case_match.
Qed.

Lemma bind_lift {A B} (o : outcome A) (k : A → M B) a s :
  o = Ret a → bind (lift o) k s = k a s.
Proof. by intros ->. Qed.

(** The way back up in [putRecv]: fix, size, index. *)
Lemma putRecv_tail s t n :
  t ≠ Leaf → rep (store s) t → NoDup (addrs t) → ownable (value n) →
  ∃ h',
    (nextNode <- fixRightLining (ptr t) ;;
     a <- (l <- getf left nextNode ;; sizeAt l) ;;
     b <- (r <- getf right nextNode ;; sizeAt r) ;;
     setf (setSize (a + b + 1)) nextNode ;;
     indexAdd (value n) (key n) ;;
     ret nextNode) s
    = (Ret (ptr (setSizeT (fixRightLiningT t))),
       mkRbt h' (numberRoot s) (stringRoot s)
             (indexAddT (invertedIndex s) (value n) (key n)))
    ∧ rep h' (setSizeT (fixRightLiningT t))
    ∧ footprint (addrs t) (store s) h'.
Proof.
  intros Hne Hrep Hnd Hown.
  destruct (fixRightLining_rep s t Hne Hrep Hnd) as (h1 & Hrun & Hrep1 & Hfp1).
  rewrite (bind_eq _ _ _ _ _ Hrun).
  pose proof (fixRightLiningT_node t Hne) as Hne1.
  pose proof (fixRightLiningT_addrs t) as Hperm.
  destruct (fixRightLiningT t) as [|a l k v c sz r]; [done|].
  assert (NoDup (addrs (Node a l k v c sz r))) as Hnd1 by by rewrite Hperm.
  destruct s as [h0 nr sr idx].
  msteps.
  rewrite bind_indexAdd by done. msteps.
  eexists. split; [reflexivity|]. split.
  - simpl. split_and!.
    + solve_lookup.
    + apply rep_insert; [done|]. nd Hnd1.
    + apply rep_insert; [done|]. nd Hnd1.
  - eapply footprint_trans; [done|]. split; [by rewrite length_insert|].
    intros p Hp. rewrite list_lookup_insert_ne; [done|].
    intros ->. apply Hp. rewrite <- Hperm. apply elem_of_cons. auto.
Qed.

Lemma lookup_alloc h (n : RedBlackNode) : (h ++ [n]) !! length h = Some n.
Proof. by rewrite lookup_app_r, Nat.sub_diag. Qed.

Lemma keysTyped_node ty a l k v c sz r :
  keysTyped ty (Node a l k v c sz r) →
  keysTyped ty l ∧ typeof k = ty ∧ keysTyped ty r.
Proof.
  unfold keysTyped. simpl. intros H.
  apply Forall_app in H as [Hl H]. apply Forall_cons in H as [Hk Hr]. auto.
Qed.

(** [putRecv] on a tree in the store does what [putRecvT] says; the new
    node object, if linked, gets the next free address. *)
Lemma putRecv_rep ty n t : ∀ fuel s,
  ty = TNumber ∨ ty = TString → typeof (key n) = ty → keysTyped ty t →
  left n = None → right n = None → ownable (value n) →
  rep (store s) t → NoDup (addrs t) → (height t < fuel)%nat →
  let t' := putRecvT (length (store s)) t n in
  ∃ h', putRecv fuel (ptr t) n s
        = (Ret (ptr t'),
           mkRbt h' (numberRoot s) (stringRoot s)
                 (indexAddT (invertedIndex s) (value n) (key n)))
        ∧ rep h' t'
        ∧ (length (store s) ≤ length h')%nat
        ∧ ∀ p, p ∉ addrs t → (p < length (store s))%nat → h' !! p = store s !! p.
Proof.
  induction t as [|a l IHl k v c sz r IHr];
    intros fuel s Hty Hn Hkeys Hnl Hnr Hown Hrep Hnd Hfuel t';
    (destruct fuel as [|fuel]; [simpl in Hfuel; lia|]);
    destruct s as [h0 nr sr idx].
  - (* the new node becomes the subtree *)
    simpl. rewrite bind_indexAdd by done. unfold alloc, ret, bind. norm.
    eexists. split; [reflexivity|]. subst t'. simpl. split_and!; try done.
    + rewrite lookup_alloc. destruct n. simpl in *. by subst.
    + rewrite length_app. lia.
    + intros p _ Hp. by rewrite lookup_app_l.
  - apply keysTyped_node in Hkeys as (Hkl & Hk & Hkr).
    pose proof Hrep as (Ha & Hl & Hr).
    assert (a < length h0)%nat as Halt by by eapply lookup_lt_Some.
    assert (∀ p, p ∈ addrs l → p < length h0)%nat as Hllt
      by (intros p Hp; exact (rep_addr_lt _ _ _ Hl Hp)).
    assert (∀ p, p ∈ addrs r → p < length h0)%nat as Hrlt
      by (intros p Hp; exact (rep_addr_lt _ _ _ Hr Hp)).
    simpl in Hfuel.
    cbn [putRecv ptr]. msteps.
    rewrite (bind_lift _ _ _ _ (compareTo_typed _ _ _ Hty Hn Hk)).
    subst t'. cbn [putRecvT]. norm.
    case_bool_decide as Hlt; [|case_bool_decide as Hgt].
    + (* into the left subtree *)
      msteps.
      edestruct (IHl fuel (mkRbt h0 nr sr idx))
        as (h1 & Hrun & Hrep1 & Hlen1 & Hfr1); try done; [nd Hnd|lia|].
      norm. rewrite (bind_eq _ _ _ _ _ Hrun).
      assert (h1 !! a = h0 !! a) as Ha1 by (apply Hfr1; [nd Hnd|done]).
      rewrite Ha in Ha1.
      msteps.
      set (l' := putRecvT (length h0) l n) in *.
      assert (a ∉ addrs l') as Hal'.
      { intros [->|Hin]%putRecvT_addrs_elem; [lia|]. revert Hin. nd Hnd. }
      assert (NoDup (addrs (Node a l' k v c sz r))) as Hnd1.
      { simpl. apply NoDup_cons. split.
        - apply not_elem_of_app. split; [done|]. nd Hnd.
        - apply NoDup_app. split_and!.
          + apply putRecvT_NoDup; [nd Hnd|]. intros Hin. apply Hllt in Hin. lia.
          + intros p [->|Hin]%putRecvT_addrs_elem.
            * intros Hin. apply Hrlt in Hin. lia.
            * nd Hnd.
          + nd Hnd. }
      match goal with |- context [mkRbt ?h ?a1 ?a2 ?a3] =>
        edestruct (putRecv_tail (mkRbt h a1 a2 a3) (Node a l' k v c sz r) n)
          as (h2 & Hrun2 & Hrep2 & Hfp2); [done| |exact Hnd1|done|]
      end.
      { simpl. split_and!.
        - solve_lookup.
        - apply rep_insert; [done|done].
        - apply rep_insert; [|nd Hnd]. eapply rep_agree; [exact Hr|].
          intros p Hp. apply Hfr1; [|auto]. intros Hin. revert Hp. nd Hnd. }
      norm. rewrite Hrun2. rewrite indexAddT_idem.
      eexists. split; [reflexivity|]. split; [done|].
      destruct Hfp2 as [Hlen2 Hfr2]. rewrite length_insert in Hlen2.
      split; [lia|].
      intros p Hp Hplt. rewrite Hfr2.
      * rewrite list_lookup_insert_ne by (intros ->; apply Hp; solve_elem).
        apply Hfr1; [|done]. intros Hin. apply Hp. solve_elem.
      * intros Hin. simpl in Hin.
        apply elem_of_cons in Hin as [->|Hin]; [apply Hp; solve_elem|].
        apply elem_of_app in Hin as [Hin|Hin].
        -- apply putRecvT_addrs_elem in Hin as [->|Hin]; [lia|].
           apply Hp. solve_elem.
        -- apply Hp. solve_elem.
    + (* into the right subtree *)
      msteps.
      edestruct (IHr fuel (mkRbt h0 nr sr idx))
        as (h1 & Hrun & Hrep1 & Hlen1 & Hfr1); try done; [nd Hnd|lia|].
      norm. rewrite (bind_eq _ _ _ _ _ Hrun).
      assert (h1 !! a = h0 !! a) as Ha1 by (apply Hfr1; [nd Hnd|done]).
      rewrite Ha in Ha1.
      msteps.
      set (r' := putRecvT (length h0) r n) in *.
      assert (a ∉ addrs r') as Har'.
      { intros [->|Hin]%putRecvT_addrs_elem; [lia|]. revert Hin. nd Hnd. }
      assert (NoDup (addrs (Node a l k v c sz r'))) as Hnd1.
      { simpl. apply NoDup_cons. split.
        - apply not_elem_of_app. split; [nd Hnd|done].
        - apply NoDup_app. split_and!.
          + nd Hnd.
          + intros p Hp [->|Hin]%putRecvT_addrs_elem.
            * apply Hllt in Hp. lia.
            * revert Hin. nd Hnd.
          + apply putRecvT_NoDup; [nd Hnd|]. intros Hin. apply Hrlt in Hin. lia. }
      match goal with |- context [mkRbt ?h ?a1 ?a2 ?a3] =>
        edestruct (putRecv_tail (mkRbt h a1 a2 a3) (Node a l k v c sz r') n)
          as (h2 & Hrun2 & Hrep2 & Hfp2); [done| |exact Hnd1|done|]
      end.
      { simpl. split_and!.
        - solve_lookup.
        - apply rep_insert; [|nd Hnd]. eapply rep_agree; [exact Hl|].
          intros p Hp. apply Hfr1; [|auto]. intros Hin. revert Hin. nd Hnd.
        - apply rep_insert; [done|done]. }
      norm. rewrite Hrun2. rewrite indexAddT_idem.
      eexists. split; [reflexivity|]. split; [done|].
      destruct Hfp2 as [Hlen2 Hfr2]. rewrite length_insert in Hlen2.
      split; [lia|].
      intros p Hp Hplt. rewrite Hfr2.
      * rewrite list_lookup_insert_ne by (intros ->; apply Hp; solve_elem).
        apply Hfr1; [|done]. intros Hin. apply Hp. solve_elem.
      * intros Hin. simpl in Hin.
        apply elem_of_cons in Hin as [->|Hin]; [apply Hp; solve_elem|].
        apply elem_of_app in Hin as [Hin|Hin].
        -- apply Hp. solve_elem.
        -- apply putRecvT_addrs_elem in Hin as [->|Hin]; [lia|].
           apply Hp. solve_elem.
    + (* the key is there: overwrite the value *)
      msteps.
      match goal with |- context [mkRbt ?h ?a1 ?a2 ?a3] =>
        edestruct (putRecv_tail (mkRbt h a1 a2 a3)
                     (Node a l k (value n) c sz r) n)
          as (h2 & Hrun2 & Hrep2 & Hfp2); [done| |exact Hnd|done|]
      end.
      { simpl. split_and!.
        - solve_lookup.
        - apply rep_insert; [done|nd Hnd].
        - apply rep_insert; [done|nd Hnd]. }
      norm. rewrite Hrun2.
      eexists. split; [reflexivity|]. split; [done|].
      destruct Hfp2 as [Hlen2 Hfr2]. rewrite length_insert in Hlen2.
      split; [lia|].
      intros p Hp Hplt. rewrite Hfr2 by done.
      rewrite list_lookup_insert_ne; [done|].
      intros ->. apply Hp. solve_elem.
Qed.

(** [findIter] with a search node that carries a key only. *)
Lemma findIter_rep ty sn t : ∀ fuel s,
  ty = TNumber ∨ ty = TString → typeof (key sn) = ty → keysTyped ty t →
  isNullish (value sn) = true →
  rep (store s) t → (height t < fuel)%nat →
  findIter fuel (ptr t) sn s
  = (Ret (FValue (match findT t (key sn) with
                  | Some (_, v) => v
                  | None => JNull
                  end)), s).
Proof.
  induction t as [|a l IHl k v c sz r IHr];
    intros fuel s Hty Hsn Hkeys Hnull Hrep Hfuel;
    (destruct fuel as [|fuel]; [simpl in Hfuel; lia|]).
  - done.
  - apply keysTyped_node in Hkeys as (Hkl & Hk & Hkr).
    pose proof Hrep as (Ha & Hl & Hr). simpl in Hfuel.
    cbn [findIter findT ptr]. msteps.
    rewrite (bind_lift _ _ _ _ (compareTo_typed _ _ _ Hty Hsn Hk)).
    case_bool_decide; [|case_bool_decide].
    + msteps. apply IHl; auto. lia.
    + msteps. apply IHr; auto. lia.
    + rewrite Hnull. by msteps.
Qed.

(** ** Reading trees out of the store *)

Lemma reify_sound h : ∀ fuel p t, reify fuel h p = Some t → rep h t ∧ ptr t = p.
Proof.
  induction fuel as [|fuel IH]; intros p t; simpl; [done|].
  destruct p as [a|]; [|by intros [= <-]].
  destruct (h !! a) as [n|] eqn:Ha; [|done].
  destruct (reify fuel h (left n)) as [l|] eqn:El; [|done].
  destruct (reify fuel h (right n)) as [r|] eqn:Er; [|done].
  intros [= <-]. apply IH in El as [Hl Hpl]. apply IH in Er as [Hr Hpr].
  simpl. rewrite Hpl, Hpr. by destruct n.
Qed.

Lemma reify_complete h t : ∀ fuel,
  rep h t → (height t < fuel)%nat → reify fuel h (ptr t) = Some t.
Proof.
  induction t as [|a l IHl k v c sz r IHr]; intros fuel Hrep Hfuel;
    (destruct fuel as [|fuel]; [lia|]); simpl in *; [done|].
  destruct Hrep as (Ha & Hl & Hr). rewrite Ha. simpl.
  rewrite IHl, IHr by (done || lia). done.
Qed.

Lemma height_addrs t : (height t ≤ length (addrs t))%nat.
Proof.
  induction t as [|a l IHl k v c sz r IHr]; simpl; [done|].
  rewrite length_app. lia.
Qed.

(** A tree in the store has no more nodes than the store has objects. *)
Lemma addrs_length h t :
  rep h t → NoDup (addrs t) → (length (addrs t) ≤ length h)%nat.
Proof.
  intros Hrep Hnd.
  transitivity (length (seq 0%nat (length h))); [|by rewrite length_seq].
  apply submseteq_length, NoDup_submseteq; [done|].
  intros a Ha. apply elem_of_seq. split; [lia|].
  simpl. by eapply rep_addr_lt.
Qed.

Lemma rep_fuel h t :
  rep h t → NoDup (addrs t) → (height t < S (length h))%nat.
Proof.
  intros Hrep Hnd. pose proof (height_addrs t).
  pose proof (addrs_length _ _ Hrep Hnd). lia.
Qed.

(** ** Well-formed instances *)

Lemma wellFormed_unpack s :
  wellFormed s = true →
  ∃ tn ts, numberTree s = Some tn ∧ stringTree s = Some ts
           ∧ rep (store s) tn ∧ ptr tn = numberRoot s
           ∧ rep (store s) ts ∧ ptr ts = stringRoot s
           ∧ NoDup (addrs tn ++ addrs ts)
           ∧ bst TNumber tn ∧ bst TString ts.
Proof.
  unfold wellFormed.
  destruct (numberTree s) as [tn|] eqn:En; [|done].
  destruct (stringTree s) as [ts|] eqn:Es; [|done].
  intros [[H1 H2]%andb_true_iff H3]%andb_true_iff.
  apply bool_decide_eq_true in H1, H2, H3.
  apply reify_sound in En as [? ?]. apply reify_sound in Es as [? ?].
  exists tn, ts. split_and!; auto.
Qed.

Lemma wellFormed_pack s tn ts :
  rep (store s) tn → ptr tn = numberRoot s →
  rep (store s) ts → ptr ts = stringRoot s →
  NoDup (addrs tn ++ addrs ts) → bst TNumber tn → bst TString ts →
  wellFormed s = true ∧ numberTree s = Some tn ∧ stringTree s = Some ts.
Proof.
  intros Hn Hpn Hs Hps Hnd Hbn Hbs.
  assert (numberTree s = Some tn) as En.
  { unfold numberTree. rewrite <- Hpn. apply reify_complete; [done|].
    apply rep_fuel; [done|]. by apply NoDup_app in Hnd as (? & _ & _). }
  assert (stringTree s = Some ts) as Es.
  { unfold stringTree. rewrite <- Hps. apply reify_complete; [done|].
    apply rep_fuel; [done|]. by apply NoDup_app in Hnd as (_ & _ & ?). }
  split; [|done]. unfold wellFormed. rewrite En, Es.
  by rewrite !bool_decide_true.
Qed.

(** ** [put] on a well-formed instance *)

(** The descent and the recolouring of the root, on the tree [t] the key
    is routed to; [tother] is the other tree of the instance. *)
Lemma put_core ty n t tother h0 nr sr idx :
  rep h0 t → rep h0 tother → NoDup (addrs t ++ addrs tother) →
  bst ty t → keyOk ty (key n) = true →
  left n = None → right n = None → ownable (value n) →
  let t' := putRecvT (length h0) t n in
  let idx' := indexAddT idx (value n) (key n) in
  ∃ h1 h2,
    putRecv (S (length h0)) (ptr t) n (mkRbt h0 nr sr idx)
    = (Ret (ptr t'), mkRbt h1 nr sr idx')
    ∧ (∀ nr' sr', setf (setColor BLACK) (ptr t') (mkRbt h1 nr' sr' idx')
                  = (Ret tt, mkRbt h2 nr' sr' idx'))
    ∧ rep h2 (setColorT BLACK t') ∧ rep h2 tother
    ∧ NoDup (addrs (setColorT BLACK t') ++ addrs tother)
    ∧ bst ty (setColorT BLACK t')
    ∧ elems (setColorT BLACK t') = insE (key n) (value n) (elems t).
Proof.
  intros Hrep Hother Hnd Hbst Hk Hnl Hnr Hown t' idx'.
  pose proof Hnd as (Hndt & Hdisj & Hndo)%NoDup_app.
  edestruct (putRecv_rep ty n t (S (length h0)) (mkRbt h0 nr sr idx))
    as (h1 & Hrun & Hrep1 & Hlen1 & Hfr1); eauto using keyOk_type,
    keyOk_typeof, keysTyped_bst, rep_fuel.
  cbn [store numberRoot stringRoot invertedIndex] in Hrun, Hrep1, Hlen1, Hfr1.
  fold t' in Hrun, Hrep1. fold idx' in Hrun.
  assert (∀ p, p ∈ addrs tother → (p < length h0)%nat) as Holt
    by (intros p Hp; exact (rep_addr_lt _ _ _ Hother Hp)).
  assert (∀ p, p ∈ addrs t → (p < length h0)%nat) as Htlt
    by (intros p Hp; exact (rep_addr_lt _ _ _ Hrep Hp)).
  assert (NoDup (addrs t')) as Hndt'.
  { apply putRecvT_NoDup; [done|]. intros Hin%Htlt. lia. }
  assert (∀ p, p ∈ addrs t' → p ∉ addrs tother) as Hdisj'.
  { intros p [->|Hin]%putRecvT_addrs_elem; [|auto].
    intros Hin%Holt. lia. }
  assert (rep h1 tother) as Hother1.
  { eapply rep_agree; [exact Hother|]. intros p Hp. apply Hfr1; [|auto].
    intros Hin. by apply (Hdisj _ Hin). }
  pose proof (putRecvT_node (length h0) t n) as Hne. fold t' in Hne.
  pose proof (putRecvT_bst ty (length h0) t n Hbst Hk) as Hb. fold t' in Hb.
  pose proof (putRecvT_elems ty (length h0) t n Hbst Hk) as He. fold t' in He.
  clearbody t'.
  destruct t' as [|a' l' k' v' c' sz' r']; [done|].
  pose proof Hrep1 as (Ha' & Hl' & Hr').
  exists h1, (<[a' := mkNode (ptr l') (ptr r') k' v' BLACK sz']> h1).
  split; [done|]. split_and!.
  - intros nr' sr'. simpl. unfold setf. simpl. by rewrite Ha'.
  - simpl. split_and!.
    + apply list_lookup_insert_eq. by eapply lookup_lt_Some.
    + apply rep_insert; [done|]. nd Hndt'.
    + apply rep_insert; [done|]. nd Hndt'.
  - apply rep_insert; [done|]. apply Hdisj'. simpl. apply elem_of_cons; auto.
  - change (NoDup (addrs (Node a' l' k' v' c' sz' r') ++ addrs tother)).
    apply NoDup_app. split_and!; auto.
  - exact Hb.
  - exact He.
Qed.

Lemma storableKey_keyOk k : storableKey k = true → keyOk (typeof k) k = true.
Proof.
  destruct k; try done; simpl.
  intros [H _]%andb_true_iff. unfold keyOk. simpl. by rewrite H.
Qed.

Lemma newRedBlackNode_put k v :
  storableKey k = true →
  newRedBlackNode k v RED 1
  = Ret (mkNode None None k (storedValue v) RED 1).
Proof.
  destruct k; try done; simpl.
  intros [_ H]%andb_true_iff. apply bool_decide_eq_true in H.
  unfold newRedBlackNode. rewrite bool_decide_false by lia. done.
Qed.

Lemma routedEntries_number s k :
  typeof k = TNumber → routedEntries s k = entriesOf (numberTree s).
Proof. unfold routedEntries. by intros ->. Qed.

Lemma routedEntries_string s k :
  typeof k = TString → routedEntries s k = entriesOf (stringTree s).
Proof. unfold routedEntries. by intros ->. Qed.

Lemma bind_getFuel {B} (k : nat → M B) s :
  bind getFuel k s = k (S (length (store s))) s.
Proof. reflexivity. Qed.

Lemma bind_getNumberRoot {B} (k : option addr → M B) s :
  bind getNumberRoot k s = k (numberRoot s) s.
Proof. reflexivity. Qed.

Lemma bind_getStringRoot {B} (k : option addr → M B) s :
  bind getStringRoot k s = k (stringRoot s) s.
Proof. reflexivity. Qed.

Lemma bind_setNumberRoot {B} p (k : unit → M B) s :
  bind (setNumberRoot p) k s
  = k tt (mkRbt (store s) p (stringRoot s) (invertedIndex s)).
Proof. reflexivity. Qed.

Lemma bind_setStringRoot {B} p (k : unit → M B) s :
  bind (setStringRoot p) k s
  = k tt (mkRbt (store s) (numberRoot s) p (invertedIndex s)).
Proof. reflexivity. Qed.

Ltac this_step :=
  repeat first
    [ rewrite bind_assoc | rewrite bind_ret | rewrite bind_getFuel
    | rewrite bind_getNumberRoot | rewrite bind_getStringRoot
    | rewrite bind_setNumberRoot | rewrite bind_setStringRoot ];
  cbn [store numberRoot stringRoot invertedIndex].

(** [put] of a storable key on a well-formed instance: it returns, the
    instance stays well-formed, the entry is inserted in order in the tree
    of the key's type, and the key joins the key set of the value. *)
Lemma put_spec now s k v :
  wellFormed s = true → storableKey k = true → ownable (storedValue v) →
  ∃ s', put now k v s = (Ret tt, s')
        ∧ wellFormed s' = true
        ∧ (∀ k', routedEntries s' k'
                 = if bool_decide (typeof k' = typeof k)
                   then insE k (storedValue v) (routedEntries s k')
                   else routedEntries s k')
        ∧ invertedIndex s'
          = indexAddT (invertedIndex s) (storedValue v) k.
Proof.
  intros Hwf Hk Hown.
  destruct (wellFormed_unpack s Hwf)
    as (tn & ts & En & Es & Hn & Hpn & Hs & Hps & Hnd & Hbn & Hbs).
  destruct s as [h0 nr sr idx]. simpl in Hn, Hpn, Hs, Hps.
  pose proof (storableKey_keyOk k Hk) as Hok.
  unfold put.
  assert (isNullish k = false) as -> by by destruct k.
  rewrite bind_ret.
  rewrite (bind_lift _ _ _ _ (newRedBlackNode_put k v Hk)).
  set (n := mkNode None None k (storedValue v) RED 1).
  destruct k as [| | |z|str|]; try done.
  - (* a number *)
    rewrite bool_decide_true by done.
    edestruct (put_core TNumber n tn ts h0 nr sr idx)
      as (h1 & h2 & Hrun & Hcol & Hrep2 & Hother2 & Hnd2 & Hb2 & He2);
      try done.
    this_step. rewrite Hpn in Hrun. rewrite (bind_eq _ _ _ _ _ Hrun). this_step.
    unfold bind at 1. rewrite Hcol.
    rewrite bool_decide_false by done. unfold ret.
    eexists. split; [reflexivity|].
    edestruct (wellFormed_pack
                 (mkRbt h2 (ptr (putRecvT (length h0) tn n)) sr
                        (indexAddT idx (value n) (key n))))
      as (Hwf' & En' & Es'); [exact Hrep2| |exact Hother2|done|exact Hnd2|
                               exact Hb2|exact Hbs|].
    { simpl. by destruct (putRecvT (length h0) tn n). }
    split; [done|]. split; [|done].
    intros k'. unfold routedEntries. rewrite En', Es', En, Es. simpl.
    destruct (typeof k'); done.
  - (* a string *)
    rewrite bool_decide_false by done. rewrite bind_ret.
    rewrite bool_decide_true by done.
    assert (NoDup (addrs ts ++ addrs tn)) as Hnd'.
    { revert Hnd. apply NoDup_Permutation_proper. apply Permutation_app_comm. }
    edestruct (put_core TString n ts tn h0 nr sr idx)
      as (h1 & h2 & Hrun & Hcol & Hrep2 & Hother2 & Hnd2 & Hb2 & He2);
      try done.
    this_step. rewrite Hps in Hrun. rewrite (bind_eq _ _ _ _ _ Hrun). this_step.
    rewrite Hcol.
    eexists. split; [reflexivity|].
    edestruct (wellFormed_pack
                 (mkRbt h2 nr (ptr (putRecvT (length h0) ts n))
                        (indexAddT idx (value n) (key n))))
      as (Hwf' & En' & Es'); [exact Hother2|done|exact Hrep2| |
                               |exact Hbn|exact Hb2|].
    { simpl. by destruct (putRecvT (length h0) ts n). }
    { revert Hnd2. apply NoDup_Permutation_proper. apply Permutation_app_comm. }
    split; [done|]. split; [|done].
    intros k'. unfold routedEntries. rewrite En', Es', En, Es. simpl.
    destruct (typeof k'); done.
Qed.

(** ** [find], [constains] and [remove] on a well-formed instance *)

Lemma searchableKey_truthy k : searchableKey k = true → truthy k = true.
Proof. destruct k; try done. simpl. by intros [? _]%andb_true_iff. Qed.

Lemma searchableKey_keyOk k : searchableKey k = true → keyOk (typeof k) k = true.
Proof. by destruct k. Qed.

Lemma storableKey_searchable k :
  storableKey k = true → truthy k = true → searchableKey k = true.
Proof.
  destruct k; try done. simpl. by intros [? _]%andb_true_iff.
Qed.

Lemma find_key_spec s k :
  wellFormed s = true → searchableKey k = true →
  find k JUndefined s = (Ret (FValue (valueAt k (routedEntries s k))), s).
Proof.
  intros Hwf Hk.
  destruct (wellFormed_unpack s Hwf)
    as (tn & ts & En & Es & Hn & Hpn & Hs & Hps & Hnd & Hbn & Hbs).
  pose proof (searchableKey_keyOk k Hk) as Hok.
  pose proof Hnd as (Hndn & _ & Hnds)%NoDup_app.
  unfold find. rewrite (searchableKey_truthy k Hk). simpl truthy.
  cbn [andb]. unfold newRedBlackNode. cbn [orDefault].
  erewrite bind_lift by reflexivity. rewrite bind_ret. this_step.
  unfold routedEntries, valueAt. rewrite En, Es. cbn [entriesOf].
  destruct k as [| | |z|str|]; try done.
  - rewrite bool_decide_true by done. this_step. rewrite <- Hpn.
    erewrite (findIter_rep TNumber); eauto using keysTyped_bst, rep_fuel.
    cbn [key setKey]. by rewrite (findT_lookupE TNumber).
  - rewrite bool_decide_false by done. rewrite bool_decide_true by done.
    this_step. rewrite <- Hps.
    erewrite (findIter_rep TString); eauto using keysTyped_bst, rep_fuel.
    cbn [key setKey]. by rewrite (findT_lookupE TString).
Qed.

Lemma constains_spec s k :
  wellFormed s = true → searchableKey k = true →
  constains k s = (Ret (truthy (valueAt k (routedEntries s k))), s).
Proof.
  intros Hwf Hk. unfold constains.
  by rewrite (bind_eq _ _ _ _ _ (find_key_spec s k Hwf Hk)).
Qed.

(** When [constains] says no, [remove] gives up before it touches
    anything. *)
Lemma remove_not_contained s k :
  wellFormed s = true → searchableKey k = true →
  truthy (valueAt k (routedEntries s k)) = false →
  remove k s = (Ret false, s).
Proof.
  intros Hwf Hk Hv. unfold remove.
  assert (isNullish k = false) as -> by by destruct k.
  rewrite (bind_eq _ _ _ _ _ (constains_spec s k Hwf Hk)). by rewrite Hv.
Qed.

(** [size()] of a well-formed instance returns. *)
Lemma rbtSize_wf s : wellFormed s = true → ∃ z, rbtSize s = (Ret z, s).
Proof.
  intros Hwf.
  destruct (wellFormed_unpack s Hwf)
    as (tn & ts & En & Es & Hn & Hpn & Hs & Hps & Hnd & Hbn & Hbs).
  destruct s as [h0 nr sr idx]. simpl in *. subst.
  unfold rbtSize, isEmpty. this_step.
  destruct tn as [|a1 l1 k1 v1 c1 z1 r1], ts as [|a2 l2 k2 v2 c2 z2 r2];
    simpl; this_step; repeat (rewrite ?bool_decide_true, ?bool_decide_false by done;
                              this_step; cbn [andb]).
  - eauto.
  - destruct Hs as (Ha & _). erewrite getf_eq by exact Ha. eauto.
  - destruct Hn as (Ha & _). erewrite getf_eq by exact Ha. eauto.
  - destruct Hn as (Ha1 & _), Hs as (Ha2 & _). eexists.
    erewrite bind_getf by exact Ha1. this_step.
    erewrite bind_getf by exact Ha2. reflexivity.
Qed.

(** ** Runs of [put] *)

Lemma puts_spec now ops : ∀ s,
  wellFormed s = true → Forall putOk ops →
  ∃ s', puts now ops s = (Ret tt, s')
        ∧ wellFormed s' = true
        ∧ invertedIndex s' = indexAfter (invertedIndex s) ops.
Proof.
  induction ops as [|[k v] ops IH]; intros s Hwf Hops.
  - exists s. done.
  - apply Forall_cons in Hops as [[Hk [_ Hv]] Hops]. simpl in Hk, Hv.
    destruct (put_spec now s k v Hwf Hk Hv) as (s1 & Hrun & Hwf1 & _ & Hidx1).
    destruct (IH s1 Hwf1 Hops) as (s' & Hrun' & Hwf' & Hidx').
    exists s'. simpl. rewrite (bind_eq _ _ _ _ _ Hrun).
    split; [done|]. split; [done|]. by rewrite Hidx', Hidx1.
Qed.

(** Every table built by puts of storable keys is well-formed. *)
Lemma puts_from_empty now ops :
  Forall putOk ops →
  ∃ s, puts now ops emptyRbt = (Ret tt, s) ∧ wellFormed s = true.
Proof.
  intros Hops.
  destruct (puts_spec now ops emptyRbt eq_refl Hops) as (s & Hrun & Hwf & _).
  eauto.
Qed.

(** Puts of keys that do not compare equal to [k] leave the entry of [k]
    as it is. *)
Lemma puts_other_keys now k ops : ∀ s,
  wellFormed s = true →
  Forall (λ op, putOk op ∧ ¬ (typeof op.1 = typeof k ∧ rank op.1 = rank k)) ops →
  ∃ s', puts now ops s = (Ret tt, s')
        ∧ wellFormed s' = true
        ∧ lookupE k (routedEntries s' k) = lookupE k (routedEntries s k).
Proof.
  induction ops as [|[k' v'] ops IH]; intros s Hwf Hops.
  - exists s. done.
  - apply Forall_cons in Hops as [[[Hk [_ Hv]] Hne] Hops]. simpl in Hk, Hv, Hne.
    destruct (put_spec now s k' v' Hwf Hk Hv) as (s1 & Hrun & Hwf1 & Hent & _).
    destruct (IH s1 Hwf1 Hops) as (s' & Hrun' & Hwf' & Hlook).
    exists s'. simpl. rewrite (bind_eq _ _ _ _ _ Hrun).
    split; [done|]. split; [done|]. rewrite Hlook, Hent.
    case_bool_decide as Hty; [|done].
    apply lookupE_insE_other. intros Hr. apply Hne. split; congruence.
Qed.

(** ** Key sets of the index *)

Lemma setAdd_elem k k' ks : k ∈ setAdd k' ks ↔ k ∈ ks ∨ k = k'.
Proof.
  unfold setAdd. case_bool_decide as Hin.
  - split; [auto|]. intros [?| ->]; done.
  - rewrite elem_of_app, list_elem_of_singleton. done.
Qed.

Lemma setAdd_NoDup k ks : NoDup ks → NoDup (setAdd k ks).
Proof.
  intros Hnd. unfold setAdd. case_bool_decide as Hin; [done|].
  apply NoDup_app. split_and!; [done| |apply NoDup_singleton].
  intros x Hx ->%list_elem_of_singleton. done.
Qed.

Lemma indexAddT_lookup idx v k name :
  default [] (indexAddT idx v k !! name)
  = if bool_decide (toPropertyKey v = name)
    then setAdd k (default [] (idx !! name))
    else default [] (idx !! name).
Proof.
  unfold indexAddT. case_bool_decide as Hn.
  - subst. by rewrite lookup_insert_eq.
  - by rewrite lookup_insert_ne.
Qed.

Lemma indexAfter_elem ops : ∀ idx name k,
  k ∈ default [] (indexAfter idx ops !! name)
  ↔ k ∈ default [] (idx !! name)
    ∨ ∃ v, (k, v) ∈ ops ∧ toPropertyKey (storedValue v) = name.
Proof.
  induction ops as [|[k' v'] ops IH]; intros idx name k; simpl.
  - split; [auto|]. intros [?|(v & Hin & _)]; [done|].
    by apply not_elem_of_nil in Hin.
  - unfold indexAfter in *. simpl. rewrite IH, indexAddT_lookup.
    case_bool_decide as Hn.
    + rewrite setAdd_elem. split.
      * intros [[?| ->]|(v & Hin & Hv)]; auto.
        -- right. exists v'. split; [apply elem_of_cons; auto|done].
        -- right. exists v. split; [apply elem_of_cons; auto|done].
      * intros [?|(v & [[= -> ->]|Hin]%elem_of_cons & Hv)]; auto.
        right. eauto.
    + split.
      * intros [?|(v & Hin & Hv)]; auto.
        right. exists v. split; [apply elem_of_cons; auto|done].
      * intros [?|(v & [[= -> ->]|Hin]%elem_of_cons & Hv)]; auto.
        -- done.
        -- right. eauto.
Qed.

Lemma indexAfter_NoDup ops : ∀ idx name,
  NoDup (default [] (idx !! name)) →
  NoDup (default [] (indexAfter idx ops !! name)).
Proof.
  induction ops as [|[k' v'] ops IH]; intros idx name Hnd; simpl; [done|].
  unfold indexAfter in *. simpl. apply IH. rewrite indexAddT_lookup.
  case_bool_decide; [by apply setAdd_NoDup|done].
Qed.

(** [find({ value: v })] reads the key set of [v] off the index. *)
Lemma find_value_spec s v :
  truthy v = true → indexable v →
  find JUndefined v s = (Ret (FArray (indexKeys s v)), s).
Proof.
  intros Hv [_ Hown]. unfold find, newRedBlackNode. cbn [orDefault].
  erewrite bind_lift by reflexivity. rewrite Hv. cbn [truthy andb].
  unfold getIndexSlot, indexSlot, indexKeys. rewrite bind_assoc.
  unfold bind at 1. rewrite Hown.
  by destruct (invertedIndex s !! toPropertyKey v).
Qed.

(** In a strictly ordered entry list, the entries that compare equal to
    a key that is found are one. *)
Lemma countKey_none k es :
  Forall (λ e, rank e.1 ≠ rank k) es → countKey k es = 0%nat.
Proof.
  induction 1 as [|[k0 v0] es Hne _ IH]; simpl; [done|].
  simpl in Hne. rewrite bool_decide_false by done. by rewrite IH.
Qed.

Lemma sorted_one_entry k es e :
  StronglySorted Z.lt (ranks es) → lookupE k es = Some e →
  countKey k es = 1%nat.
Proof.
  induction es as [|[k0 v0] es IH]; simpl; [done|].
  intros [Hall Hs]%StronglySorted_cons.
  case_bool_decide as Hr.
  - intros _. rewrite countKey_none; [done|].
    apply Forall_forall. intros e' He'. rewrite Forall_forall in Hall.
    assert (rank k0 < rank e'.1); [|lia].
    apply Hall. apply list_elem_of_fmap. eauto.
  - intros Hl. by rewrite IH.
Qed.

(** * The claims *)

(** Closed side conditions are settled by evaluation. *)
Ltac by_eval :=
  first [ reflexivity
        | split; reflexivity
        | vm_compute; reflexivity ].

(** ** C1: balance after puts and removes *)

(** C1 (the code departs from it).  The claim: after any sequence of put
    and remove operations the trees have no two consecutive red links and
    the same number of black links on every path.  Here: putting the keys
    3, 2, 1, 0 into an empty table returns normally and leaves a numeric
    tree in which the red node 2 has the red child 3. *)
Theorem C1_descending_puts_leave_red_red :
  ∃ s t, puts 0 descendingOps emptyRbt = (Ret tt, s)
         ∧ numberTree s = Some t
         ∧ noRedRed t = false
         ∧ redBlackBalanced t = false
         ∧ ∃ a1 a2 a3 l1 l3 r3 v1 v2 v3 z1 z2 z3,
             t = Node a1 l1 (JNum 1) v1 BLACK z1
                   (Node a2 Leaf (JNum 2) v2 RED z2
                      (Node a3 l3 (JNum 3) v3 RED z3 r3)).
Proof.
  eexists _, _. split; [vm_compute; reflexivity|].
  split; [vm_compute; reflexivity|].
  split; [vm_compute; reflexivity|].
  split; [vm_compute; reflexivity|].
  by eexists _, _, _, _, _, _, _, _, _, _, _, _.
Qed.

(** ** C2: the reverse index *)

(** C2, counterexample.  After [put(1, 10)], [put(1, 20)], [put(2, 0)]
    and [put(3, "20")]: the key 1 holds 20 and [find({ value: 10 })] still
    returns [[1]]; [find({ value: 20 })] returns [[1, 3]] although the key
    3 holds the string "20"; and [find({ value: 0 })] throws although the
    key 2 holds 0. *)
Lemma C2_update_keeps_old_association :
  ∃ s, puts 0 [ (JNum 1, JNum 10); (JNum 1, JNum 20); (JNum 2, JNum 0);
                (JNum 3, JStr "20") ] emptyRbt = (Ret tt, s)
       ∧ entriesOf (numberTree s)
         = [ (JNum 1, JNum 20); (JNum 2, JNum 0); (JNum 3, JStr "20") ]
       ∧ find JUndefined (JNum 10) s = (Ret (FArray [JNum 1]), s)
       ∧ find JUndefined (JNum 20) s = (Ret (FArray [JNum 1; JNum 3]), s)
       ∧ find JUndefined (JNum 0) s = (Throw KeyAndValueNotFound, s).
Proof.
  eexists. split; [vm_compute; reflexivity|].
  repeat split; vm_compute; reflexivity.
Qed.

(** C2, amended.  After any run of puts of storable keys on an empty
    table, [find({ value: v })] for a truthy [v] returns, without
    repetition, exactly the keys that some put of the run gave a value
    with the property name of [v]; an update adds the new association and
    the earlier ones stay. *)
Theorem C2_index_after_puts now ops v :
  Forall putOk ops → truthy v = true → indexable v →
  ∃ s ks, puts now ops emptyRbt = (Ret tt, s)
          ∧ find JUndefined v s = (Ret (FArray ks), s)
          ∧ NoDup ks
          ∧ ∀ k, k ∈ ks ↔ ∃ v', (k, v') ∈ ops
                              ∧ toPropertyKey (storedValue v') = toPropertyKey v.
Proof.
  intros Hops Hv Hown.
  destruct (puts_spec now ops emptyRbt eq_refl Hops) as (s & Hrun & Hwf & Hidx).
  exists s, (indexKeys s v). split; [done|].
  split; [by apply find_value_spec|].
  unfold indexKeys. rewrite Hidx. split.
  - apply indexAfter_NoDup. simpl. rewrite lookup_empty. constructor.
  - intros k. rewrite indexAfter_elem. simpl. rewrite lookup_empty. simpl.
    split; [|auto]. intros [Hin|?]; [|done]. by apply not_elem_of_nil in Hin.
Qed.

Lemma C2_index_after_puts_witness :
  Forall putOk (sampleOps ++ [ (JNum 9, JNum 30) ])
  ∧ truthy (JNum 30) = true ∧ indexable (JNum 30)
  ∧ ∃ s ks, puts 0 (sampleOps ++ [ (JNum 9, JNum 30) ]) emptyRbt = (Ret tt, s)
            ∧ find JUndefined (JNum 30) s = (Ret (FArray ks), s)
            ∧ NoDup ks
            ∧ ∀ k, k ∈ ks ↔ ∃ v', (k, v') ∈ sampleOps ++ [ (JNum 9, JNum 30) ]
                                ∧ toPropertyKey (storedValue v')
                                  = toPropertyKey (JNum 30).
Proof.
  assert (Forall putOk (sampleOps ++ [ (JNum 9, JNum 30) ])) as Hops
    by (repeat constructor; by_eval).
  split; [exact Hops|]. split; [by_eval|]. split; [by_eval|].
  apply (C2_index_after_puts 0 _ (JNum 30) Hops); by_eval.
Defined.

(** ** C3: put then find *)

(** C3, counterexample.  [put(0, 5)] on an empty table returns, and
    [find({ key: 0 })] then throws instead of returning 5.  (And after
    [put("abc", 1)] a put of the other key "acb", which has the same
    surrogate, makes [find({ key: "abc" })] return 2.  And [put("", 1)]
    on an empty table returns and leaves a table that is not
    well-formed: its root compares equal to every string, so after
    [put("b", 2)] and [put("c", 3)] on it [find({ key: "b" })] returns
    3.) *)
Lemma C3_key_zero_is_not_found :
  (∃ s, put 0 (JNum 0) (JNum 5) emptyRbt = (Ret tt, s)
        ∧ entriesOf (numberTree s) = [ (JNum 0, JNum 5) ]
        ∧ find (JNum 0) JUndefined s = (Throw KeyAndValueNotFound, s))
  ∧ (∃ s, puts 0 [ (JStr "abc", JNum 1); (JStr "acb", JNum 2) ] emptyRbt
          = (Ret tt, s)
          ∧ find (JStr "abc") JUndefined s = (Ret (FValue (JNum 2)), s))
  ∧ (∃ s0 s, put 0 (JStr "") (JNum 1) emptyRbt = (Ret tt, s0)
             ∧ wellFormed s0 = false
             ∧ puts 0 [ (JStr "b", JNum 2); (JStr "c", JNum 3) ] s0
               = (Ret tt, s)
             ∧ find (JStr "b") JUndefined s = (Ret (FValue (JNum 3)), s)).
Proof.
  split_and!; repeat eexists; vm_compute; reflexivity.
Qed.

(** C3, amended.  For a truthy storable key [k] (a number other than 0,
    or a non-empty string of at most 8 characters) and a value [v] whose
    property name the index can own: after [put(k, v)] on a well-formed
    table, followed by any puts of storable keys that do not compare equal
    to [k], [find({ key: k })] returns the value the node holds for [v].
    (Well-formed are the tables [puts_from_empty] speaks of, those built
    from the empty one by puts of storable keys; a put of the empty
    string leaves a table that is not.) *)
Theorem C3_put_then_find now s k v ops :
  wellFormed s = true →
  storableKey k = true → truthy k = true → indexable (storedValue v) →
  Forall (λ op, putOk op ∧ ¬ (typeof op.1 = typeof k ∧ rank op.1 = rank k)) ops →
  ∃ s', puts now ((k, v) :: ops) s = (Ret tt, s')
        ∧ find k JUndefined s' = (Ret (FValue (storedValue v)), s').
Proof.
  intros Hwf Hk Htr [_ Hv] Hops.
  destruct (put_spec now s k v Hwf Hk Hv) as (s1 & Hrun & Hwf1 & Hent & _).
  destruct (puts_other_keys now k ops s1 Hwf1 Hops) as (s' & Hrun' & Hwf' & Hlook).
  exists s'. simpl. rewrite (bind_eq _ _ _ _ _ Hrun). split; [done|].
  rewrite (find_key_spec s' k Hwf' (storableKey_searchable k Hk Htr)).
  unfold valueAt. rewrite Hlook, Hent, bool_decide_true by done.
  by destruct (lookupE_insE_same k k (storedValue v) (routedEntries s k) eq_refl)
    as (k0 & ->).
Qed.

Lemma C3_put_then_find_witness :
  wellFormed sampleTable = true
  ∧ storableKey (JStr "ab") = true ∧ truthy (JStr "ab") = true
  ∧ indexable (storedValue (JNum 12))
  ∧ ∃ s', puts 0 [ (JStr "ab", JNum 12); (JNum 9, JNum 30); (JStr "x", JNum 1) ]
               sampleTable = (Ret tt, s')
          ∧ find (JStr "ab") JUndefined s' = (Ret (FValue (storedValue (JNum 12))), s').
Proof.
  split; [by_eval|]. split; [by_eval|].
  split; [by_eval|]. split; [by_eval|].
  apply (C3_put_then_find 0 sampleTable (JStr "ab") (JNum 12)
           [ (JNum 9, JNum 30); (JStr "x", JNum 1) ]);
    [by_eval|by_eval|by_eval|by_eval|].
  repeat constructor; simpl; intros [? ?]; discriminate.
Defined.

(** ** C4: overwriting a key *)

(** C4, counterexample.  After [put(7, 1)] and [put(7, 2)],
    [find({ value: 1 })] still lists the key 7. *)
Lemma C4_first_value_still_lists_key :
  ∃ s, puts 0 [ (JNum 7, JNum 1); (JNum 7, JNum 2) ] emptyRbt = (Ret tt, s)
       ∧ find JUndefined (JNum 1) s = (Ret (FArray [JNum 7]), s).
Proof. eexists. split; vm_compute; reflexivity. Qed.

(** C4, amended.  [put(k, v1)] followed by [put(k, v2)] on a well-formed
    table leaves exactly one entry that compares equal to [k], holding
    the second value, and the index lists [k] under both values: the
    first association is kept, so [find({ value: v1 })] (for truthy [v1])
    still lists [k]. *)
Theorem C4_overwrite_keeps_one_entry now s k v1 v2 :
  wellFormed s = true → storableKey k = true →
  indexable (storedValue v1) → indexable (storedValue v2) →
  ∃ s', puts now [ (k, v1); (k, v2) ] s = (Ret tt, s')
        ∧ countKey k (routedEntries s' k) = 1%nat
        ∧ valueAt k (routedEntries s' k) = storedValue v2
        ∧ k ∈ indexKeys s' (storedValue v1)
        ∧ k ∈ indexKeys s' (storedValue v2)
        ∧ (truthy v1 = true →
           ∃ ks, find JUndefined v1 s' = (Ret (FArray ks), s') ∧ k ∈ ks).
Proof.
  intros Hwf Hk Hv1 Hv2.
  destruct (put_spec now s k v1 Hwf Hk (proj2 Hv1))
    as (s1 & Hrun1 & Hwf1 & Hent1 & Hidx1).
  destruct (put_spec now s1 k v2 Hwf1 Hk (proj2 Hv2))
    as (s2 & Hrun2 & Hwf2 & Hent2 & Hidx2).
  exists s2. simpl. rewrite (bind_eq _ _ _ _ _ Hrun1), (bind_eq _ _ _ _ _ Hrun2).
  split; [done|].
  destruct (lookupE_insE_same k k (storedValue v2) (routedEntries s1 k) eq_refl)
    as (k0 & Hl).
  assert (StronglySorted Z.lt (ranks (routedEntries s2 k))) as Hsorted.
  { destruct (wellFormed_unpack s2 Hwf2)
      as (tn & ts & En & Es & _ & _ & _ & _ & _ & [_ Hbn] & [_ Hbs]).
    unfold routedEntries. rewrite En, Es. simpl.
    destruct (typeof k); try constructor; done. }
  assert (k ∈ indexKeys s2 (storedValue v1)) as Hin1.
  { unfold indexKeys. rewrite Hidx2, Hidx1, !indexAddT_lookup.
    rewrite (bool_decide_true (toPropertyKey (storedValue v1) = _)) by done.
    case_bool_decide; rewrite ?setAdd_elem; auto. }
  split_and!.
  - eapply sorted_one_entry; [done|].
    rewrite Hent2, bool_decide_true by done. exact Hl.
  - unfold valueAt. by rewrite Hent2, bool_decide_true, Hl by done.
  - done.
  - unfold indexKeys. rewrite Hidx2, indexAddT_lookup, bool_decide_true by done.
    apply setAdd_elem. auto.
  - intros Htr. exists (indexKeys s2 v1).
    assert (storedValue v1 = v1) as Hst by by destruct v1.
    rewrite Hst in *. split; [by apply find_value_spec|done].
Qed.

Lemma C4_overwrite_keeps_one_entry_witness :
  wellFormed sampleTable = true ∧ storableKey (JNum 2) = true
  ∧ indexable (storedValue (JNum 21)) ∧ indexable (storedValue (JNum 22))
  ∧ ∃ s', puts 0 [ (JNum 2, JNum 21); (JNum 2, JNum 22) ] sampleTable = (Ret tt, s')
          ∧ countKey (JNum 2) (routedEntries s' (JNum 2)) = 1%nat
          ∧ valueAt (JNum 2) (routedEntries s' (JNum 2)) = storedValue (JNum 22)
          ∧ JNum 2 ∈ indexKeys s' (storedValue (JNum 21))
          ∧ JNum 2 ∈ indexKeys s' (storedValue (JNum 22))
          ∧ (truthy (JNum 21) = true →
             ∃ ks, find JUndefined (JNum 21) s' = (Ret (FArray ks), s')
                   ∧ JNum 2 ∈ ks).
Proof.
  split; [by_eval|]. split; [by_eval|].
  split; [by_eval|]. split; [by_eval|].
  apply (C4_overwrite_keeps_one_entry 0 sampleTable (JNum 2) (JNum 21) (JNum 22));
    [by_eval|by_eval|by_eval|by_eval].
Defined.

(** ** C5: removing a string key *)

(** C5 (the code departs from it).  The claim: [remove] of a string key
    deletes it from the string tree and leaves the numeric tree as it is.
    Here: on the table with the entries 1 ↦ 10 and "a" ↦ 1,
    [remove("a")] returns [true], the numeric root is [null] afterwards
    (the entry for 1 is gone) and the string tree still holds "a". *)
Theorem C5_removeString_overwrites_numberRoot :
  entriesOf (numberTree mixedTable) = [ (JNum 1, JNum 10) ]
  ∧ entriesOf (stringTree mixedTable) = [ (JStr "a", JNum 1) ]
  ∧ ∃ s', remove (JStr "a") mixedTable = (Ret true, s')
          ∧ numberRoot s' = None
          ∧ entriesOf (numberTree s') = []
          ∧ entriesOf (stringTree s') = [ (JStr "a", JNum 1) ]
          ∧ find (JStr "a") JUndefined s' = (Ret (FValue (JNum 1)), s')
          ∧ find (JNum 1) JUndefined s' = (Ret (FValue JNull), s').
Proof.
  split; [vm_compute; reflexivity|]. split; [vm_compute; reflexivity|].
  eexists. split; [vm_compute; reflexivity|].
  repeat split; vm_compute; reflexivity.
Qed.

(** ** C6: the borrow on the way right *)

(** C6 (the code departs from it).  The claim: when the descent of
    [removeRecv] goes right and the right child and its left child are
    black, the subtree is replaced by the result of [moveRedRight].
    Here: in the tree of the keys 1, 2, 3 (a root with two black
    children), [remove(3)] meets that case at the root; [h] becomes the
    method itself, the next comparison throws, nothing of the tree is
    rearranged (the root is left red), and the key 3 is still there. *)
Theorem C6_moveRedRight_is_not_applied :
  ∃ a l r z s',
    numberTree threeTable
    = Some (Node a l (JNum 2) (JNum 20) BLACK z r)
    ∧ isRedT l = false ∧ isRedT r = false ∧ isRedT (leftT r) = false
    ∧ remove (JNum 3) threeTable = (Throw InconsistentTypes, s')
    ∧ numberTree s' = Some (Node a l (JNum 2) (JNum 20) RED z r)
    ∧ ∃ s'', moveRedRight (numberRoot s') s' = (Ret (Some a), s'')
             ∧ numberTree s'' ≠ numberTree s'.
Proof.
  eexists _, _, _, _, _. split; [vm_compute; reflexivity|].
  repeat (split; [vm_compute; reflexivity|]).
  eexists. split; [vm_compute; reflexivity|]. vm_compute. discriminate.
Qed.

(** ** C7: insert without a key *)

(** C7 (the code departs from it).  The claim: [insert(v)] makes up a
    key, stores [v] under it and returns [true] when the table grew.
    Here: on every well-formed table and for every value other than
    [null] and [undefined], [insert(v)] returns [false] and leaves the
    table exactly as it was. *)
Theorem C7_insert_stores_nothing now s v :
  wellFormed s = true → isNullish v = false →
  insert now v s = (Ret false, s).
Proof.
  intros Hwf Hv. unfold insert. rewrite Hv.
  destruct (rbtSize_wf s Hwf) as (z & Hsz).
  rewrite (bind_eq _ _ _ _ _ Hsz).
  assert (put now (JObj 0) JUndefined s = (Ret tt, s)) as Hput by reflexivity.
  rewrite (bind_eq _ _ _ _ _ Hput), (bind_eq _ _ _ _ _ Hsz).
  by rewrite bool_decide_false by lia.
Qed.

Lemma C7_insert_stores_nothing_witness :
  wellFormed sampleTable = true ∧ isNullish (JStr "payload") = false
  ∧ insert 1541030400000 (JStr "payload") sampleTable = (Ret false, sampleTable).
Proof.
  split; [by_eval|]. split; [by_eval|].
  apply (C7_insert_stores_nothing 1541030400000 sampleTable (JStr "payload"));
    [by_eval|by_eval].
Defined.

(** ** C8: remove of null and of an absent key *)

(** C8, counterexample.  The key 0 is not in the empty table, and
    [remove(0)] throws instead of returning [false]. *)
Lemma C8_remove_absent_zero_throws :
  routedEntries emptyRbt (JNum 0) = []
  ∧ remove (JNum 0) emptyRbt = (Throw KeyAndValueNotFound, emptyRbt).
Proof. split; vm_compute; reflexivity. Qed.

(** C8, amended.  [remove(null)] (and [remove(undefined)]) throws the
    'Expect string or number' error on every table; on a well-formed
    table, [remove] of a truthy number or string key that no entry of its
    tree compares equal to returns [false] and changes nothing. *)
Theorem C8_remove_null_throws_absent_returns_false s k :
  remove JNull s = (Throw ExpectStringOrNumber, s)
  ∧ remove JUndefined s = (Throw ExpectStringOrNumber, s)
  ∧ (wellFormed s = true → searchableKey k = true →
     Forall (λ e, rank e.1 ≠ rank k) (routedEntries s k) →
     remove k s = (Ret false, s)).
Proof.
  split; [done|]. split; [done|]. intros Hwf Hk Habsent.
  apply remove_not_contained; [done..|].
  unfold valueAt. by rewrite lookupE_none.
Qed.

Lemma C8_remove_null_throws_absent_returns_false_witness :
  wellFormed sampleTable = true ∧ searchableKey (JNum 9) = true
  ∧ Forall (λ e, rank e.1 ≠ rank (JNum 9)) (routedEntries sampleTable (JNum 9))
  ∧ remove JNull sampleTable = (Throw ExpectStringOrNumber, sampleTable)
  ∧ remove JUndefined sampleTable = (Throw ExpectStringOrNumber, sampleTable)
  ∧ remove (JNum 9) sampleTable = (Ret false, sampleTable).
Proof.
  assert (Forall (λ e, rank e.1 ≠ rank (JNum 9))
            (routedEntries sampleTable (JNum 9))) as Habsent.
  { vm_compute. repeat constructor; discriminate. }
  split; [by_eval|]. split; [by_eval|].
  split; [exact Habsent|].
  destruct (C8_remove_null_throws_absent_returns_false sampleTable (JNum 9))
    as (Hnull & Hundef & Habs).
  split; [exact Hnull|]. split; [exact Hundef|].
  apply Habs; [by_eval|by_eval|exact Habsent].
Defined.

(** ** C9: the key 0 *)

(** C9.  [find] with the key 0 never looks into a tree: on every table,
    with a truthy value beside it the result is the key set the index has
    for that value, and otherwise the call throws 'Key and value not
    found'.  [put(0, v)] on a well-formed table does store an entry under
    the key 0, and [find({ key: 0 })] throws all the same. *)
Theorem C9_key_zero_is_never_searched now s v w :
  find (JNum 0) w s
  = (if truthy w
     then (Ret (FArray (default [] (slotArray (indexSlot (invertedIndex s) w)))), s)
     else (Throw KeyAndValueNotFound, s))
  ∧ (wellFormed s = true → indexable (storedValue v) →
     ∃ s' k0, put now (JNum 0) v s = (Ret tt, s')
              ∧ lookupE (JNum 0) (entriesOf (numberTree s')) = Some (k0, storedValue v)
              ∧ find (JNum 0) JUndefined s' = (Throw KeyAndValueNotFound, s')).
Proof.
  split.
  - unfold find, newRedBlackNode. cbn [orDefault].
    erewrite bind_lift by reflexivity. cbn [truthy Z.eqb negb andb].
    destruct (truthy w); [|done].
    unfold getIndexSlot. rewrite bind_assoc. unfold bind at 1.
    by destruct (slotArray (indexSlot (invertedIndex s) w)).
  - intros Hwf [_ Hv].
    destruct (put_spec now s (JNum 0) v Hwf eq_refl Hv)
      as (s' & Hrun & Hwf' & Hent & _).
    destruct (lookupE_insE_same (JNum 0) (JNum 0) (storedValue v)
                (routedEntries s (JNum 0)) eq_refl) as (k0 & Hl).
    exists s', k0. split; [done|]. split; [|done].
    specialize (Hent (JNum 0)). rewrite bool_decide_true in Hent by done.
    unfold routedEntries in Hent at 1. simpl in Hent. by rewrite Hent.
Qed.

Lemma C9_key_zero_is_never_searched_witness :
  wellFormed sampleTable = true ∧ indexable (storedValue (JNum 7))
  ∧ find (JNum 0) (JNum 30) sampleTable
    = (Ret (FArray [JNum 3]), sampleTable)
  ∧ ∃ s' k0, put 0 (JNum 0) (JNum 7) sampleTable = (Ret tt, s')
             ∧ lookupE (JNum 0) (entriesOf (numberTree s'))
               = Some (k0, storedValue (JNum 7))
             ∧ find (JNum 0) JUndefined s' = (Throw KeyAndValueNotFound, s').
Proof.
  split; [by_eval|]. split; [by_eval|].
  destruct (C9_key_zero_is_never_searched 0 sampleTable (JNum 7) (JNum 30))
    as (Hfind & Hput).
  split; [rewrite Hfind; vm_compute; reflexivity|].
  apply Hput; [by_eval|by_eval].
Defined.

(** ** C10: keys whose value is falsy *)

(** C10, counterexample.  The key 0 holds the falsy value 0, and
    [constains(0)] throws instead of returning [false]. *)
Lemma C10_contains_zero_throws :
  ∃ s, put 0 (JNum 0) (JNum 0) emptyRbt = (Ret tt, s)
       ∧ lookupE (JNum 0) (routedEntries s (JNum 0)) = Some (JNum 0, JNum 0)
       ∧ constains (JNum 0) s = (Throw KeyAndValueNotFound, s)
       ∧ remove (JNum 0) s = (Throw KeyAndValueNotFound, s).
Proof. eexists. repeat split; vm_compute; reflexivity. Qed.

(** C10, amended.  On a well-formed table, for every truthy number or
    string key [k] whose entry holds a falsy value, [constains(k)]
    returns [false], and [remove(k)] returns [false] and leaves roots,
    node objects and index as they were. *)
Theorem C10_falsy_value_hides_key s k k0 v :
  wellFormed s = true → searchableKey k = true →
  lookupE k (routedEntries s k) = Some (k0, v) → truthy v = false →
  constains k s = (Ret false, s) ∧ remove k s = (Ret false, s).
Proof.
  intros Hwf Hk Hl Hv.
  assert (truthy (valueAt k (routedEntries s k)) = false) as Hval
    by (unfold valueAt; by rewrite Hl).
  split.
  - by rewrite constains_spec, Hval.
  - by apply remove_not_contained.
Qed.

Lemma C10_falsy_value_hides_key_witness :
  wellFormed sampleTable = true ∧ searchableKey (JStr "bb") = true
  ∧ lookupE (JStr "bb") (routedEntries sampleTable (JStr "bb"))
    = Some (JStr "bb", JNum 0)
  ∧ truthy (JNum 0) = false
  ∧ constains (JStr "bb") sampleTable = (Ret false, sampleTable)
  ∧ remove (JStr "bb") sampleTable = (Ret false, sampleTable).
Proof.
  split; [by_eval|]. split; [by_eval|].
  split; [by_eval|]. split; [by_eval|].
  apply (C10_falsy_value_hides_key sampleTable (JStr "bb") (JStr "bb") (JNum 0));
    [by_eval|by_eval|by_eval|by_eval].
Defined.

(** * Further properties of the code *)

(** ** RedBlackNode.js: how keys compare *)

Lemma sumCodes_acc s : ∀ acc, sumCodes s acc = acc + sumCodes s 0.
Proof.
  induction s as [|c s IH]; intros acc; simpl; [lia|].
  rewrite (IH (acc + _)), (IH (0 + _)). lia.
Qed.

Lemma sumCodes_permutation l1 l2 :
  l1 ≡ₚ l2 →
  ∀ acc, sumCodes (String.string_of_list_ascii l1) acc
         = sumCodes (String.string_of_list_ascii l2) acc.
Proof.
  induction 1 as [|c l1 l2 _ IH|c1 c2 l|l1 l2 l3 _ IH1 _ IH2]; intros acc; simpl.
  - done.
  - apply IH.
  - f_equal. lia.
  - by rewrite IH1.
Qed.

(** The sum over the tail of a key of 7-bit characters is small. *)
Lemma sumCodes_bound s : ∀ acc,
  sevenBit s = true →
  acc - 64 * Z.of_nat (String.length s) ≤ sumCodes s acc
  ≤ acc + 63 * Z.of_nat (String.length s).
Proof.
  induction s as [|c s IH]; intros acc Hs.
  - simpl. lia.
  - cbn [sevenBit] in Hs. apply andb_true_iff in Hs as [Hc Hs].
    apply bool_decide_eq_true in Hc.
    assert (0 ≤ charCode c) by (unfold charCode; lia).
    cbn [sumCodes String.length]. specialize (IH (acc + (charCode c - 64)) Hs).
    lia.
Qed.

(** What a non-empty string decodes to. *)
Lemma decodeStrKey_cons c rest :
  decodeStrKey (JStr (String c rest))
  = Ret (Some (sumCodes rest 0 + (charCode c - 64) * STRING_COMBINATION)).
Proof.
  unfold decodeStrKey. destruct rest as [|c1 rest1]; cbn [sumCodes]; [done|].
  by rewrite Z.add_0_l.
Qed.

(** X1.  [compareTo] is antisymmetric on whatever it accepts: if
    [a.compareTo(b)] returns [c], then [b.compareTo(a)] returns [-c]. *)
Theorem X1_compareTo_antisymmetric k1 k2 c :
  compareTo k1 k2 = Ret c → compareTo k2 k1 = Ret (- c).
Proof.
  destruct k1 as [| |b1|a|s1|o1], k2 as [| |b2|b|s2|o2]; try done.
  - simpl. repeat case_bool_decide; intros [= <-]; try done; lia.
  - destruct s1 as [|c1 r1], s2 as [|c2 r2].
    + by intros [= <-].
    + cbn. by intros [= <-].
    + cbn. by intros [= <-].
    + unfold compareTo. rewrite !decodeStrKey_cons. cbn [obind numGt numLt].
      repeat case_bool_decide; intros [= <-]; try done; lia.
Qed.

Lemma X1_compareTo_antisymmetric_witness :
  compareTo (JStr "aa") (JStr "a") = Ret 1
  ∧ compareTo (JStr "a") (JStr "aa") = Ret (- 1).
Proof.
  split; [reflexivity|].
  apply (X1_compareTo_antisymmetric (JStr "aa") (JStr "a") 1). reflexivity.
Defined.

(** X2.  Within the length limit the first character decides: of two
    string keys of 7-bit characters, of at most 8 characters each, the one
    whose first character has the smaller code compares below the other,
    whatever follows. *)
Theorem X2_compareTo_first_character_decides c1 r1 c2 r2 :
  storableKey (JStr (String c1 r1)) = true →
  storableKey (JStr (String c2 r2)) = true →
  charCode c1 < charCode c2 →
  compareTo (JStr (String c1 r1)) (JStr (String c2 r2)) = Ret (-1).
Proof.
  intros H1 H2 Hc.
  cbn [storableKey sevenBit String.length] in H1, H2.
  apply andb_true_iff in H1 as [[_ [_ Hs1]%andb_true_iff]%andb_true_iff Hl1].
  apply andb_true_iff in H2 as [[_ [_ Hs2]%andb_true_iff]%andb_true_iff Hl2].
  apply bool_decide_eq_true in Hl1, Hl2.
  pose proof (sumCodes_bound r1 0 Hs1) as B1.
  pose proof (sumCodes_bound r2 0 Hs2) as B2.
  unfold compareTo. rewrite !decodeStrKey_cons. cbn [obind numGt numLt].
  unfold STRING_ENCODING_LENGTH in *.
  assert (STRING_COMBINATION = 128063081718016) as -> by reflexivity.
  rewrite bool_decide_false by lia. by rewrite bool_decide_true by lia.
Qed.

Lemma X2_compareTo_first_character_decides_witness :
  compareTo (JStr "azzzzzzz") (JStr "b") = Ret (-1).
Proof.
  apply X2_compareTo_first_character_decides; vm_compute; reflexivity.
Defined.

(** X3.  After the first character only the sum of the character codes
    counts: two string keys with the same first character whose remaining
    characters are a rearrangement of each other compare equal, so the
    table holds them as one key. *)
Theorem X3_compareTo_rearranged_tail_is_equal c r1 r2 :
  String.list_ascii_of_string r1 ≡ₚ String.list_ascii_of_string r2 →
  compareTo (JStr (String c r1)) (JStr (String c r2)) = Ret 0.
Proof.
  intros Hp. unfold compareTo. rewrite !decodeStrKey_cons.
  pose proof (sumCodes_permutation _ _ Hp 0) as Hs.
  rewrite !String.string_of_list_ascii_of_string in Hs. rewrite Hs.
  cbn [obind numGt numLt]. by rewrite !bool_decide_false by lia.
Qed.

Lemma X3_compareTo_rearranged_tail_is_equal_witness :
  compareTo (JStr "abc") (JStr "acb") = Ret 0.
Proof.
  apply X3_compareTo_rearranged_tail_is_equal.
  simpl. apply Permutation_swap.
Defined.

(** X4.  The empty string decodes to [NaN], which is neither above nor
    below anything: it compares equal to every string key, from both
    sides, and comparing a number with a string throws. *)
Theorem X4_compareTo_empty_string_equals_all s z :
  compareTo (JStr "") (JStr s) = Ret 0
  ∧ compareTo (JStr s) (JStr "") = Ret 0
  ∧ compareTo (JNum z) (JStr s) = Throw InconsistentTypes
  ∧ compareTo (JStr s) (JNum z) = Throw InconsistentTypes.
Proof.
  split_and!; try done.
  - destruct s as [|c r]; [done|].
    unfold compareTo. by rewrite decodeStrKey_cons.
  - destruct s as [|c r]; [done|].
    unfold compareTo. by rewrite decodeStrKey_cons.
Qed.

(** ** [put]: what it ignores, what it refuses, what it keeps *)

(** The descent of [putRecv] and the recolouring of the root, for any key
    of the tree's type. *)
Lemma put_run ty n t tother h0 nr sr idx :
  rep h0 t → rep h0 tother → NoDup (addrs t ++ addrs tother) →
  ty = TNumber ∨ ty = TString → typeof (key n) = ty → keysTyped ty t →
  left n = None → right n = None → ownable (value n) →
  let t' := putRecvT (length h0) t n in
  let idx' := indexAddT idx (value n) (key n) in
  ∃ h1 h2,
    putRecv (S (length h0)) (ptr t) n (mkRbt h0 nr sr idx)
    = (Ret (ptr t'), mkRbt h1 nr sr idx')
    ∧ (∀ nr' sr', setf (setColor BLACK) (ptr t') (mkRbt h1 nr' sr' idx')
                  = (Ret tt, mkRbt h2 nr' sr' idx'))
    ∧ rep h2 (setColorT BLACK t') ∧ rep h2 tother
    ∧ NoDup (addrs (setColorT BLACK t') ++ addrs tother).
Proof.
  intros Hrep Hother Hnd Hty Hk Hkt Hnl Hnr Hown t' idx'.
  pose proof Hnd as (Hndt & Hdisj & Hndo)%NoDup_app.
  edestruct (putRecv_rep ty n t (S (length h0)) (mkRbt h0 nr sr idx))
    as (h1 & Hrun & Hrep1 & Hlen1 & Hfr1); eauto using rep_fuel.
  cbn [store numberRoot stringRoot invertedIndex] in Hrun, Hrep1, Hlen1, Hfr1.
  fold t' in Hrun, Hrep1. fold idx' in Hrun.
  assert (∀ p, p ∈ addrs tother → (p < length h0)%nat) as Holt
    by (intros p Hp; exact (rep_addr_lt _ _ _ Hother Hp)).
  assert (∀ p, p ∈ addrs t → (p < length h0)%nat) as Htlt
    by (intros p Hp; exact (rep_addr_lt _ _ _ Hrep Hp)).
  assert (NoDup (addrs t')) as Hndt'.
  { apply putRecvT_NoDup; [done|]. intros Hin%Htlt. lia. }
  assert (∀ p, p ∈ addrs t' → p ∉ addrs tother) as Hdisj'.
  { intros p [->|Hin]%putRecvT_addrs_elem; [|auto].
    intros Hin%Holt. lia. }
  assert (rep h1 tother) as Hother1.
  { eapply rep_agree; [exact Hother|]. intros p Hp. apply Hfr1; [|auto].
    intros Hin. by apply (Hdisj _ Hin). }
  pose proof (putRecvT_node (length h0) t n) as Hne. fold t' in Hne.
  clearbody t'.
  destruct t' as [|a' l' k' v' c' sz' r']; [done|].
  pose proof Hrep1 as (Ha' & Hl' & Hr').
  exists h1, (<[a' := mkNode (ptr l') (ptr r') k' v' BLACK sz']> h1).
  split; [done|]. split_and!.
  - intros nr' sr'. simpl. unfold setf. simpl. by rewrite Ha'.
  - simpl. split_and!.
    + apply list_lookup_insert_eq. by eapply lookup_lt_Some.
    + apply rep_insert; [done|]. nd Hndt'.
    + apply rep_insert; [done|]. nd Hndt'.
  - apply rep_insert; [done|]. apply Hdisj'. simpl. apply elem_of_cons; auto.
  - change (NoDup (addrs (Node a' l' k' v' c' sz' r') ++ addrs tother)).
    apply NoDup_app. split_and!; auto.
Qed.

Lemma wellFormed_trees s :
  wellFormed s = true →
  ∃ tn ts, numberTree s = Some tn ∧ stringTree s = Some ts.
Proof.
  intros Hwf. destruct (wellFormed_unpack s Hwf) as (tn & ts & ? & ? & _).
  eauto.
Qed.

(** [put] of a number: the trees it leaves. *)
Lemma put_number_trees now s z v tn ts :
  wellFormed s = true → numberTree s = Some tn → stringTree s = Some ts →
  ownable (storedValue v) →
  ∃ s', put now (JNum z) v s = (Ret tt, s')
        ∧ wellFormed s' = true
        ∧ numberTree s' = Some (putTree s tn (JNum z) v)
        ∧ stringTree s' = Some ts
        ∧ invertedIndex s' = indexAddT (invertedIndex s) (storedValue v) (JNum z).
Proof.
  intros Hwf En0 Es0 Hown.
  destruct (wellFormed_unpack s Hwf)
    as (tn' & ts' & En & Es & Hn & Hpn & Hs & Hps & Hnd & Hbn & Hbs).
  assert (tn' = tn) as -> by congruence. assert (ts' = ts) as -> by congruence.
  destruct s as [h0 nr sr idx]. simpl in Hn, Hpn, Hs, Hps.
  unfold put, putTree. cbn [isNullish store]. rewrite bind_ret.
  rewrite (bind_lift _ _ _ _ (newRedBlackNode_put (JNum z) v eq_refl)).
  set (n := mkNode None None (JNum z) (storedValue v) RED 1).
  rewrite bool_decide_true by done.
  edestruct (put_run TNumber n tn ts h0 nr sr idx)
    as (h1 & h2 & Hrun & Hcol & Hrep2 & Hother2 & Hnd2);
    eauto using keysTyped_bst.
  this_step. rewrite Hpn in Hrun. rewrite (bind_eq _ _ _ _ _ Hrun). this_step.
  unfold bind at 1. rewrite Hcol.
  rewrite bool_decide_false by done. unfold ret.
  eexists. split; [reflexivity|].
  edestruct (wellFormed_pack
               (mkRbt h2 (ptr (putRecvT (length h0) tn n)) sr
                      (indexAddT idx (value n) (key n))))
    as (Hwf' & En' & Es'); [exact Hrep2| |exact Hother2|done|exact Hnd2|
                             |exact Hbs|].
  { simpl. by destruct (putRecvT (length h0) tn n). }
  { unfold bst. rewrite elems_setColorT. by apply putRecvT_bst. }
  done.
Qed.

(** [put] of a string within the length limit, when the tree it leaves is
    in order. *)
Lemma put_string_trees now s str v tn ts :
  wellFormed s = true → numberTree s = Some tn → stringTree s = Some ts →
  Z.of_nat (String.length str) ≤ STRING_ENCODING_LENGTH →
  ownable (storedValue v) →
  bst TString (putTree s ts (JStr str) v) →
  ∃ s', put now (JStr str) v s = (Ret tt, s')
        ∧ wellFormed s' = true
        ∧ numberTree s' = Some tn
        ∧ stringTree s' = Some (putTree s ts (JStr str) v)
        ∧ invertedIndex s'
          = indexAddT (invertedIndex s) (storedValue v) (JStr str).
Proof.
  intros Hwf En0 Es0 Hlen Hown Hb.
  destruct (wellFormed_unpack s Hwf)
    as (tn' & ts' & En & Es & Hn & Hpn & Hs & Hps & Hnd & Hbn & Hbs).
  assert (tn' = tn) as -> by congruence. assert (ts' = ts) as -> by congruence.
  destruct s as [h0 nr sr idx]. simpl in Hn, Hpn, Hs, Hps.
  unfold putTree in *. cbn [store] in *.
  unfold put. cbn [isNullish]. rewrite bind_ret.
  assert (newRedBlackNode (JStr str) v RED 1
          = Ret (mkNode None None (JStr str) (storedValue v) RED 1)) as Hnew.
  { unfold newRedBlackNode. by rewrite bool_decide_false by lia. }
  rewrite (bind_lift _ _ _ _ Hnew).
  set (n := mkNode None None (JStr str) (storedValue v) RED 1) in *.
  rewrite bool_decide_false by done. rewrite bind_ret.
  rewrite bool_decide_true by done.
  assert (NoDup (addrs ts ++ addrs tn)) as Hnd'.
  { revert Hnd. apply NoDup_Permutation_proper. apply Permutation_app_comm. }
  edestruct (put_run TString n ts tn h0 nr sr idx)
    as (h1 & h2 & Hrun & Hcol & Hrep2 & Hother2 & Hnd2);
    eauto using keysTyped_bst.
  this_step. rewrite Hps in Hrun. rewrite (bind_eq _ _ _ _ _ Hrun). this_step.
  rewrite Hcol.
  eexists. split; [reflexivity|].
  edestruct (wellFormed_pack
               (mkRbt h2 nr (ptr (putRecvT (length h0) ts n))
                      (indexAddT idx (value n) (key n))))
    as (Hwf' & En' & Es'); [exact Hother2|done|exact Hrep2| |
                             |exact Hbn|exact Hb|].
  { simpl. by destruct (putRecvT (length h0) ts n). }
  { revert Hnd2. apply NoDup_Permutation_proper. apply Permutation_app_comm. }
  done.
Qed.

(** *** The [size] fields *)

Lemma sized_flipT t : sized (flipT t) = sized t.
Proof. by destruct t. Qed.

Lemma sizeAtT_flipT t : sizeAtT (flipT t) = sizeAtT t.
Proof. by destruct t. Qed.

Lemma sized_setColorT c t : sized (setColorT c t) = sized t.
Proof. by destruct t. Qed.

Lemma sized_sizedBelow t : sized t = true → sizedBelow t = true.
Proof.
  destruct t; [done|]. cbn [sized sizedBelow].
  rewrite !andb_true_iff. tauto.
Qed.

Ltac sized_tac :=
  cbn [sized sizedBelow sizeAtT flipT] in *;
  rewrite ?sized_flipT, ?sizeAtT_flipT in *;
  repeat match goal with
         | H : _ && _ = true |- _ => apply andb_true_iff in H as [? ?]
         | H : bool_decide _ = true |- _ => apply bool_decide_eq_true in H
         end;
  rewrite ?andb_true_iff, ?bool_decide_eq_true;
  repeat split; try done; try lia.

Lemma fixRightLiningT_sizedBelow t :
  sizedBelow t = true → sizedBelow (fixRightLiningT t) = true.
Proof.
  destruct t as [|a l k v c sz r]; [done|].
  unfold fixRightLiningT. cbn [leftT rightT]. intros Hs.
  case_colors;
    cbn [rotateLeftT rotateRightT flipColorsT setRightT leftT rightT isRedT
         andb negb];
    case_colors; cbn [rotateLeftT rotateRightT flipColorsT setRightT flipT];
    sized_tac.
Qed.

Lemma setSizeT_sized t : sizedBelow t = true → sized (setSizeT t) = true.
Proof. destruct t; [done|]. intros Hs. cbn [setSizeT]. sized_tac. Qed.

Lemma putRecvT_sized a0 t n :
  sized t = true → size n = 1 → sized (putRecvT a0 t n) = true.
Proof.
  intros Hs Hn. induction t as [|a l IHl k v c sz r IHr].
  - simpl. rewrite Hn. by rewrite bool_decide_true by done.
  - cbn [putRecvT]. apply setSizeT_sized, fixRightLiningT_sizedBelow.
    cbn [sized] in Hs. apply andb_true_iff in Hs as [[_ Hl]%andb_true_iff Hr].
    repeat case_bool_decide; cbn [sizedBelow]; rewrite ?IHl, ?IHr by done;
      by rewrite ?Hl, ?Hr.
Qed.

(** In a tree that carries its sizes, [size] counts the entries. *)
Lemma sized_count t :
  sized t = true → sizeAtT t = Z.of_nat (length (elems t)).
Proof.
  induction t as [|a l IHl k v c sz r IHr]; [done|].
  cbn [sized sizeAtT elems]. intros [[Hsz Hl]%andb_true_iff Hr]%andb_true_iff.
  apply bool_decide_eq_true in Hsz.
  rewrite length_app. cbn [length]. rewrite Hsz, IHl, IHr by done. lia.
Qed.

Lemma putTree_sized s t k v : sized t = true → sized (putTree s t k v) = true.
Proof.
  intros Hs. unfold putTree. rewrite sized_setColorT.
  by apply putRecvT_sized.
Qed.

Lemma putTree_elems ty s t k v :
  bst ty t → keyOk ty k = true →
  elems (putTree s t k v) = insE k (storedValue v) (elems t).
Proof.
  intros Hb Hk. unfold putTree. rewrite elems_setColorT.
  by rewrite (putRecvT_elems ty).
Qed.

(** [put] of a storable key keeps the table well-formed and its sizes
    right. *)
Lemma put_sized now s k v :
  wellFormed s = true → sizedTable s = true →
  storableKey k = true → ownable (storedValue v) →
  ∃ s', put now k v s = (Ret tt, s')
        ∧ wellFormed s' = true ∧ sizedTable s' = true.
Proof.
  intros Hwf Hsz Hk Hown.
  destruct (wellFormed_unpack s Hwf)
    as (tn & ts & En & Es & Hn & Hpn & Hs & Hps & Hnd & Hbn & Hbs).
  unfold sizedTable in Hsz. rewrite En, Es in Hsz.
  apply andb_true_iff in Hsz as [Hszn Hszs].
  destruct k as [| | |z|str|]; try done.
  - destruct (put_number_trees now s z v tn ts)
      as (s' & Hrun & Hwf' & En' & Es' & _); try done.
    exists s'. split_and!; try done.
    unfold sizedTable. rewrite En', Es'. by rewrite putTree_sized, Hszs.
  - pose proof Hk as Hk'. cbn [storableKey] in Hk'.
    apply andb_true_iff in Hk' as [_ Hlen]. apply bool_decide_eq_true in Hlen.
    destruct (put_string_trees now s str v tn ts)
      as (s' & Hrun & Hwf' & En' & Es' & _); try done.
    { unfold putTree, bst. rewrite elems_setColorT.
      apply putRecvT_bst; [done|]. by apply (storableKey_keyOk (JStr str)). }
    exists s'. split_and!; try done.
    unfold sizedTable. rewrite En', Es'. by rewrite putTree_sized, Hszn.
Qed.

Lemma puts_sized now ops : ∀ s,
  wellFormed s = true → sizedTable s = true → Forall putOk ops →
  ∃ s', puts now ops s = (Ret tt, s')
        ∧ wellFormed s' = true ∧ sizedTable s' = true.
Proof.
  induction ops as [|[k v] ops IH]; intros s Hwf Hsz Hops.
  - exists s. done.
  - apply Forall_cons in Hops as [[Hk [_ Hv]] Hops]. simpl in Hk, Hv.
    destruct (put_sized now s k v Hwf Hsz Hk Hv) as (s1 & Hrun & Hwf1 & Hsz1).
    destruct (IH s1 Hwf1 Hsz1 Hops) as (s' & Hrun' & Hwf' & Hsz').
    exists s'. simpl. by rewrite (bind_eq _ _ _ _ _ Hrun).
Qed.

(** [size()] and [isEmpty()] on a table that carries its sizes. *)
Lemma rbtSize_count s :
  wellFormed s = true → sizedTable s = true →
  rbtSize s
  = (Ret (Z.of_nat (length (entriesOf (numberTree s)
                            ++ entriesOf (stringTree s)))), s).
Proof.
  intros Hwf Hsz.
  destruct (wellFormed_unpack s Hwf)
    as (tn & ts & En & Es & Hn & Hpn & Hs & Hps & Hnd & Hbn & Hbs).
  unfold sizedTable in Hsz. rewrite En, Es in *.
  apply andb_true_iff in Hsz as [Hszn Hszs].
  apply sized_count in Hszn, Hszs. cbn [entriesOf]. rewrite length_app.
  destruct s as [h0 nr sr idx]. simpl in *. subst.
  unfold rbtSize, isEmpty. this_step.
  destruct tn as [|a1 l1 k1 v1 c1 z1 r1], ts as [|a2 l2 k2 v2 c2 z2 r2];
    simpl in *; this_step;
    repeat (rewrite ?bool_decide_true, ?bool_decide_false by done;
            this_step; cbn [andb]).
  - done.
  - destruct Hs as (Ha & _). erewrite getf_eq by exact Ha. simpl.
    by rewrite Hszs.
  - destruct Hn as (Ha & _). erewrite getf_eq by exact Ha. simpl.
    rewrite Hszn. do 3 f_equal. lia.
  - destruct Hn as (Ha1 & _), Hs as (Ha2 & _).
    erewrite bind_getf by exact Ha1. this_step.
    erewrite bind_getf by exact Ha2. simpl. unfold ret.
    rewrite Hszn, Hszs. do 3 f_equal. lia.
Qed.

Lemma elems_nil t : elems t = [] ↔ t = Leaf.
Proof.
  destruct t as [|a l k v c sz r]; [done|]. simpl. split; [|done].
  intros H. by apply app_nil in H as [_ ?].
Qed.

Lemma isEmpty_wf s :
  wellFormed s = true →
  isEmpty s
  = (Ret (bool_decide (entriesOf (numberTree s) ++ entriesOf (stringTree s)
                       = [])), s).
Proof.
  intros Hwf.
  destruct (wellFormed_unpack s Hwf)
    as (tn & ts & En & Es & Hn & Hpn & Hs & Hps & Hnd & Hbn & Hbs).
  rewrite En, Es. cbn [entriesOf].
  unfold isEmpty. this_step. rewrite <- Hpn, <- Hps. unfold ret. do 2 f_equal.
  destruct tn as [|a1 l1 k1 v1 c1 z1 r1].
  - destruct ts as [|a2 l2 k2 v2 c2 z2 r2]; [done|].
    cbn [ptr]. rewrite bool_decide_true by done.
    rewrite bool_decide_false by done. cbn [andb]. symmetry.
    apply bool_decide_false. simpl. intros H. by apply app_nil in H as [_ ?].
  - cbn [ptr]. rewrite bool_decide_false by done. cbn [andb]. symmetry.
    apply bool_decide_false. intros [H _]%app_nil. by apply elems_nil in H.
Qed.

Lemma insE_length k v es :
  StronglySorted Z.lt (ranks es) →
  length (insE k v es)
  = match lookupE k es with
    | Some _ => length es
    | None => S (length es)
    end.
Proof.
  induction es as [|[k0 v0] es IH]; [done|].
  cbn [ranks fmap list_fmap]. intros [Hall Hs]%StronglySorted_cons.
  cbn [insE lookupE]. repeat case_bool_decide; try lia; try done.
  - rewrite lookupE_none; [done|].
    apply Forall_forall. intros e He. rewrite Forall_forall in Hall.
    assert (rank k0 < rank e.1); [|lia].
    apply Hall. apply list_elem_of_fmap. eauto.
  - cbn [length]. rewrite IH by done. by destruct (lookupE k es).
Qed.

(** X5.  [put] with a key that is neither a number nor a string
    (in particular with [null] or no key at all, where the key
    [getRandomKey] makes up goes into the new node but not into the type
    test) returns without storing anything: the table is as before. *)
Theorem X5_put_ignores_other_keys now s k v :
  typeof k ≠ TNumber → typeof k ≠ TString → put now k v s = (Ret tt, s).
Proof.
  intros Hn Hs. by destruct k.
Qed.

Lemma X5_put_ignores_other_keys_witness :
  put 1700000000000 JNull (JNum 5) sampleTable = (Ret tt, sampleTable).
Proof.
  apply (X5_put_ignores_other_keys 1700000000000 sampleTable JNull (JNum 5));
    discriminate.
Defined.

(** X6.  [put] with a string key of more than 8 characters throws the
    'String type key exceed STRING_ENCODING_LENGTH' error of the node
    constructor, and the table is as before. *)
Theorem X6_put_refuses_long_string_keys now s str v :
  (8 < String.length str)%nat →
  put now (JStr str) v s = (Throw KeyTooLong, s).
Proof.
  intros Hlen. unfold put, newRedBlackNode. cbn [isNullish].
  rewrite bind_ret.
  rewrite bool_decide_true by (unfold STRING_ENCODING_LENGTH; lia).
  reflexivity.
Qed.

Lemma X6_put_refuses_long_string_keys_witness :
  put 0 (JStr "nine char") (JNum 1) sampleTable = (Throw KeyTooLong, sampleTable).
Proof.
  apply (X6_put_refuses_long_string_keys 0 sampleTable "nine char" (JNum 1)).
  simpl. lia.
Defined.

(** X7.  After any run of puts of storable keys on an empty table,
    [size()] returns the number of entries the two trees hold, and
    [isEmpty()] says whether that number is zero. *)
Theorem X7_size_counts_the_entries now ops :
  Forall putOk ops →
  ∃ s es, puts now ops emptyRbt = (Ret tt, s)
          ∧ es = entriesOf (numberTree s) ++ entriesOf (stringTree s)
          ∧ rbtSize s = (Ret (Z.of_nat (length es)), s)
          ∧ isEmpty s = (Ret (bool_decide (es = [])), s).
Proof.
  intros Hops.
  destruct (puts_sized now ops emptyRbt eq_refl eq_refl Hops)
    as (s & Hrun & Hwf & Hsz).
  exists s. eexists. split; [done|]. split; [reflexivity|].
  split; [by apply rbtSize_count|by apply isEmpty_wf].
Qed.

Lemma X7_size_counts_the_entries_witness :
  ∃ s es, puts 0 sampleOps emptyRbt = (Ret tt, s)
          ∧ es = entriesOf (numberTree s) ++ entriesOf (stringTree s)
          ∧ rbtSize s = (Ret (Z.of_nat (length es)), s)
          ∧ isEmpty s = (Ret (bool_decide (es = [])), s).
Proof.
  apply (X7_size_counts_the_entries 0 sampleOps).
  unfold sampleOps. repeat constructor; by_eval.
Defined.

(** X8.  On a well-formed table that carries its sizes, [put] of a
    storable key that compares equal to no key of its tree makes [size()]
    one larger; [put] of a key that is there leaves [size()] as it is. *)
Theorem X8_put_grows_size_for_new_keys_only now s k v :
  wellFormed s = true → sizedTable s = true →
  storableKey k = true → indexable (storedValue v) →
  ∃ s' n, rbtSize s = (Ret n, s)
          ∧ put now k v s = (Ret tt, s')
          ∧ rbtSize s'
            = (Ret (match lookupE k (routedEntries s k) with
                    | Some _ => n
                    | None => n + 1
                    end), s').
Proof.
  intros Hwf Hsz Hk [_ Hown].
  destruct (put_sized now s k v Hwf Hsz Hk Hown) as (s' & Hrun & Hwf' & Hsz').
  destruct (put_spec now s k v Hwf Hk Hown) as (s1 & Hrun1 & _ & Hent & _).
  assert (s1 = s') as -> by congruence.
  exists s'. eexists. split; [by apply rbtSize_count|]. split; [done|].
  rewrite (rbtSize_count s' Hwf' Hsz'). do 2 f_equal.
  destruct (wellFormed_unpack s Hwf)
    as (tn & ts & En & Es & _ & _ & _ & _ & _ & Hbn & Hbs).
  destruct k as [| | |z|str|]; try done.
  - pose proof (Hent (JNum 0)) as Hn. pose proof (Hent (JStr "a")) as Hs.
    unfold routedEntries in *. cbn [typeof] in *.
    rewrite bool_decide_true in Hn by done.
    rewrite bool_decide_false in Hs by done.
    rewrite !length_app, Hn, Hs, En, insE_length; cbn [entriesOf].
    + destruct (lookupE (JNum z) (elems tn)); lia.
    + by destruct Hbn.
  - pose proof (Hent (JNum 0)) as Hn. pose proof (Hent (JStr "a")) as Hs.
    unfold routedEntries in *. cbn [typeof] in *.
    rewrite bool_decide_false in Hn by done.
    rewrite bool_decide_true in Hs by done.
    rewrite !length_app, Hn, Hs, Es, insE_length; cbn [entriesOf].
    + destruct (lookupE (JStr str) (elems ts)); lia.
    + by destruct Hbs.
Qed.

Lemma X8_put_grows_size_for_new_keys_only_witness :
  ∃ s' n, rbtSize sampleTable = (Ret n, sampleTable)
          ∧ put 0 (JNum 9) (JNum 30) sampleTable = (Ret tt, s')
          ∧ rbtSize s'
            = (Ret (match lookupE (JNum 9) (routedEntries sampleTable (JNum 9)) with
                    | Some _ => n
                    | None => n + 1
                    end), s').
Proof.
  apply (X8_put_grows_size_for_new_keys_only 0 sampleTable (JNum 9) (JNum 30));
    by_eval.
Defined.

(** ** [find] with a key and a value *)

Lemma findIter_rep_value ty sn t : ∀ fuel s,
  ty = TNumber ∨ ty = TString → typeof (key sn) = ty → keysTyped ty t →
  isNullish (value sn) = false →
  rep (store s) t → (height t < fuel)%nat →
  findIter fuel (ptr t) sn s
  = (Ret (foundRecord (invertedIndex s) (value sn) (findT t (key sn))), s).
Proof.
  induction t as [|a l IHl k v c sz r IHr];
    intros fuel s Hty Hsn Hkeys Hnull Hrep Hfuel;
    (destruct fuel as [|fuel]; [simpl in Hfuel; lia|]).
  - done.
  - apply keysTyped_node in Hkeys as (Hkl & Hk & Hkr).
    pose proof Hrep as (Ha & Hl & Hr). simpl in Hfuel.
    cbn [findIter findT ptr]. msteps.
    rewrite (bind_lift _ _ _ _ (compareTo_typed _ _ _ Hty Hsn Hk)).
    case_bool_decide; [|case_bool_decide].
    + msteps. apply IHl; auto. lia.
    + msteps. apply IHr; auto. lia.
    + rewrite Hnull. msteps. cbn [foundRecord].
      destruct (strictEq v (value sn)); cbn [negb]; [|done].
      msteps. unfold getIndexSlot. unfold bind at 1. by msteps.
Qed.

Lemma truthy_not_nullish v : truthy v = true → isNullish v = false.
Proof. by destruct v. Qed.

Lemma find_key_value_spec s k v :
  wellFormed s = true → searchableKey k = true → truthy v = true →
  find k v s
  = (Ret (foundRecord (invertedIndex s) v (lookupE k (routedEntries s k))), s).
Proof.
  intros Hwf Hk Hv.
  destruct (wellFormed_unpack s Hwf)
    as (tn & ts & En & Es & Hn & Hpn & Hs & Hps & Hnd & Hbn & Hbs).
  pose proof (searchableKey_keyOk k Hk) as Hok.
  pose proof Hnd as (Hndn & _ & Hnds)%NoDup_app.
  unfold find. rewrite (searchableKey_truthy k Hk), Hv.
  cbn [andb]. unfold newRedBlackNode. cbn [orDefault].
  erewrite bind_lift by reflexivity. rewrite bind_ret. this_step.
  unfold routedEntries. rewrite En, Es. cbn [entriesOf].
  destruct k as [| | |z|str|]; try done.
  - rewrite bool_decide_true by done. this_step. rewrite <- Hpn.
    erewrite (findIter_rep_value TNumber);
      eauto using keysTyped_bst, rep_fuel, truthy_not_nullish.
    cbn [key value setKey setValue]. by rewrite (findT_lookupE TNumber).
  - rewrite bool_decide_false by done. rewrite bool_decide_true by done.
    this_step. rewrite <- Hps.
    erewrite (findIter_rep_value TString);
      eauto using keysTyped_bst, rep_fuel, truthy_not_nullish.
    cbn [key value setKey setValue]. by rewrite (findT_lookupE TString).
Qed.

(** X9.  On a well-formed table, [find({ key: k, value: v })] for a
    truthy number or string key [k] and a truthy [v] (a safe integer, if
    it is a number) looks up the entry
    that compares equal to [k]: if there is one and its value is
    identical ([===]) to [v], the result is the record of the key as it
    is stored (which for strings may be another string than [k]) and the
    array of all keys the index lists for that value; if the value
    differs or no entry compares equal, the result is [null]. *)
Theorem X9_find_key_and_value s k v :
  wellFormed s = true → searchableKey k = true →
  truthy v = true → safeInteger v = true →
  find k v s
  = (Ret (match lookupE k (routedEntries s k) with
          | Some (k0, v0) =>
              if bool_decide (v0 = v)
              then FRecord k0 (slotArray (indexSlot (invertedIndex s) v0))
              else FValue JNull
          | None => FValue JNull
          end), s).
Proof.
  intros Hwf Hk Hv _. by rewrite find_key_value_spec.
Qed.

Lemma X9_find_key_and_value_witness :
  find (JNum 3) (JNum 30) sampleTable
  = (Ret (FRecord (JNum 3) (Some [JNum 3])), sampleTable)
  ∧ find (JNum 3) (JNum 31) sampleTable = (Ret (FValue JNull), sampleTable).
Proof.
  split.
  - rewrite (X9_find_key_and_value sampleTable (JNum 3) (JNum 30)); by_eval.
  - rewrite (X9_find_key_and_value sampleTable (JNum 3) (JNum 31)); by_eval.
Defined.

(** ** [remove]: when it returns [true] *)

(** *** Taking a run apart *)

Lemma bind_inv {A B} (m : M A) (k : A → M B) s b s' :
  bind m k s = (Ret b, s') →
  ∃ a s1, m s = (Ret a, s1) ∧ k a s1 = (Ret b, s').
Proof. unfold bind. destruct (m s) as [[a| | |] s1]; try done. eauto. Qed.

Lemma ret_inv {A} (a b : A) s s' : ret a s = (Ret b, s') → a = b ∧ s' = s.
Proof. by intros [= -> ->]. Qed.

Lemma lift_inv {A} (o : outcome A) a s s' :
  lift o s = (Ret a, s') → o = Ret a ∧ s' = s.
Proof. by intros [= -> ->]. Qed.

Lemma getf_inv {A} (f : RedBlackNode → A) p x s s' :
  getf f p s = (Ret x, s') →
  s' = s ∧ ∃ a n, p = Some a ∧ store s !! a = Some n ∧ x = f n.
Proof.
  unfold getf, bind, deref, ret. destruct p as [a|]; [|done].
  destruct (store s !! a) as [n|] eqn:E; [|done]. intros [= <- <-]. eauto 6.
Qed.

Lemma setf_inv upd p s s' :
  setf upd p s = (Ret tt, s') →
  ∃ a n, p = Some a ∧ store s !! a = Some n
         ∧ s' = withStore s (<[a := upd n]> (store s)).
Proof.
  unfold setf. destruct p as [a|]; [|done].
  destruct (store s !! a) as [n|] eqn:E; [|done]. intros [= <-]. eauto 6.
Qed.

(** *** Computations that only read *)

Lemma readOnly_ret {A} (a : A) : readOnly (ret a).
Proof. by intros s o s' [= _ ->]. Qed.

Lemma readOnly_throw {A} e : readOnly (@throw A e).
Proof. by intros s o s' [= _ ->]. Qed.

Lemma readOnly_outOfFuel {A} : readOnly (@outOfFuel A).
Proof. by intros s o s' [= _ ->]. Qed.

Lemma readOnly_lift {A} (o : outcome A) : readOnly (lift o).
Proof. by intros s o' s' [= _ ->]. Qed.

Lemma readOnly_bind {A B} (m : M A) (k : A → M B) :
  readOnly m → (∀ a, readOnly (k a)) → readOnly (bind m k).
Proof.
  intros Hm Hk s o s'. unfold bind.
  destruct (m s) as [[a| | |] s1] eqn:E; pose proof (Hm _ _ _ E) as ->.
  - apply Hk.
  - by intros [= _ ->].
  - by intros [= _ ->].
  - by intros [= _ ->].
Qed.

Lemma readOnly_deref p : readOnly (deref p).
Proof.
  intros s o s'. unfold deref. destruct p as [a|]; [|by intros [= _ ->]].
  destruct (store s !! a); by intros [= _ ->].
Qed.

Lemma readOnly_getf {A} (f : RedBlackNode → A) p : readOnly (getf f p).
Proof.
  apply readOnly_bind; [apply readOnly_deref|]. intros n. apply readOnly_ret.
Qed.

Lemma readOnly_getNumberRoot : readOnly getNumberRoot.
Proof. by intros s o s' [= _ ->]. Qed.

Lemma readOnly_getStringRoot : readOnly getStringRoot.
Proof. by intros s o s' [= _ ->]. Qed.

Lemma readOnly_getFuel : readOnly getFuel.
Proof. by intros s o s' [= _ ->]. Qed.

Lemma readOnly_getIndexSlot v : readOnly (getIndexSlot v).
Proof. by intros s o s' [= _ ->]. Qed.

Ltac solve_ro :=
  repeat first
    [ apply readOnly_ret | apply readOnly_throw | apply readOnly_outOfFuel
    | apply readOnly_lift | apply readOnly_getf | apply readOnly_deref
    | apply readOnly_getNumberRoot | apply readOnly_getStringRoot
    | apply readOnly_getFuel | apply readOnly_getIndexSlot
    | assumption
    | apply readOnly_bind; [|intros ?]
    | match goal with
      | |- readOnly (if ?c then _ else _) => destruct c
      | |- readOnly (match ?x with _ => _ end) => destruct x
      end ].

Lemma readOnly_isRed p : readOnly (isRed p).
Proof. unfold isRed. solve_ro. Qed.

Lemma readOnly_sizeAt p : readOnly (sizeAt p).
Proof. unfold sizeAt. solve_ro. Qed.

Lemma readOnly_andM a b : readOnly a → readOnly b → readOnly (andM a b).
Proof. intros Ha Hb. unfold andM. solve_ro. Qed.

Lemma readOnly_notM a : readOnly a → readOnly (notM a).
Proof. intros Ha. unfold notM. solve_ro. Qed.

Lemma readOnly_isEmpty : readOnly isEmpty.
Proof. unfold isEmpty. solve_ro. Qed.

Lemma readOnly_minAt fuel : ∀ p, readOnly (minAt fuel p).
Proof. induction fuel as [|fuel IH]; intros p; simpl; solve_ro. apply IH. Qed.

Lemma readOnly_findIter fuel sn : ∀ p, readOnly (findIter fuel p sn).
Proof.
  induction fuel as [|fuel IH]; intros p; simpl; solve_ro; apply IH.
Qed.

Lemma readOnly_find k v : readOnly (find k v).
Proof.
  unfold find. solve_ro; apply readOnly_findIter.
Qed.

Lemma readOnly_constains k : readOnly (constains k).
Proof. unfold constains. solve_ro; apply readOnly_findIter. Qed.

Ltac solve_ro' :=
  repeat first
    [ apply readOnly_isRed | apply readOnly_sizeAt | apply readOnly_isEmpty
    | apply readOnly_andM | apply readOnly_notM | apply readOnly_minAt
    | apply readOnly_find | apply readOnly_constains
    | progress solve_ro ].

(** *** Computations that only touch node objects *)

Lemma readOnly_storeOnly {A} (m : M A) : readOnly m → storeOnly m.
Proof. intros Hm s o s' E. by rewrite (Hm _ _ _ E). Qed.

Lemma storeOnly_bind {A B} (m : M A) (k : A → M B) :
  storeOnly m → (∀ a, storeOnly (k a)) → storeOnly (bind m k).
Proof.
  intros Hm Hk s o s'. unfold bind.
  destruct (m s) as [[a| | |] s1] eqn:E; pose proof (Hm _ _ _ E) as (? & ? & ?).
  - intros E2. destruct (Hk _ _ _ _ E2) as (? & ? & ?).
    split_and!; congruence.
  - by intros [= _ <-].
  - by intros [= _ <-].
  - by intros [= _ <-].
Qed.

Lemma storeOnly_setf upd p : storeOnly (setf upd p).
Proof.
  intros s o s'. unfold setf. destruct p as [a|]; [|by intros [= _ <-]].
  destruct (store s !! a); by intros [= _ <-].
Qed.

Ltac solve_so :=
  repeat first
    [ apply storeOnly_setf
    | assumption
    | apply storeOnly_bind; [|intros ?]
    | match goal with
      | |- storeOnly (if ?c then _ else _) => destruct c
      end
    | apply readOnly_storeOnly; solve [solve_ro'] ].

Lemma storeOnly_rotateLeft p : storeOnly (rotateLeft p).
Proof. unfold rotateLeft. solve_so. Qed.

Lemma storeOnly_rotateRight p : storeOnly (rotateRight p).
Proof. unfold rotateRight. solve_so. Qed.

Lemma storeOnly_flipColors p : storeOnly (flipColors p).
Proof. unfold flipColors. solve_so. Qed.

Lemma storeOnly_moveRedLeft p : storeOnly (moveRedLeft p).
Proof.
  unfold moveRedLeft.
  repeat first [ apply storeOnly_flipColors | apply storeOnly_rotateLeft
               | apply storeOnly_rotateRight | progress solve_so ].
Qed.

Lemma storeOnly_moveRedRight p : storeOnly (moveRedRight p).
Proof.
  unfold moveRedRight.
  repeat first [ apply storeOnly_flipColors | apply storeOnly_rotateLeft
               | apply storeOnly_rotateRight | progress solve_so ].
Qed.

Lemma storeOnly_balance p : storeOnly (balance p).
Proof.
  unfold balance.
  repeat first [ apply storeOnly_flipColors | apply storeOnly_rotateLeft
               | apply storeOnly_rotateRight | progress solve_so ].
Qed.

(** *** What a rotation to the right leaves at the new root *)

Lemma rightAt_setf upd p s s' x :
  setf upd p s = (Ret tt, s') → (∀ n, right (upd n) = right n) →
  rightAt s' x = rightAt s x.
Proof.
  intros (a & n & -> & Ha & ->)%setf_inv Hupd. destruct x as [b|]; [|done].
  simpl. destruct (decide (a = b)) as [->|Hne].
  - rewrite list_lookup_insert_eq by (by eapply lookup_lt_Some).
    rewrite Ha. simpl. by rewrite Hupd.
  - by rewrite list_lookup_insert_ne.
Qed.

Lemma rightAt_setRight h x s s' :
  setf (setRight h) x s = (Ret tt, s') → rightAt s' x = Some h.
Proof.
  intros (a & n & -> & Ha & ->)%setf_inv. simpl.
  by rewrite list_lookup_insert_eq by (by eapply lookup_lt_Some).
Qed.

(** One step of a run: a computation that only reads. *)
Ltac inv_ro H :=
  let E := fresh "E" in
  apply bind_inv in H as (? & ? & E & H);
  match type of E with
  | ?m ?s = (_, ?s1) =>
      let Hs := fresh in
      assert (s1 = s) as Hs
        by (refine ((_ : readOnly m) _ _ _ E); solve_ro');
      subst s1
  end.

(** One step of a run: an assignment that does not touch [right]. *)
Ltac inv_setf H Hr :=
  let E := fresh "E" in
  apply bind_inv in H as ([] & ? & E & H);
  (apply (rightAt_setf _ _ _ _ _) in E; [|done]);
  rewrite <- E in Hr; clear E.

Lemma rotateRight_rightAt node s x s' :
  rotateRight node s = (Ret x, s') → rightAt s' x = Some node ∧ node ≠ None.
Proof.
  unfold rotateRight. intros H.
  apply bind_inv in H as (x0 & s1 & Es & H).
  apply getf_inv in Es as (-> & a & n & -> & Ha & ->).
  inv_ro H.
  apply bind_inv in H as ([] & s2 & _ & H).
  apply bind_inv in H as ([] & s3 & Es & H).
  apply rightAt_setRight in Es. rename Es into Hr.
  inv_ro H. inv_ro H.
  apply bind_inv in H as ([] & s4 & Es & H).
  apply (rightAt_setf _ _ _ _ (left n)) in Es; [|done]. rewrite <- Es in Hr.
  clear Es.
  inv_ro H.
  apply bind_inv in H as ([] & s5 & Es & H).
  apply (rightAt_setf _ _ _ _ (left n)) in Es; [|done]. rewrite <- Es in Hr.
  clear Es.
  inv_ro H.
  apply bind_inv in H as ([] & s6 & Es & H).
  apply (rightAt_setf _ _ _ _ (left n)) in Es; [|done]. rewrite <- Es in Hr.
  clear Es.
  inv_ro H. inv_ro H.
  apply bind_inv in H as ([] & s7 & Es & H).
  apply (rightAt_setf _ _ _ _ (left n)) in Es; [|done]. rewrite <- Es in Hr.
  clear Es.
  apply ret_inv in H as [<- ->]. done.
Qed.

(** *** [removeRecv] *)

Lemma indexDelete_undefined k s o s' :
  indexSlot (invertedIndex s) JUndefined = SlotUndefined →
  indexDelete JUndefined k s = (o, s') → o = Throw TypeError.
Proof. unfold indexDelete. intros ->. by intros [= <- _]. Qed.

Ltac ro_state E :=
  match type of E with
  | ?m ?s = (_, ?s1) =>
      let Hs := fresh in
      assert (s1 = s) as Hs
        by (refine ((_ : readOnly m) _ _ _ E); solve_ro');
      subst s1
  end.

(** While the index has no key set named "undefined", the only way for
    [removeRecv] to return is the early [return null]: at a node whose
    left link is not red, whose key compares equal and which has no right
    child; nothing has been changed by then. *)
Lemma removeRecv_ret fuel : ∀ node rm s r s',
  indexSlot (invertedIndex s) JUndefined = SlotUndefined →
  removeRecv fuel node rm s = (Ret r, s') →
  r = None ∧ s' = s
  ∧ ∃ a n, node = Some a ∧ store s !! a = Some n ∧ right n = None
           ∧ compareTo (key rm) (key n) = Ret 0.
Proof.
  induction fuel as [|fuel IH]; intros node rm s r s' Hidx H; [done|].
  cbn [removeRecv] in H.
  apply bind_inv in H as (nk & s1 & E1 & H).
  apply getf_inv in E1 as (-> & a & n & -> & Ha & ->).
  apply bind_inv in H as (cmp & s1 & E2 & H).
  apply lift_inv in E2 as (Hcmp & ->).
  apply bind_inv in H as (go & s3 & Hgo & H).
  assert (∀ h, go = inr h → invertedIndex s3 = invertedIndex s → False)
    as Htail.
  { intros h -> Hi. apply bind_inv in H as (k & s4 & E & H).
    apply getf_inv in E as (-> & _).
    apply bind_inv in H as ([] & s5 & E & H).
    apply indexDelete_undefined in E; [done|by rewrite Hi]. }
  case_bool_decide as Hlt.
  - (* to the left: the way back goes through the index *)
    exfalso.
    apply bind_inv in Hgo as (c & sa & E & Hgo). ro_state E. clear E.
    apply bind_inv in Hgo as (h & sb & E & Hgo).
    assert (invertedIndex sb = invertedIndex s) as Hib.
    { destruct c.
      - by apply storeOnly_moveRedLeft in E as (_ & _ & ?).
      - by apply ret_inv in E as [_ ->]. }
    clear E.
    apply bind_inv in Hgo as (l & sc & E & Hgo).
    apply getf_inv in E as (-> & _).
    apply bind_inv in Hgo as (l' & sd & E & Hgo).
    apply IH in E as (_ & -> & _); [|by rewrite Hib].
    apply bind_inv in Hgo as ([] & se & E & Hgo).
    apply storeOnly_setf in E as (_ & _ & Hie).
    apply ret_inv in Hgo as [<- ->].
    eapply Htail; [done|]. congruence.
  - apply bind_inv in Hgo as (c & sa & E & Hgo). ro_state E. clear E.
    apply bind_inv in Hgo as (h1 & sb & Erot & Hgo).
    assert (invertedIndex sb = invertedIndex s) as Hib.
    { destruct c.
      - by apply storeOnly_rotateRight in Erot as (_ & _ & ?).
      - by apply ret_inv in Erot as [_ ->]. }
    apply bind_inv in Hgo as (c2 & sc & Ec2 & Hgo). ro_state Ec2.
    destruct c2.
    + (* the early return *)
      apply ret_inv in Hgo as [<- ->]. apply ret_inv in H as [<- ->].
      unfold andM in Ec2.
      apply bind_inv in Ec2 as (x & sx & EA & EB). ro_state EA.
      destruct x; [|by apply ret_inv in EB as [? _]].
      apply bind_inv in EB as (rr & sy & EB1 & EB2).
      apply ret_inv in EB2 as [Hnone _]. apply bool_decide_eq_true in Hnone.
      subst rr.
      destruct c.
      * (* after a rotation the new root has a right child *)
        apply rotateRight_rightAt in Erot as [Hr _].
        apply getf_inv in EB1 as (_ & b & nb & -> & Hb & Hnone).
        simpl in Hr. rewrite Hb in Hr. simpl in Hr. congruence.
      * apply ret_inv in Erot as [<- ->].
        apply getf_inv in EB1 as (_ & b & nb & [= <-] & Hb & Hnone).
        assert (nb = n) as -> by congruence.
        apply bind_inv in EA as (hk & sx & EA1 & EA).
        apply getf_inv in EA1 as (-> & b & nb & [= <-] & Hb' & ->).
        assert (nb = n) as -> by congruence.
        apply bind_inv in EA as (cmp2 & sx & EA1 & EA).
        apply lift_inv in EA1 as (Hcmp2 & ->).
        apply ret_inv in EA as [Hz _]. apply bool_decide_eq_true in Hz.
        subst cmp2. split; [done|]. split; [done|].
        exists a, n. by split_and!.
    + (* no early return: an exception, or the way back through the index *)
      exfalso.
      apply bind_inv in Hgo as (c3 & sd & E & Hgo). ro_state E. clear E.
      destruct c3.
      * cbn [hkey] in Hgo.
        apply bind_inv in Hgo as (hk & sx & E & Hgo).
        apply bind_inv in Hgo as (cmp2 & sy & E' & Hgo). done.
      * cbn [hkey] in Hgo.
        apply bind_inv in Hgo as (hk & sx & E & Hgo). ro_state E. clear E.
        apply bind_inv in Hgo as (cmp2 & sy & E & Hgo). ro_state E. clear E.
        case_bool_decide as Hz.
        -- repeat (apply bind_inv in Hgo as (? & ? & _ & Hgo)). done.
        -- apply bind_inv in Hgo as (rr & sx & E & Hgo). ro_state E. clear E.
           apply bind_inv in Hgo as (r' & sd & E & Hgo).
           apply IH in E as (_ & -> & _); [|by rewrite Hib].
           apply bind_inv in Hgo as ([] & se & E & Hgo).
           apply storeOnly_setf in E as (_ & _ & Hie).
           apply ret_inv in Hgo as [<- ->].
           eapply Htail; [done|]. congruence.
Qed.

(** *** [removeNumber], [removeString] and [remove] *)

Lemma recolor_root_inv (getRoot : M (option addr)) (proj : rbt → option addr)
    (c : bool) s sa :
  (∀ s, getRoot s = (Ret (proj s), s)) →
  (if c then (r <- getRoot ;; setf (setColor RED) r) else ret tt) s
  = (Ret tt, sa) →
  sa = s
  ∨ ∃ a0 n0, proj s = Some a0 ∧ store s !! a0 = Some n0
             ∧ sa = withStore s (<[a0 := setColor RED n0]> (store s)).
Proof.
  intros Hget H. destruct c.
  - right. rewrite (bind_eq _ _ _ _ _ (Hget s)) in H.
    apply setf_inv in H as (a0 & n0 & ? & ? & ?). eauto.
  - left. by apply ret_inv in H as [_ ->].
Qed.

Lemma undefined_slot idx :
  idx !! "undefined" = None → indexSlot idx JUndefined = SlotUndefined.
Proof. unfold indexSlot. cbn [toPropertyKey]. by intros ->. Qed.

Lemma compareTo_number_zero z k : compareTo (JNum z) k = Ret 0 → k = JNum z.
Proof.
  destruct k as [| | |b| |]; try done. simpl.
  repeat case_bool_decide; try done. intros _. f_equal. lia.
Qed.

(** X11.  While the index has no key set named "undefined" (no value
    with that property name was ever put), [remove] of a number key
    returns [true] in one situation only: the key sits at the root of the
    number tree, that root has no right child, and the table has no
    string keys.  The number root is then [null] and the index is as it
    was: the key stays listed under its value.  In every other situation
    [remove] returns [false] or throws. *)
Theorem X11_remove_number_returns_true_only_at_bare_root s s' z :
  invertedIndex s !! "undefined" = None →
  remove (JNum z) s = (Ret true, s') →
  ∃ a n, numberRoot s = Some a ∧ store s !! a = Some n
         ∧ key n = JNum z ∧ right n = None
         ∧ stringRoot s = None
         ∧ numberRoot s' = None ∧ stringRoot s' = None
         ∧ invertedIndex s' = invertedIndex s.
Proof.
  intros Hidx%undefined_slot H. unfold remove in H. cbn [isNullish] in H.
  apply bind_inv in H as (c & s1 & E & H).
  pose proof (readOnly_constains _ _ _ _ E) as ->. clear E.
  destruct c; [|by apply ret_inv in H as [? _]]. cbn [negb] in H.
  rewrite bool_decide_true in H by done. unfold removeNumber in H.
  apply bind_inv in H as (c & sa & E & H). ro_state E. clear E.
  apply bind_inv in H as ([] & sa & E & H).
  apply (recolor_root_inv getNumberRoot numberRoot) in E; [|done].
  apply bind_inv in H as (rm & sb & E2 & H).
  apply lift_inv in E2 as ([= <-] & ->).
  apply bind_inv in H as (fuel & sb & E2 & H). ro_state E2. clear E2.
  apply bind_inv in H as (r & sb & E2 & H). apply ret_inv in E2 as [<- ->].
  apply bind_inv in H as (r' & sb & E2 & H).
  assert (indexSlot (invertedIndex sa) JUndefined = SlotUndefined) as Hidxa.
  { destruct E as [->|(a0 & n0 & _ & _ & ->)]; done. }
  apply removeRecv_ret in E2 as (-> & -> & a & n' & Hroot & Ha & Hright & Hcmp);
    [|done].
  cbn [key] in Hcmp. apply compareTo_number_zero in Hcmp.
  apply bind_inv in H as ([] & sb & E2 & H).
  apply ret_inv in E2 as [_ ->].
  apply bind_inv in H as (e & sb & E2 & H). ro_state E2.
  unfold isEmpty in E2. cbn in E2. apply ret_inv in E2 as [<- _].
  case_bool_decide as Hsr; cbn [negb] in H; [|done].
  apply bind_inv in H as ([] & sb & E3 & H). apply ret_inv in E3 as [_ ->].
  apply ret_inv in H as [_ ->].
  cbn [numberRoot stringRoot invertedIndex].
  destruct E as [->|(a0 & n0 & Hr0 & Ha0 & ->)].
  - exists a, n'. by split_and!.
  - cbn [numberRoot stringRoot invertedIndex store withStore] in *.
    assert (a0 = a) as -> by congruence.
    rewrite list_lookup_insert_eq in Ha by (by eapply lookup_lt_Some).
    injection Ha as <-. exists a, n0. by split_and!.
Qed.

Lemma X11_remove_number_returns_true_only_at_bare_root_witness :
  ∃ a n, numberRoot oneNumberTable = Some a
         ∧ store oneNumberTable !! a = Some n
         ∧ key n = JNum 7 ∧ right n = None
         ∧ stringRoot oneNumberTable = None
         ∧ numberRoot (remove (JNum 7) oneNumberTable).2 = None
         ∧ stringRoot (remove (JNum 7) oneNumberTable).2 = None
         ∧ invertedIndex (remove (JNum 7) oneNumberTable).2
           = invertedIndex oneNumberTable.
Proof.
  apply (X11_remove_number_returns_true_only_at_bare_root
           oneNumberTable (remove (JNum 7) oneNumberTable).2 7);
    vm_compute; reflexivity.
Defined.

(** X12.  While the index has no key set named "undefined", a [remove]
    of a string key that returns [true] has not taken the key out of the
    table.  It returns [true] only when the root of the string tree
    compares equal to the key and has no right child, and then what it
    has done is to set the number root to [null], dropping every number
    key: the string root and its node stay (the root is coloured black),
    and the index is as it was.  (Calls that throw are not spoken of.) *)
Theorem X12_remove_string_drops_the_numbers_instead s s' str :
  invertedIndex s !! "undefined" = None →
  remove (JStr str) s = (Ret true, s') →
  ∃ a n, stringRoot s = Some a ∧ store s !! a = Some n
         ∧ compareTo (JStr str) (key n) = Ret 0 ∧ right n = None
         ∧ numberRoot s' = None ∧ stringRoot s' = Some a
         ∧ store s' = <[a := setColor BLACK n]> (store s)
         ∧ invertedIndex s' = invertedIndex s.
Proof.
  intros Hidx%undefined_slot H. unfold remove in H. cbn [isNullish] in H.
  apply bind_inv in H as (c & s1 & E & H).
  pose proof (readOnly_constains _ _ _ _ E) as ->. clear E.
  destruct c; [|by apply ret_inv in H as [? _]]. cbn [negb] in H.
  rewrite bool_decide_false in H by done.
  rewrite bool_decide_true in H by done. unfold removeString in H.
  apply bind_inv in H as (c & sa & E & H). ro_state E. clear E.
  apply bind_inv in H as ([] & sa & E & H).
  apply (recolor_root_inv getStringRoot stringRoot) in E; [|done].
  apply bind_inv in H as (rm & sb & E2 & H).
  apply lift_inv in E2 as (Hrm & ->).
  assert (key rm = JStr str) as Hkey.
  { unfold newRedBlackNode in Hrm. case_bool_decide; [done|].
    by injection Hrm as <-. }
  clear Hrm.
  apply bind_inv in H as (fuel & sb & E2 & H). ro_state E2. clear E2.
  apply bind_inv in H as (r & sb & E2 & H). apply ret_inv in E2 as [<- ->].
  apply bind_inv in H as (r' & sb & E2 & H).
  assert (indexSlot (invertedIndex sa) JUndefined = SlotUndefined) as Hidxa.
  { destruct E as [->|(a0 & n0 & _ & _ & ->)]; done. }
  apply removeRecv_ret in E2 as (-> & -> & a & n' & Hroot & Ha & Hright & Hcmp);
    [|done].
  rewrite Hkey in Hcmp.
  apply bind_inv in H as ([] & sb & E2 & H).
  apply ret_inv in E2 as [_ ->].
  apply bind_inv in H as (e & sb & E2 & H). ro_state E2.
  unfold isEmpty in E2. cbn in E2. apply ret_inv in E2 as [<- _].
  rewrite Hroot in H. rewrite bool_decide_false in H by done.
  cbn [negb] in H.
  apply bind_inv in H as ([] & sb & E3 & H). apply ret_inv in H as [_ ->].
  rewrite bind_getStringRoot in E3.
  cbn [stringRoot] in E3.
  apply setf_inv in E3 as (a1 & n1 & [= <-] & Ha1 & ->).
  cbn [store] in Ha1. assert (n1 = n') as -> by congruence.
  cbn [numberRoot stringRoot invertedIndex store withStore].
  destruct E as [->|(a0 & n0 & Hr0 & Ha0 & ->)].
  - exists a, n'. by split_and!.
  - cbn [numberRoot stringRoot invertedIndex store withStore] in *.
    assert (a0 = a) as -> by congruence.
    rewrite list_lookup_insert_eq in Ha by (by eapply lookup_lt_Some).
    injection Ha as <-. exists a, n0. split_and!; try done.
    by rewrite list_insert_insert_eq.
Qed.

Lemma X12_remove_string_drops_the_numbers_instead_witness :
  ∃ a n, stringRoot mixedTable = Some a ∧ store mixedTable !! a = Some n
         ∧ compareTo (JStr "a") (key n) = Ret 0 ∧ right n = None
         ∧ numberRoot (remove (JStr "a") mixedTable).2 = None
         ∧ stringRoot (remove (JStr "a") mixedTable).2 = Some a
         ∧ store (remove (JStr "a") mixedTable).2
           = <[a := setColor BLACK n]> (store mixedTable)
         ∧ invertedIndex (remove (JStr "a") mixedTable).2
           = invertedIndex mixedTable.
Proof.
  apply (X12_remove_string_drops_the_numbers_instead
           mixedTable (remove (JStr "a") mixedTable).2 "a");
    vm_compute; reflexivity.
Defined.

(** *** The one case where [remove] gets through *)

Ltac run :=
  repeat first
    [ progress this_step | progress msteps
    | progress cbn [isRed sizeAt negb andb] ].

Lemma compareTo_number_refl z : compareTo (JNum z) (JNum z) = Ret 0.
Proof. simpl. by rewrite !bool_decide_false by lia. Qed.

Lemma reify_null fuel h : reify (S fuel) h None = Some Leaf.
Proof. done. Qed.

(** X10.  On a well-formed table without number keys, [put(z, v)] of a
    number [z] other than 0 with a truthy value followed by [remove(z)]
    takes the key out again: the number root is [null] afterwards and
    [find({ key: z })] returns [null].  [remove] returns [true] if the
    table has no string keys; if it has, [remove] throws a [TypeError]
    after the key is gone (it colours the number root, which is [null]
    by then).  Either way the index keeps the key:
    [find({ value: v })] still lists [z]. *)
Theorem X10_remove_of_the_only_number_key now s z v :
  wellFormed s = true → numberRoot s = None →
  z ≠ 0 → truthy v = true → indexable v →
  ∃ s1 s2 ks,
    put now (JNum z) v s = (Ret tt, s1)
    ∧ remove (JNum z) s1
      = (if bool_decide (stringRoot s = None) then Ret true
         else Throw TypeError, s2)
    ∧ numberRoot s2 = None ∧ stringRoot s2 = stringRoot s
    ∧ find (JNum z) JUndefined s2 = (Ret (FValue JNull), s2)
    ∧ find JUndefined v s2 = (Ret (FArray ks), s2) ∧ JNum z ∈ ks.
Proof.
  intros Hwf Hnr Hz Hv Hix.
  assert (storedValue v = v) as Hsv by by destruct v.
  destruct (wellFormed_unpack s Hwf)
    as (tn & ts & En & Es & Hn & Hpn & Hs & Hps & _).
  assert (tn = Leaf) as ->.
  { unfold numberTree in En. rewrite Hnr in En. simpl in En. congruence. }
  destruct (put_number_trees now s z v Leaf ts Hwf En Es)
    as (s1 & Hput & Hwf1 & En1 & Es1 & Hidx1).
  { rewrite Hsv. apply Hix. }
  unfold putTree in En1. cbn [putRecvT setColorT key value color size] in En1.
  rewrite Hsv in En1, Hidx1.
  destruct (wellFormed_unpack s1 Hwf1)
    as (tn1 & ts1 & En1' & Es1' & Hn1 & Hpn1 & Hs1 & Hps1 & _).
  rewrite En1 in En1'. injection En1' as <-.
  rewrite Es1 in Es1'. injection Es1' as <-.
  destruct Hn1 as (Ha & _ & _). cbn [ptr] in Ha, Hpn1.
  assert (searchableKey (JNum z) = true) as Hsk.
  { cbn. by apply negb_true_iff, Z.eqb_neq. }
  pose proof (constains_spec s1 (JNum z) Hwf1 Hsk) as Hc.
  unfold routedEntries, valueAt in Hc. cbn [typeof] in Hc.
  rewrite En1 in Hc. cbn [entriesOf elems app lookupE] in Hc.
  rewrite bool_decide_true in Hc by done. rewrite Hv in Hc.
  set (a := length (store s)) in *.
  destruct s1 as [h1 nr1 sr1 idx1]. cbn [store numberRoot stringRoot
    invertedIndex] in *. subst nr1 idx1.
  assert (sr1 = stringRoot s) as -> by congruence.
  set (n := mkNode None None (JNum z) v BLACK 1) in *.
  set (h2 := <[a := setColor RED n]> h1).
  exists (mkRbt h1 (Some a) (stringRoot s) (indexAddT (invertedIndex s) v (JNum z))),
         (mkRbt h2 None (stringRoot s) (indexAddT (invertedIndex s) v (JNum z))),
         (indexKeys (mkRbt h2 None (stringRoot s)
                       (indexAddT (invertedIndex s) v (JNum z))) v).
  split; [done|]. split_and!.
  - unfold remove. cbn [isNullish]. rewrite (bind_eq _ _ _ _ _ Hc).
    cbn [negb]. rewrite bool_decide_true by done.
    unfold removeNumber, andM, notM. subst n. run.
    unfold newRedBlackNode. cbn [orDefault]. erewrite bind_lift by reflexivity.
    run. cbn [removeRecv]. run.
    unfold andM, notM. cbn [key].
    rewrite (bind_lift _ _ _ _ (compareTo_number_refl z)).
    rewrite bool_decide_false by lia. run.
    rewrite (bind_lift _ _ _ _ (compareTo_number_refl z)). run.
    rewrite !bool_decide_true by done. run.
    unfold isEmpty. run.
    destruct (stringRoot s) as [b|];
      rewrite ?bool_decide_true, ?bool_decide_false by done;
      cbn [andb negb]; run; done.
  - done.
  - done.
  - unfold find, newRedBlackNode. cbn [orDefault truthy].
    erewrite bind_lift by reflexivity.
    assert ((z =? 0) = false) as -> by by apply Z.eqb_neq.
    cbn [negb andb]. this_step. done.
  - apply find_value_spec; done.
  - unfold indexKeys. cbn [invertedIndex].
    rewrite indexAddT_lookup, bool_decide_true by done.
    apply setAdd_elem. by right.
Qed.

Lemma X10_remove_of_the_only_number_key_witness :
  ∃ s1 s2 ks,
    put 0 (JNum 7) (JNum 70) oneStringTable = (Ret tt, s1)
    ∧ remove (JNum 7) s1
      = (if bool_decide (stringRoot oneStringTable = None) then Ret true
         else Throw TypeError, s2)
    ∧ numberRoot s2 = None ∧ stringRoot s2 = stringRoot oneStringTable
    ∧ find (JNum 7) JUndefined s2 = (Ret (FValue JNull), s2)
    ∧ find JUndefined (JNum 70) s2 = (Ret (FArray ks), s2) ∧ JNum 7 ∈ ks.
Proof.
  apply (X10_remove_of_the_only_number_key 0 oneStringTable 7 (JNum 70));
    first [by_eval | lia].
Defined.

(** ** [min], [max], [keys], [entries] and the range methods *)

(** *** The ends of a tree *)

Lemma minAt_rep t : ∀ fuel s,
  t ≠ Leaf → rep (store s) t → (height t ≤ fuel)%nat →
  minAt fuel (ptr t) s = (Ret (ptr (minT t)), s).
Proof.
  induction t as [|a l IHl k v c sz r _]; intros fuel s Hne Hrep Hfuel; [done|].
  destruct fuel as [|fuel]; [simpl in Hfuel; lia|].
  pose proof Hrep as (Ha & Hl & Hr). simpl in Hfuel.
  cbn [minAt ptr]. msteps.
  destruct l as [|b ll lk lv lc lsz lr].
  - cbn [ptr]. by rewrite bool_decide_true by done.
  - cbn [ptr]. rewrite bool_decide_false by done. msteps.
    apply (IHl fuel s); [done|done|lia].
Qed.

Lemma maxAt_rep t : ∀ fuel s,
  t ≠ Leaf → rep (store s) t → (height t ≤ fuel)%nat →
  maxAt fuel (ptr t) s = (Ret (ptr (maxT t)), s).
Proof.
  induction t as [|a l _ k v c sz r IHr]; intros fuel s Hne Hrep Hfuel; [done|].
  destruct fuel as [|fuel]; [simpl in Hfuel; lia|].
  pose proof Hrep as (Ha & Hl & Hr). simpl in Hfuel.
  cbn [maxAt ptr]. msteps.
  destruct r as [|b rl rk rv rc rsz rr].
  - cbn [ptr]. by rewrite bool_decide_true by done.
  - cbn [ptr]. rewrite bool_decide_false by done. msteps.
    apply (IHr fuel s); [done|done|lia].
Qed.

Lemma minT_node t : t ≠ Leaf → minT t ≠ Leaf.
Proof.
  induction t as [|a l IHl k v c sz r _]; [done|]. intros _.
  destruct l; [done|]. by apply IHl.
Qed.

Lemma maxT_node t : t ≠ Leaf → maxT t ≠ Leaf.
Proof.
  induction t as [|a l _ k v c sz r IHr]; [done|]. intros _.
  destruct r; [done|]. by apply IHr.
Qed.

Lemma minT_rep h t : rep h t → rep h (minT t).
Proof.
  induction t as [|a l IHl k v c sz r _]; [done|]. intros Hrep.
  destruct l; [done|]. apply IHl. by destruct Hrep as (_ & ? & _).
Qed.

Lemma maxT_rep h t : rep h t → rep h (maxT t).
Proof.
  induction t as [|a l _ k v c sz r IHr]; [done|]. intros Hrep.
  destruct r; [done|]. apply IHr. by destruct Hrep as (_ & _ & ?).
Qed.

Lemma minT_step a l k v c sz r :
  l ≠ Leaf → minT (Node a l k v c sz r) = minT l.
Proof. by destruct l. Qed.

Lemma maxT_step a l k v c sz r :
  r ≠ Leaf → maxT (Node a l k v c sz r) = maxT r.
Proof. by destruct r. Qed.

Lemma minT_head t : head (elems t) = entryT (minT t).
Proof.
  induction t as [|a l IHl k v c sz r _]; [done|].
  assert (l = Leaf ∨ l ≠ Leaf) as [->|Hl] by (destruct l; auto); [done|].
  rewrite minT_step by done. rewrite <- IHl. cbn [elems].
  destruct (elems l) eqn:E; [|done]. by apply elems_nil in E.
Qed.

Lemma maxT_last t : last (elems t) = entryT (maxT t).
Proof.
  induction t as [|a l _ k v c sz r IHr]; [done|].
  assert (r = Leaf ∨ r ≠ Leaf) as [->|Hr] by (destruct r; auto).
  - cbn [elems maxT entryT]. by rewrite last_snoc.
  - rewrite maxT_step by done. rewrite <- IHr. cbn [elems].
    rewrite last_app, last_cons.
    destruct (last (elems r)) eqn:E; [done|].
    apply last_None in E. by apply elems_nil in E.
Qed.

(** *** Ranges of an ordered entry list *)

Lemma rangeOf_node lo hi el e er :
  rangeOf lo hi (el ++ e :: er)
  = rangeOf lo hi el ++ (if inRange lo hi e then [e] else [])
    ++ rangeOf lo hi er.
Proof.
  unfold rangeOf. rewrite filter_app, filter_cons.
  destruct (inRange lo hi e); by case_decide.
Qed.

Lemma rangeOf_below lo hi es :
  Forall (λ e, rank e.1 < rank lo) es → rangeOf lo hi es = [].
Proof.
  induction 1 as [|e es He _ IH]; [done|].
  unfold rangeOf in *. rewrite filter_cons, IH. case_decide as Hin; [|done].
  unfold inRange in Hin. apply andb_true_iff in Hin as [Hin _].
  apply bool_decide_eq_true in Hin. lia.
Qed.

Lemma rangeOf_above lo hi es :
  Forall (λ e, rank hi < rank e.1) es → rangeOf lo hi es = [].
Proof.
  induction 1 as [|e es He _ IH]; [done|].
  unfold rangeOf in *. rewrite filter_cons, IH. case_decide as Hin; [|done].
  unfold inRange in Hin. apply andb_true_iff in Hin as [_ Hin].
  apply bool_decide_eq_true in Hin. lia.
Qed.

Lemma Forall_rank_lt_trans (P : Z → Prop) k k' (es : list (jsval * jsval)) :
  Forall (λ e, rank e.1 < rank k) es → rank k ≤ rank k' →
  Forall (λ e, rank e.1 < rank k') es.
Proof. intros H Hk. eapply Forall_impl; [exact H|]. simpl. intros. lia. Qed.

Lemma Forall_rank_gt_trans (P : Z → Prop) k k' (es : list (jsval * jsval)) :
  Forall (λ e, rank k < rank e.1) es → rank k' ≤ rank k →
  Forall (λ e, rank k' < rank e.1) es.
Proof. intros H Hk. eapply Forall_impl; [exact H|]. simpl. intros. lia. Qed.

(** *** The range descents *)


Lemma keysRangeRecv_rep ty lo hi t : ∀ fuel s arr,
  keyOk ty (key lo) = true → keyOk ty (key hi) = true →
  bst ty t → rep (store s) t → (height t < fuel)%nat →
  keysRangeRecv fuel (ptr t) arr lo hi s
  = (Ret (arr ++ (rangeOf (key lo) (key hi) (elems t)).*1), s).
Proof.
  induction t as [|a l IHl k v c sz r IHr];
    intros fuel s arr Hlo Hhi Hbst Hrep Hfuel;
    (destruct fuel as [|fuel]; [simpl in Hfuel; lia|]).
  - simpl. by rewrite app_nil_r.
  - apply bst_node_inv in Hbst as (Hbl & Hbr & Hk & Hlt & Hgt).
    pose proof Hrep as (Ha & Hl & Hr). simpl in Hfuel.
    pose proof (keyOk_type _ _ Hk) as Hty.
    cbn [keysRangeRecv ptr]. msteps.
    rewrite (bind_lift _ _ _ _
               (compareTo_typed ty _ _ Hty (keyOk_typeof _ _ Hlo)
                                (keyOk_typeof _ _ Hk))).
    msteps.
    rewrite (bind_lift _ _ _ _
               (compareTo_typed ty _ _ Hty (keyOk_typeof _ _ Hhi)
                                (keyOk_typeof _ _ Hk))).
    destruct (cmpKeys_rank ty (key lo) k Hlo Hk) as [Hlo1 Hlo2].
    destruct (cmpKeys_rank ty (key hi) k Hhi Hk) as [Hhi1 Hhi2].
    cbn [elems]. rewrite rangeOf_node, !fmap_app.
    assert (inRange (key lo) (key hi) (k, v)
            = bool_decide (cmpKeys (key lo) k ≤ 0)
              && bool_decide (cmpKeys (key hi) k >= 0)) as ->.
    { unfold inRange. cbn [fst]. f_equal; apply bool_decide_ext; lia. }
    assert (∀ arr0,
      (arr1 <- (if bool_decide (cmpKeys (key lo) k < 0)
                then l0 <- getf left (Some a);;
                     keysRangeRecv fuel l0 arr0 lo hi
                else ret arr0);; ret arr1) s
      = (Ret (arr0 ++ (rangeOf (key lo) (key hi) (elems l)).*1), s)) as Hleft.
    { intros arr0.
      destruct (bool_decide_reflect (cmpKeys (key lo) k < 0)) as [C|C].
      - msteps. rewrite (bind_eq _ _ _ _ _ (IHl fuel s arr0 Hlo Hhi Hbl Hl
                                              ltac:(lia))). done.
      - rewrite bind_ret. rewrite rangeOf_below; [by rewrite app_nil_r|].
        eapply Forall_impl; [exact Hlt|]. simpl. intros. lia. }
    assert (∀ arr0,
      (if bool_decide (cmpKeys (key hi) k > 0)
       then r0 <- getf right (Some a);; keysRangeRecv fuel r0 arr0 lo hi
       else ret arr0) s
      = (Ret (arr0 ++ (rangeOf (key lo) (key hi) (elems r)).*1), s)) as Hright.
    { intros arr0.
      destruct (bool_decide_reflect (cmpKeys (key hi) k > 0)) as [C|C].
      - msteps. by rewrite (IHr fuel s arr0 Hlo Hhi Hbr Hr ltac:(lia)).
      - rewrite rangeOf_above; [by rewrite app_nil_r|].
        eapply Forall_impl; [exact Hgt|]. simpl. intros. lia. }
    specialize (Hleft arr). unfold bind at 1 in Hleft.
    unfold bind at 1.
    destruct ((if bool_decide (cmpKeys (key lo) k < 0)
               then l0 <- getf left (Some a);;
                    keysRangeRecv fuel l0 arr lo hi
               else ret arr) s) as [[arr1| | |] s1]; try done.
    injection Hleft as -> ->.
    destruct (bool_decide (cmpKeys (key lo) k ≤ 0)
              && bool_decide (cmpKeys (key hi) k >= 0)).
    + msteps. rewrite Hright. by rewrite <- !app_assoc.
    + msteps. rewrite Hright. by rewrite <- !app_assoc.
Qed.

(** *** Ranges that reach an end of the list *)

Lemma sorted_head_least (es : list (jsval * jsval)) e0 e :
  StronglySorted Z.lt (ranks es) → head es = Some e0 → e ∈ es →
  rank e0.1 ≤ rank e.1.
Proof.
  destruct es as [|e1 es]; [done|]. cbn [ranks fmap list_fmap head].
  intros [Hall _]%StronglySorted_cons [= ->] [->|Hin]%elem_of_cons; [lia|].
  rewrite Forall_forall in Hall.
  assert (rank e0.1 < rank e.1); [|lia].
  apply Hall. apply list_elem_of_fmap. eauto.
Qed.

Lemma sorted_last_greatest (es : list (jsval * jsval)) e0 e :
  StronglySorted Z.lt (ranks es) → last es = Some e0 → e ∈ es →
  rank e.1 ≤ rank e0.1.
Proof.
  induction es as [|e1 es IH]; [done|]. cbn [ranks fmap list_fmap].
  intros [Hall Hs]%StronglySorted_cons Hlast Hin.
  rewrite last_cons in Hlast.
  destruct (last es) as [e2|] eqn:E.
  - injection Hlast as ->. apply elem_of_cons in Hin as [Heq|Hin].
    + subst e. rewrite Forall_forall in Hall.
      assert (rank e1.1 < rank e0.1); [|lia].
      apply Hall. apply list_elem_of_fmap. exists e0. split; [done|].
      apply last_Some in E as (l' & ->). apply elem_of_app. right.
      by apply list_elem_of_singleton.
    + by apply IH.
  - injection Hlast as ->. apply last_None in E. subst es.
    apply elem_of_cons in Hin as [->|Hin]; [lia|].
    by apply not_elem_of_nil in Hin.
Qed.

Lemma rangeOf_upper lo hi (es : list (jsval * jsval)) :
  Forall (λ e, rank e.1 ≤ rank hi) es → rangeOf lo hi es = fromKey lo es.
Proof.
  induction 1 as [|e es He _ IH]; [done|].
  unfold rangeOf, fromKey in *. rewrite !filter_cons, IH.
  unfold inRange.
  repeat case_decide; try done; exfalso;
    rewrite ?andb_true_iff, ?bool_decide_eq_true in *; lia.
Qed.

Lemma rangeOf_lower lo hi (es : list (jsval * jsval)) :
  Forall (λ e, rank lo ≤ rank e.1) es → rangeOf lo hi es = uptoKey hi es.
Proof.
  induction 1 as [|e es He _ IH]; [done|].
  unfold rangeOf, uptoKey in *. rewrite !filter_cons, IH.
  unfold inRange.
  repeat case_decide; try done; exfalso;
    rewrite ?andb_true_iff, ?bool_decide_eq_true in *; lia.
Qed.

Lemma fromKey_all lo (es : list (jsval * jsval)) :
  Forall (λ e, rank lo ≤ rank e.1) es → fromKey lo es = es.
Proof.
  induction 1 as [|e es He _ IH]; [done|].
  unfold fromKey in *. rewrite filter_cons, IH. by case_decide.
Qed.

Lemma uptoKey_all hi (es : list (jsval * jsval)) :
  Forall (λ e, rank e.1 ≤ rank hi) es → uptoKey hi es = es.
Proof.
  induction 1 as [|e es He _ IH]; [done|].
  unfold uptoKey in *. rewrite filter_cons, IH. by case_decide.
Qed.

Lemma maxT_facts ty t :
  bst ty t → t ≠ Leaf →
  ∃ a l k v c sz r,
    maxT t = Node a l k v c sz r ∧ keyOk ty k = true
    ∧ Forall (λ e, rank e.1 ≤ rank k) (elems t).
Proof.
  intros Hb Hne. pose proof (maxT_node t Hne) as Hm.
  pose proof (maxT_last t) as Hlast.
  destruct (maxT t) as [|a l k v c sz r]; [done|].
  exists a, l, k, v, c, sz, r. split; [done|]. cbn [entryT] in Hlast.
  destruct Hb as [Hok Hs]. split.
  - rewrite Forall_forall in Hok. apply (Hok (k, v)).
    apply last_Some in Hlast as (l' & ->). apply elem_of_app. right.
    by apply list_elem_of_singleton.
  - apply Forall_forall. intros e He.
    by apply (sorted_last_greatest _ (k, v) e Hs Hlast).
Qed.

Lemma minT_facts ty t :
  bst ty t → t ≠ Leaf →
  ∃ a l k v c sz r,
    minT t = Node a l k v c sz r ∧ keyOk ty k = true
    ∧ Forall (λ e, rank k ≤ rank e.1) (elems t).
Proof.
  intros Hb Hne. pose proof (minT_node t Hne) as Hm.
  pose proof (minT_head t) as Hhead.
  destruct (minT t) as [|a l k v c sz r]; [done|].
  exists a, l, k, v, c, sz, r. split; [done|]. cbn [entryT] in Hhead.
  destruct Hb as [Hok Hs]. split.
  - rewrite Forall_forall in Hok. apply (Hok (k, v)).
    destruct (elems t); [done|]. injection Hhead as ->.
    apply elem_of_cons. by left.
  - apply Forall_forall. intros e He.
    by apply (sorted_head_least _ (k, v) e Hs Hhead).
Qed.

(** *** [min()] and [max()] *)

Ltac roots Hpn Hps :=
  do 4 (this_step; rewrite <- ?Hpn, <- ?Hps; cbn [ptr];
        rewrite ?bool_decide_true, ?bool_decide_false by done;
        cbn [andb]).

Lemma rbtMin_wf s tn ts :
  wellFormed s = true → numberTree s = Some tn → stringTree s = Some ts →
  rbtMin s
  = (Ret (match minTree tn ts with
          | Leaf => inl TreeIsEmpty
          | t => inr (ptr (minT t))
          end), s).
Proof.
  intros Hwf En0 Es0.
  destruct (wellFormed_unpack s Hwf)
    as (tn' & ts' & En & Es & Hn & Hpn & Hs & Hps & Hnd & Hbn & Hbs).
  assert (tn' = tn) as -> by congruence. assert (ts' = ts) as -> by congruence.
  pose proof Hnd as (Hndn & _ & Hnds)%NoDup_app.
  pose proof (rep_fuel _ _ Hn Hndn) as Hfn.
  pose proof (rep_fuel _ _ Hs Hnds) as Hfs.
  unfold rbtMin, isEmpty, qthrow, qret.
  destruct tn as [|a1 l1 k1 v1 c1 z1 r1].
  - destruct ts as [|a2 l2 k2 v2 c2 z2 r2]; roots Hpn Hps; [done|].
    change (Some a2) with (ptr (Node a2 l2 k2 v2 c2 z2 r2)).
    erewrite bind_eq; [|apply minAt_rep; [done|done|lia]]. done.
  - roots Hpn Hps.
    change (Some a1) with (ptr (Node a1 l1 k1 v1 c1 z1 r1)).
    erewrite bind_eq; [|apply minAt_rep; [done|done|lia]]. done.
Qed.

Lemma rbtMax_wf s tn ts :
  wellFormed s = true → numberTree s = Some tn → stringTree s = Some ts →
  rbtMax s
  = (Ret (match maxTree tn ts with
          | Leaf => inl TreeIsEmpty
          | t => inr (ptr (maxT t))
          end), s).
Proof.
  intros Hwf En0 Es0.
  destruct (wellFormed_unpack s Hwf)
    as (tn' & ts' & En & Es & Hn & Hpn & Hs & Hps & Hnd & Hbn & Hbs).
  assert (tn' = tn) as -> by congruence. assert (ts' = ts) as -> by congruence.
  pose proof Hnd as (Hndn & _ & Hnds)%NoDup_app.
  pose proof (rep_fuel _ _ Hn Hndn) as Hfn.
  pose proof (rep_fuel _ _ Hs Hnds) as Hfs.
  unfold rbtMax, isEmpty, qthrow, qret.
  destruct ts as [|a2 l2 k2 v2 c2 z2 r2].
  - destruct tn as [|a1 l1 k1 v1 c1 z1 r1]; roots Hpn Hps; [done|].
    change (Some a1) with (ptr (Node a1 l1 k1 v1 c1 z1 r1)).
    erewrite bind_eq; [|apply maxAt_rep; [done|done|lia]]. done.
  - roots Hpn Hps. rewrite ?andb_false_r. roots Hpn Hps.
    change (Some a2) with (ptr (Node a2 l2 k2 v2 c2 z2 r2)).
    erewrite bind_eq; [|apply maxAt_rep; [done|done|lia]]. done.
Qed.

(** *** [keysRange] and [entriesRange] *)

Lemma newRedBlackNode_key k :
  storableKey k = true →
  newRedBlackNode k JUndefined JUndefined 1
  = Ret (mkNode None None k JNull JNull 1).
Proof.
  destruct k; try done; simpl.
  intros [_ H]%andb_true_iff. apply bool_decide_eq_true in H.
  unfold newRedBlackNode. rewrite bool_decide_false by lia. done.
Qed.

Lemma storableKeys_string s ts e :
  stringTree s = Some ts → storableKeys s = true → e ∈ elems ts →
  storableKey e.1 = true.
Proof.
  intros Es Hst He. unfold storableKeys in Hst. rewrite Es in Hst.
  rewrite forallb_forall in Hst. apply Hst. apply list_elem_of_In.
  apply elem_of_app. by right.
Qed.

Lemma keyOk_number k : keyOk TNumber k = true → storableKey k = true.
Proof. by destruct k. Qed.

Lemma number_keyOk k : typeof k = TNumber → keyOk TNumber k = true.
Proof. by destruct k. Qed.

Lemma entryT_elem t e : entryT t = Some e → t ≠ Leaf.
Proof. by destruct t. Qed.

Lemma minT_elem t k v :
  entryT (minT t) = Some (k, v) → (k, v) ∈ elems t.
Proof.
  rewrite <- minT_head. destruct (elems t); [done|]. intros [= ->].
  apply elem_of_cons. by left.
Qed.

Lemma maxT_elem t k v :
  entryT (maxT t) = Some (k, v) → (k, v) ∈ elems t.
Proof.
  rewrite <- maxT_last. intros (l' & ->)%last_Some.
  apply elem_of_app. right. by apply list_elem_of_singleton.
Qed.

(** The part of [keysRange] that reads the number tree. *)
Lemma keysRange_numbers s tn min lo :
  rep (store s) tn → ptr tn = numberRoot s → NoDup (addrs tn) →
  bst TNumber tn → tn ≠ Leaf →
  argKey min s = (Ret lo, s) → typeof lo = TNumber →
  (mk <- argKey min ;;
   low <- lift (newRedBlackNode mk JUndefined JUndefined 1) ;;
   fuel <- getFuel ;;
   r <- getNumberRoot ;; m <- maxAt fuel r ;; hk <- getf key m ;;
   high <- lift (newRedBlackNode hk JUndefined JUndefined 1) ;;
   r <- getNumberRoot ;;
   keysRangeRecv fuel r [] low high) s
  = (Ret ((fromKey lo (elems tn)).*1), s).
Proof.
  intros Hn Hpn Hnd Hb Hne Hmin Hty.
  destruct (maxT_facts _ _ Hb Hne) as (a & l & k & v & c & sz & r & Hm & Hk & Hle).
  pose proof (maxT_rep _ _ Hn) as Hmr. rewrite Hm in Hmr.
  destruct Hmr as (Ha & _ & _).
  pose proof (rep_fuel _ _ Hn Hnd) as Hf.
  rewrite (bind_eq _ _ _ _ _ Hmin).
  rewrite (bind_lift _ _ _ _ (newRedBlackNode_key lo
             (keyOk_number _ (number_keyOk _ Hty)))).
  this_step. rewrite <- Hpn.
  erewrite bind_eq; [|apply maxAt_rep; [done|done|lia]].
  rewrite Hm. cbn [ptr]. msteps.
  rewrite (bind_lift _ _ _ _ (newRedBlackNode_key k (keyOk_number _ Hk))).
  this_step. rewrite <- Hpn.
  rewrite (keysRangeRecv_rep TNumber); try done.
  - cbn [key app]. by rewrite rangeOf_upper.
  - by apply number_keyOk.
Qed.

(** The part of [keysRange] that reads the string tree. *)
Lemma keysRange_strings s ts max hi :
  rep (store s) ts → ptr ts = stringRoot s → NoDup (addrs ts) →
  bst TString ts → ts ≠ Leaf →
  (∀ e, e ∈ elems ts → storableKey e.1 = true) →
  argKey max s = (Ret hi, s) → storableKey hi = true → typeof hi = TString →
  (fuel <- getFuel ;;
   r <- getStringRoot ;; m <- minAt fuel r ;; lk <- getf key m ;;
   low <- lift (newRedBlackNode lk JUndefined JUndefined 1) ;;
   xk <- argKey max ;;
   high <- lift (newRedBlackNode xk JUndefined JUndefined 1) ;;
   r <- getStringRoot ;;
   keysRangeRecv fuel r [] low high) s
  = (Ret ((uptoKey hi (elems ts)).*1), s).
Proof.
  intros Hs Hps Hnd Hb Hne Hst Hmax Hhi Hty.
  destruct (minT_facts _ _ Hb Hne) as (a & l & k & v & c & sz & r & Hm & Hk & Hle).
  pose proof (minT_rep _ _ Hs) as Hmr. rewrite Hm in Hmr.
  destruct Hmr as (Ha & _ & _).
  pose proof (rep_fuel _ _ Hs Hnd) as Hf.
  assert (storableKey k = true) as Hks.
  { apply (Hst (k, v)). apply minT_elem. by rewrite Hm. }
  this_step. rewrite <- Hps.
  erewrite bind_eq; [|apply minAt_rep; [done|done|lia]].
  rewrite Hm. cbn [ptr]. msteps.
  rewrite (bind_lift _ _ _ _ (newRedBlackNode_key k Hks)).
  rewrite (bind_eq _ _ _ _ _ Hmax).
  rewrite (bind_lift _ _ _ _ (newRedBlackNode_key hi Hhi)).
  this_step. rewrite <- Hps.
  rewrite (keysRangeRecv_rep TString); try done.
  - cbn [key app]. by rewrite rangeOf_lower.
  - pose proof (storableKey_keyOk hi Hhi) as H. by rewrite Hty in H.
Qed.

Lemma keysRange_spec s tn ts min max kmin kmax :
  wellFormed s = true → numberTree s = Some tn → stringTree s = Some ts →
  isNullArg min = false → isNullArg max = false →
  argKey min s = (Ret kmin, s) → argKey max s = (Ret kmax, s) →
  (typeof kmin = TNumber → tn ≠ Leaf) →
  (typeof kmax = TString →
   ts ≠ Leaf ∧ storableKey kmax = true ∧ storableKeys s = true) →
  keysRange min max s
  = (Ret (inr ((if bool_decide (typeof kmin = TNumber)
                then fromKey kmin (elems tn) else []).*1
               ++ (if bool_decide (typeof kmax = TString)
                   then uptoKey kmax (elems ts) else []).*1)), s).
Proof.
  intros Hwf En0 Es0 Hmin0 Hmax0 Hmin Hmax Hnum Hstr.
  destruct (wellFormed_unpack s Hwf)
    as (tn' & ts' & En & Es & Hn & Hpn & Hs & Hps & Hnd & Hbn & Hbs).
  assert (tn' = tn) as -> by congruence. assert (ts' = ts) as -> by congruence.
  pose proof Hnd as (Hndn & _ & Hnds)%NoDup_app.
  unfold keysRange. rewrite Hmin0, Hmax0. cbn [orb].
  rewrite (bind_eq _ _ _ _ _ Hmin).
  case_bool_decide as Hkn.
  - erewrite bind_eq; [|by apply (keysRange_numbers s tn); auto].
    rewrite (bind_eq _ _ _ _ _ Hmax).
    case_bool_decide as Hks.
    + destruct (Hstr Hks) as (Hne & Hhi & Hst).
      erewrite bind_eq;
        [|apply (keysRange_strings s ts); eauto using storableKeys_string].
      done.
    + rewrite bind_ret. done.
  - rewrite bind_ret. rewrite (bind_eq _ _ _ _ _ Hmax).
    case_bool_decide as Hks.
    + destruct (Hstr Hks) as (Hne & Hhi & Hst).
      erewrite bind_eq;
        [|apply (keysRange_strings s ts); eauto using storableKeys_string].
      done.
    + rewrite bind_ret. done.
Qed.




(** *** [keys()] and [entries()] *)

Lemma minTree_facts s tn ts :
  rep (store s) tn → rep (store s) ts → bst TNumber tn → bst TString ts →
  minTree tn ts ≠ Leaf →
  ∃ a kmin,
    ptr (minT (minTree tn ts)) = Some a
    ∧ argKey (ArgRef a) s = (Ret kmin, s)
    ∧ (typeof kmin = TNumber → tn ≠ Leaf)
    ∧ (if bool_decide (typeof kmin = TNumber)
       then fromKey kmin (elems tn) else []) = elems tn.
Proof.
  intros Hn Hs Hbn Hbs Hne.
  destruct tn as [|a1 l1 k1 v1 c1 z1 r1].
  - cbn [minTree] in *.
    destruct (minT_facts _ _ Hbs Hne)
      as (a & l & k & v & c & sz & r & Hm & Hk & Hle).
    pose proof (minT_rep _ _ Hs) as Hmr. rewrite Hm in Hmr.
    destruct Hmr as (Ha & _ & _). apply keyOk_typeof in Hk.
    exists a, k. rewrite Hm. split; [done|]. split.
    { cbn [argKey]. by erewrite getf_eq by exact Ha. }
    split; [congruence|]. rewrite bool_decide_false by congruence. done.
  - assert (minTree (Node a1 l1 k1 v1 c1 z1 r1) ts
            = Node a1 l1 k1 v1 c1 z1 r1) as Hmt by done.
    rewrite Hmt in *. clear Hmt. set (tn := Node a1 l1 k1 v1 c1 z1 r1) in *.
    destruct (minT_facts _ _ Hbn Hne)
      as (a & l & k & v & c & sz & r & Hm & Hk & Hle).
    pose proof (minT_rep _ _ Hn) as Hmr. rewrite Hm in Hmr.
    destruct Hmr as (Ha & _ & _). apply keyOk_typeof in Hk.
    exists a, k. rewrite Hm. split; [done|]. split.
    { cbn [argKey]. by erewrite getf_eq by exact Ha. }
    split; [done|]. rewrite bool_decide_true by done.
    by apply fromKey_all.
Qed.

Lemma maxTree_facts s tn ts :
  rep (store s) tn → rep (store s) ts → bst TNumber tn → bst TString ts →
  (∀ e, e ∈ elems ts → storableKey e.1 = true) →
  maxTree tn ts ≠ Leaf →
  ∃ a kmax,
    ptr (maxT (maxTree tn ts)) = Some a
    ∧ argKey (ArgRef a) s = (Ret kmax, s)
    ∧ (typeof kmax = TString → ts ≠ Leaf ∧ storableKey kmax = true)
    ∧ (if bool_decide (typeof kmax = TString)
       then uptoKey kmax (elems ts) else []) = elems ts.
Proof.
  intros Hn Hs Hbn Hbs Hst Hne.
  destruct ts as [|a2 l2 k2 v2 c2 z2 r2].
  - cbn [maxTree] in *.
    destruct (maxT_facts _ _ Hbn Hne)
      as (a & l & k & v & c & sz & r & Hm & Hk & Hle).
    pose proof (maxT_rep _ _ Hn) as Hmr. rewrite Hm in Hmr.
    destruct Hmr as (Ha & _ & _). apply keyOk_typeof in Hk.
    exists a, k. rewrite Hm. split; [done|]. split.
    { cbn [argKey]. by erewrite getf_eq by exact Ha. }
    split; [congruence|]. rewrite bool_decide_false by congruence. done.
  - assert (maxTree tn (Node a2 l2 k2 v2 c2 z2 r2)
            = Node a2 l2 k2 v2 c2 z2 r2) as Hmt by done.
    rewrite Hmt in *. clear Hmt. set (ts := Node a2 l2 k2 v2 c2 z2 r2) in *.
    destruct (maxT_facts _ _ Hbs Hne)
      as (a & l & k & v & c & sz & r & Hm & Hk & Hle).
    pose proof (maxT_rep _ _ Hs) as Hmr. rewrite Hm in Hmr.
    destruct Hmr as (Ha & _ & _). apply keyOk_typeof in Hk.
    exists a, k. rewrite Hm. split; [done|]. split.
    { cbn [argKey]. by erewrite getf_eq by exact Ha. }
    split.
    { intros _. split; [done|]. apply (Hst (k, v)). apply maxT_elem.
      by rewrite Hm. }
    rewrite bool_decide_true by done. by apply uptoKey_all.
Qed.

Lemma minTree_maxTree_node tn ts :
  elems tn ++ elems ts ≠ [] → minTree tn ts ≠ Leaf ∧ maxTree tn ts ≠ Leaf.
Proof. destruct tn, ts; done. Qed.


Lemma keys_wf s :
  wellFormed s = true → storableKeys s = true →
  keys s
  = (Ret (inr ((entriesOf (numberTree s) ++ entriesOf (stringTree s)).*1)), s).
Proof.
  intros Hwf Hst.
  destruct (wellFormed_unpack s Hwf)
    as (tn & ts & En & Es & Hn & Hpn & Hs & Hps & Hnd & Hbn & Hbs).
  unfold keys. rewrite (bind_eq _ _ _ _ _ (isEmpty_wf s Hwf)).
  rewrite En, Es. cbn [entriesOf].
  case_bool_decide as Hemp; [by rewrite Hemp|].
  destruct (minTree_maxTree_node _ _ Hemp) as [Hmin Hmax].
  destruct (minTree_facts s tn ts) as (a1 & kmin & Hp1 & Hk1 & Hn1 & He1);
    try done.
  destruct (maxTree_facts s tn ts) as (a2 & kmax & Hp2 & Hk2 & Hn2 & He2);
    try done.
  { intros e He. by eapply storableKeys_string. }
  unfold qbind.
  rewrite (bind_eq _ _ _ _ _ (rbtMin_wf s tn ts Hwf En Es)).
  destruct (minTree tn ts) eqn:Emin; [done|]. rewrite Hp1.
  rewrite (bind_eq _ _ _ _ _ (rbtMax_wf s tn ts Hwf En Es)).
  destruct (maxTree tn ts) eqn:Emax; [done|]. rewrite Hp2.
  cbn [asArg].
  rewrite (keysRange_spec s tn ts (ArgRef a1) (ArgRef a2) kmin kmax);
    try done.
  - by rewrite He1, He2, fmap_app.
  - intros Hty. destruct (Hn2 Hty). done.
Qed.

(** ** Tables built by [put] *)

Lemma insE_storable k v es :
  storableKey k = true →
  Forall (λ e, storableKey e.1 = true) es →
  Forall (λ e, storableKey e.1 = true) (insE k v es).
Proof.
  intros Hk. induction 1 as [|[k0 v0] es He Hes IH]; simpl.
  - by constructor.
  - simpl in He. repeat case_bool_decide.
    + by repeat apply Forall_cons_2.
    + by apply Forall_cons_2.
    + by apply Forall_cons_2.
Qed.

Lemma storableKeys_Forall s :
  storableKeys s = true
  ↔ Forall (λ e, storableKey e.1 = true)
           (entriesOf (numberTree s) ++ entriesOf (stringTree s)).
Proof.
  unfold storableKeys. rewrite forallb_forall, Forall_forall.
  split; intros H e He; apply H; by apply list_elem_of_In.
Qed.

(** [put] of a storable key keeps the three properties every table built
    by [put] of storable keys has. *)
Lemma put_keeps now s k v :
  wellFormed s = true → sizedTable s = true → storableKeys s = true →
  storableKey k = true → ownable (storedValue v) →
  ∃ s', put now k v s = (Ret tt, s')
        ∧ wellFormed s' = true ∧ sizedTable s' = true
        ∧ storableKeys s' = true.
Proof.
  intros Hwf Hsz Hst Hk Hown.
  destruct (put_sized now s k v Hwf Hsz Hk Hown) as (s' & Hrun & Hwf' & Hsz').
  destruct (put_spec now s k v Hwf Hk Hown) as (s1 & Hrun1 & _ & Hent & _).
  assert (s1 = s') as -> by congruence.
  exists s'. split_and!; try done.
  apply storableKeys_Forall. apply storableKeys_Forall in Hst.
  apply Forall_app in Hst as [Hstn Hsts].
  pose proof (Hent (JNum 0)) as Hn. pose proof (Hent (JStr "a")) as Hs.
  unfold routedEntries in Hn, Hs. cbn [typeof] in Hn, Hs.
  rewrite Hn, Hs. clear Hn Hs Hent. apply Forall_app.
  split; case_bool_decide; auto using insE_storable.
Qed.

Lemma puts_keeps now ops : ∀ s,
  wellFormed s = true → sizedTable s = true → storableKeys s = true →
  Forall putOk ops →
  ∃ s', puts now ops s = (Ret tt, s')
        ∧ wellFormed s' = true ∧ sizedTable s' = true
        ∧ storableKeys s' = true.
Proof.
  induction ops as [|[k v] ops IH]; intros s Hwf Hsz Hst Hops.
  - exists s. done.
  - apply Forall_cons in Hops as [[Hk [_ Hv]] Hops]. simpl in Hk, Hv.
    destruct (put_keeps now s k v Hwf Hsz Hst Hk Hv)
      as (s1 & Hrun & Hwf1 & Hsz1 & Hst1).
    destruct (IH s1 Hwf1 Hsz1 Hst1 Hops) as (s' & Hrun' & Hwf' & Hsz' & Hst').
    exists s'. simpl. by rewrite (bind_eq _ _ _ _ _ Hrun).
Qed.

Lemma bst_typed ty t : bst ty t → Forall (λ e, typeof e.1 = ty) (elems t).
Proof.
  intros [Hok _]. eapply Forall_impl; [exact Hok|]. simpl.
  intros e. apply keyOk_typeof.
Qed.



(** *** Which keys a table built by [put] holds *)

Lemma insE_has_key k v es : ∃ e, e ∈ insE k v es ∧ rank e.1 = rank k.
Proof.
  induction es as [|[k0 v0] es (e & He & Hr)]; simpl.
  - exists (k, v). split; [by apply list_elem_of_singleton|done].
  - repeat case_bool_decide.
    + exists (k, v). split; [apply elem_of_cons; by left|done].
    + exists e. split; [apply elem_of_cons; by right|done].
    + exists (k0, v). split; [apply elem_of_cons; by left|]. simpl. lia.
Qed.

Lemma insE_keeps_keys k v es e :
  e ∈ es → ∃ e', e' ∈ insE k v es ∧ e'.1 = e.1.
Proof.
  induction es as [|[k0 v0] es IH]; simpl; [by intros ?%not_elem_of_nil|].
  intros [->|Hin]%elem_of_cons.
  - repeat case_bool_decide.
    + exists (k0, v0). split; [|done]. apply elem_of_cons. right.
      apply elem_of_cons. by left.
    + exists (k0, v0). split; [|done]. apply elem_of_cons. by left.
    + exists (k0, v). split; [|done]. apply elem_of_cons. by left.
  - repeat case_bool_decide.
    + exists e. split; [|done]. apply elem_of_cons. right.
      apply elem_of_cons. by right.
    + destruct (IH Hin) as (e' & He' & Hk). exists e'.
      split; [|done]. apply elem_of_cons. by right.
    + exists e. split; [|done]. apply elem_of_cons. by right.
Qed.

Lemma insE_keys_from k v es e :
  e ∈ insE k v es → e.1 = k ∨ ∃ e0, e0 ∈ es ∧ e0.1 = e.1.
Proof.
  induction es as [|[k0 v0] es IH]; simpl.
  - intros ->%list_elem_of_singleton. by left.
  - repeat case_bool_decide.
    + intros [->|Hin]%elem_of_cons; [by left|]. right. by exists e.
    + intros [->|Hin]%elem_of_cons.
      * right. exists (k0, v0). split; [|done]. apply elem_of_cons. by left.
      * destruct (IH Hin) as [?|(e0 & He0 & Hk)]; [by left|]. right.
        exists e0. split; [|done]. apply elem_of_cons. by right.
    + intros [->|Hin]%elem_of_cons.
      * right. exists (k0, v0). split; [|done]. apply elem_of_cons. by left.
      * right. exists e. split; [|done]. apply elem_of_cons. by right.
Qed.

Lemma puts_keys now ops : ∀ s,
  wellFormed s = true → Forall putOk ops →
  ∃ s', puts now ops s = (Ret tt, s')
        ∧ (∀ k' e, e ∈ routedEntries s k' →
                   ∃ e', e' ∈ routedEntries s' k' ∧ e'.1 = e.1)
        ∧ (∀ k v, (k, v) ∈ ops →
                  ∃ e, e ∈ routedEntries s' k ∧ rank e.1 = rank k)
        ∧ (∀ k' e, e ∈ routedEntries s' k' →
                   (∃ e0, e0 ∈ routedEntries s k' ∧ e0.1 = e.1)
                   ∨ ∃ v, (e.1, v) ∈ ops).
Proof.
  induction ops as [|[k v] ops IH]; intros s Hwf Hops.
  - exists s. split; [done|]. split_and!.
    + intros k' e He. by exists e.
    + intros k v Hin. by apply not_elem_of_nil in Hin.
    + intros k' e He. left. by exists e.
  - apply Forall_cons in Hops as [[Hk [_ Hv]] Hops]. simpl in Hk, Hv.
    destruct (put_spec now s k v Hwf Hk Hv) as (s1 & Hrun & Hwf1 & Hent & _).
    destruct (IH s1 Hwf1 Hops) as (s' & Hrun' & Hkeep & Hnew & Hfrom).
    exists s'. split; [simpl; by rewrite (bind_eq _ _ _ _ _ Hrun)|].
    split_and!.
    + intros k' e He.
      assert (∃ e1, e1 ∈ routedEntries s1 k' ∧ e1.1 = e.1)
        as (e1 & He1 & Hk1).
      { rewrite Hent. case_bool_decide; [|by exists e].
        by apply insE_keeps_keys. }
      destruct (Hkeep k' e1 He1) as (e' & He' & Hk'). exists e'.
      split; [done|congruence].
    + intros k0 v0 [[= -> ->]|Hin]%elem_of_cons; [|by eapply Hnew].
      destruct (insE_has_key k (storedValue v) (routedEntries s k))
        as (e1 & He1 & Hr1).
      assert (e1 ∈ routedEntries s1 k) as He1'.
      { rewrite Hent. by rewrite bool_decide_true by done. }
      destruct (Hkeep k e1 He1') as (e' & He' & Hk'). exists e'.
      split; [done|]. by rewrite Hk'.
    + intros k' e He. destruct (Hfrom k' e He) as [(e1 & He1 & Hk1)|(v0 & Hv0)].
      * rewrite Hent in He1. case_bool_decide; [|left; by exists e1].
        apply insE_keys_from in He1 as [Hk0|(e0 & He0 & Hk0)].
        -- right. exists v. apply elem_of_cons. left. f_equal. congruence.
        -- left. exists e0. split; [done|congruence].
      * right. exists v0. apply elem_of_cons. by right.
Qed.

Lemma routedEntries_empty k : routedEntries emptyRbt k = [].
Proof. by destruct k. Qed.

(** X14.  After any run of puts of storable keys on an empty table,
    [keys()] lists the keys that were put and nothing else: every listed
    key was the key of some put, and for every put the list has a key of
    the same type that compares equal to its key (the key itself, or for
    strings one with the same decoded number that was put first). *)
Theorem X14_keys_are_the_keys_put now ops :
  Forall putOk ops →
  ∃ s ks,
    puts now ops emptyRbt = (Ret tt, s)
    ∧ keys s = (Ret (inr ks), s)
    ∧ (∀ k, k ∈ ks → ∃ v, (k, v) ∈ ops)
    ∧ (∀ k v, (k, v) ∈ ops →
              ∃ k', k' ∈ ks ∧ typeof k' = typeof k ∧ rank k' = rank k).
Proof.
  intros Hops.
  destruct (puts_keeps now ops emptyRbt eq_refl eq_refl eq_refl Hops)
    as (s & Hrun & Hwf & Hsz & Hst).
  destruct (puts_keys now ops emptyRbt eq_refl Hops)
    as (s1 & Hrun1 & _ & Hnew & Hfrom).
  assert (s1 = s) as -> by congruence.
  destruct (wellFormed_unpack s Hwf)
    as (tn & ts & En & Es & _ & _ & _ & _ & _ & Hbn & Hbs).
  pose proof (keys_wf s Hwf Hst) as Hk.
  rewrite En, Es in Hk. cbn [entriesOf] in Hk.
  exists s. eexists. split; [done|]. split; [exact Hk|].
  assert (routedEntries s (JNum 0) = elems tn) as Hrn
    by (unfold routedEntries; cbn [typeof]; by rewrite En).
  assert (routedEntries s (JStr "a") = elems ts) as Hrs
    by (unfold routedEntries; cbn [typeof]; by rewrite Es).
  split.
  - intros k ([k0 v0] & -> & [Hin|Hin]%elem_of_app)%list_elem_of_fmap.
    + rewrite <- Hrn in Hin.
      destruct (Hfrom _ _ Hin) as [(e0 & He0 & _)|?]; [|done].
      rewrite routedEntries_empty in He0. by apply not_elem_of_nil in He0.
    + rewrite <- Hrs in Hin.
      destruct (Hfrom _ _ Hin) as [(e0 & He0 & _)|?]; [|done].
      rewrite routedEntries_empty in He0. by apply not_elem_of_nil in He0.
  - intros k v Hin. destruct (Hnew k v Hin) as (e & He & Hr).
    rewrite Forall_forall in Hops. destruct (Hops _ Hin) as [Hsk _].
    simpl in Hsk. exists e.1.
    pose proof (bst_typed _ _ Hbn) as Htn. pose proof (bst_typed _ _ Hbs) as Hts.
    rewrite Forall_forall in Htn, Hts.
    destruct k as [| | |z|str|]; try done.
    + assert (routedEntries s (JNum z) = elems tn) as Hr'
        by (unfold routedEntries; cbn [typeof]; by rewrite En).
      rewrite Hr' in He. split_and!; [|by apply Htn|done].
      apply list_elem_of_fmap. exists e. split; [done|].
      apply elem_of_app. by left.
    + assert (routedEntries s (JStr str) = elems ts) as Hr'
        by (unfold routedEntries; cbn [typeof]; by rewrite Es).
      rewrite Hr' in He. split_and!; [|by apply Hts|done].
      apply list_elem_of_fmap. exists e. split; [done|].
      apply elem_of_app. by right.
Qed.

Lemma X14_keys_are_the_keys_put_witness :
  ∃ s ks,
    puts 0 sampleOps emptyRbt = (Ret tt, s)
    ∧ keys s = (Ret (inr ks), s)
    ∧ (∀ k, k ∈ ks → ∃ v, (k, v) ∈ sampleOps)
    ∧ (∀ k v, (k, v) ∈ sampleOps →
              ∃ k', k' ∈ ks ∧ typeof k' = typeof k ∧ rank k' = rank k).
Proof.
  apply (X14_keys_are_the_keys_put 0 sampleOps).
  unfold sampleOps. repeat constructor; by_eval.
Defined.

(** ** Range queries and the ends of the table *)

Lemma bind_throw_eq {A B} (m : M A) (k : A → M B) s e s' :
  m s = (Throw e, s') → bind m k s = (Throw e, s').
Proof. unfold bind. by intros ->. Qed.

Lemma maxAt_null fuel s : maxAt (S fuel) None s = (Throw TypeError, s).
Proof. done. Qed.

Lemma minAt_null fuel s : minAt (S fuel) None s = (Throw TypeError, s).
Proof. done. Qed.

(** X15.  With numeric bounds [keysRange] uses only the lower one: on a
    well-formed table with at least one number key,
    [keysRange({ key: lo }, { key: hi })] returns every number key from
    [lo] on, in ascending order, whatever [hi] is (the upper end of the
    range is the largest number key of the table); without number keys it
    throws a [TypeError].  With [null] for either bound it throws 'Can
    not accept null value!'. *)
Theorem X15_keysRange_ignores_the_upper_number_bound s lo hi :
  wellFormed s = true →
  keysRange (ArgObj (JNum lo)) (ArgObj (JNum hi)) s
  = (match entriesOf (numberTree s) with
     | [] => Throw TypeError
     | es => Ret (inr (fromKey (JNum lo) es).*1)
     end, s)
  ∧ (∀ a, keysRange ArgNull a s = (Ret (inl CanNotAcceptNull), s)
          ∧ keysRange a ArgNull s = (Ret (inl CanNotAcceptNull), s)).
Proof.
  intros Hwf. split; [|intros a; split; [done|by destruct a]].
  destruct (wellFormed_unpack s Hwf)
    as (tn & ts & En & Es & Hn & Hpn & Hs & Hps & Hnd & Hbn & Hbs).
  rewrite En. cbn [entriesOf].
  destruct (elems tn) as [|e es] eqn:Eel.
  - apply elems_nil in Eel. subst tn. cbn [ptr] in Hpn.
    unfold keysRange. cbn [isNullArg orb argKey]. this_step.
    rewrite bool_decide_true by done. this_step.
    unfold newRedBlackNode. cbn [orDefault]. erewrite bind_lift by reflexivity.
    this_step. rewrite <- Hpn.
    by erewrite bind_throw_eq by apply maxAt_null.
  - rewrite <- Eel.
    rewrite (keysRange_spec s tn ts (ArgObj (JNum lo)) (ArgObj (JNum hi))
               (JNum lo) (JNum hi)); try done.
    + cbn [typeof]. rewrite bool_decide_true by done.
      rewrite bool_decide_false by done. by rewrite app_nil_r.
    + intros _ ->. done.
Qed.

Lemma X15_keysRange_ignores_the_upper_number_bound_witness :
  keysRange (ArgObj (JNum 6)) (ArgObj (JNum 7)) sampleTable
  = (Ret (inr [JNum 6; JNum 7; JNum 8]), sampleTable).
Proof.
  destruct (X15_keysRange_ignores_the_upper_number_bound sampleTable 6 7)
    as [H _]; [by_eval|].
  rewrite H. vm_compute. reflexivity.
Defined.

(** X16.  With string bounds [keysRange] uses only the upper one: on a
    well-formed table of storable keys with at least one string key,
    [keysRange({ key: lo }, { key: hi })] for a storable string [hi]
    returns every string key up to [hi] in the order of the tree,
    whatever string [lo] is (the lower end of the range is the smallest
    string key of the table); without string keys it throws a
    [TypeError]. *)
Theorem X16_keysRange_ignores_the_lower_string_bound s lo hi :
  wellFormed s = true → storableKeys s = true →
  storableKey (JStr hi) = true →
  keysRange (ArgObj (JStr lo)) (ArgObj (JStr hi)) s
  = (match entriesOf (stringTree s) with
     | [] => Throw TypeError
     | es => Ret (inr (uptoKey (JStr hi) es).*1)
     end, s).
Proof.
  intros Hwf Hst Hhi.
  destruct (wellFormed_unpack s Hwf)
    as (tn & ts & En & Es & Hn & Hpn & Hs & Hps & Hnd & Hbn & Hbs).
  rewrite Es. cbn [entriesOf].
  destruct (elems ts) as [|e es] eqn:Eel.
  - apply elems_nil in Eel. subst ts. cbn [ptr] in Hps.
    unfold keysRange. cbn [isNullArg orb argKey]. this_step. cbn [typeof].
    rewrite bool_decide_false by done. this_step. cbn [typeof].
    rewrite bool_decide_true by done.
    this_step. rewrite <- Hps.
    by erewrite bind_throw_eq by apply minAt_null.
  - rewrite <- Eel.
    rewrite (keysRange_spec s tn ts (ArgObj (JStr lo)) (ArgObj (JStr hi))
               (JStr lo) (JStr hi)); try done.
    intros _. split_and!; try done. intros ->. done.
Qed.

Lemma X16_keysRange_ignores_the_lower_string_bound_witness :
  keysRange (ArgObj (JStr "bb")) (ArgObj (JStr "a")) sampleTable
  = (Ret (inr [JStr "a"]), sampleTable).
Proof.
  rewrite (X16_keysRange_ignores_the_lower_string_bound sampleTable "bb" "a");
    by_eval.
Defined.

Lemma rbtMin_node s tn ts :
  wellFormed s = true → numberTree s = Some tn → stringTree s = Some ts →
  minTree tn ts ≠ Leaf →
  rbtMin s = (Ret (inr (ptr (minT (minTree tn ts)))), s).
Proof.
  intros Hwf En Es Hne. rewrite (rbtMin_wf s tn ts Hwf En Es).
  by destruct (minTree tn ts).
Qed.

Lemma rbtMax_node s tn ts :
  wellFormed s = true → numberTree s = Some tn → stringTree s = Some ts →
  maxTree tn ts ≠ Leaf →
  rbtMax s = (Ret (inr (ptr (maxT (maxTree tn ts)))), s).
Proof.
  intros Hwf En Es Hne. rewrite (rbtMax_wf s tn ts Hwf En Es).
  by destruct (maxTree tn ts).
Qed.

(** X17.  On a well-formed table, [min()] returns the node of the first
    and [max()] the node of the last entry of the table in the order of
    [entries()] (number keys before string keys); on an empty table both
    throw 'Tree is empty'. *)
Theorem X17_min_and_max_are_the_ends_of_the_entries s :
  wellFormed s = true →
  let es := entriesOf (numberTree s) ++ entriesOf (stringTree s) in
  match head es, last es with
  | Some e1, Some e2 =>
      ∃ a1 n1 a2 n2,
        rbtMin s = (Ret (inr (Some a1)), s)
        ∧ store s !! a1 = Some n1 ∧ (key n1, value n1) = e1
        ∧ rbtMax s = (Ret (inr (Some a2)), s)
        ∧ store s !! a2 = Some n2 ∧ (key n2, value n2) = e2
  | _, _ =>
      rbtMin s = (Ret (inl TreeIsEmpty), s)
      ∧ rbtMax s = (Ret (inl TreeIsEmpty), s)
  end.
Proof.
  intros Hwf es.
  destruct (wellFormed_unpack s Hwf)
    as (tn & ts & En & Es & Hn & Hpn & Hs & Hps & Hnd & Hbn & Hbs).
  subst es. rewrite En, Es. cbn [entriesOf].
  destruct (elems tn ++ elems ts) as [|e0 es0] eqn:Ees.
  - apply app_nil in Ees as [->%elems_nil ->%elems_nil]. cbn [head].
    by rewrite (rbtMin_wf s Leaf Leaf Hwf En Es),
               (rbtMax_wf s Leaf Leaf Hwf En Es).
  - rewrite <- Ees.
    assert (elems tn ++ elems ts ≠ []) as Hne by congruence.
    destruct (minTree_maxTree_node _ _ Hne) as [Hmin Hmax].
    rewrite (rbtMin_node s tn ts Hwf En Es Hmin),
            (rbtMax_node s tn ts Hwf En Es Hmax).
    assert (head (elems tn ++ elems ts) = entryT (minT (minTree tn ts))) as ->.
    { destruct tn as [|a l k v c sz r]; [by rewrite <- minT_head|].
      rewrite <- minT_head. cbn [minTree].
      destruct (elems (Node a l k v c sz r)) eqn:E; [|done].
      by apply elems_nil in E. }
    assert (last (elems tn ++ elems ts) = entryT (maxT (maxTree tn ts))) as ->.
    { destruct ts as [|a l k v c sz r].
      - rewrite <- maxT_last. cbn [maxTree elems]. by rewrite app_nil_r.
      - rewrite <- maxT_last. cbn [maxTree]. rewrite last_app.
        destruct (last (elems (Node a l k v c sz r))) eqn:E; [done|].
        apply last_None in E. by apply elems_nil in E. }
    assert (rep (store s) (minTree tn ts)) as Hrmin by by destruct tn.
    assert (rep (store s) (maxTree tn ts)) as Hrmax by by destruct ts.
    apply minT_rep in Hrmin. apply maxT_rep in Hrmax.
    apply minT_node in Hmin. apply maxT_node in Hmax.
    destruct (minT (minTree tn ts)) as [|b1 ? ? ? ? ? ?]; [done|].
    destruct (maxT (maxTree tn ts)) as [|b2 ? ? ? ? ? ?]; [done|].
    cbn [entryT ptr]. destruct Hrmin as (H1 & _), Hrmax as (H2 & _).
    eexists b1, _, b2, _. split_and!; try done.
Qed.

Lemma X17_min_and_max_are_the_ends_of_the_entries_witness :
  ∃ a1 n1 a2 n2,
    rbtMin sampleTable = (Ret (inr (Some a1)), sampleTable)
    ∧ store sampleTable !! a1 = Some n1
    ∧ (key n1, value n1) = (JNum 1, JNum 10)
    ∧ rbtMax sampleTable = (Ret (inr (Some a2)), sampleTable)
    ∧ store sampleTable !! a2 = Some n2
    ∧ (key n2, value n2) = (JStr "bb", JNum 0).
Proof.
  apply (X17_min_and_max_are_the_ends_of_the_entries sampleTable). by_eval.
Defined.

(** ** [height] *)

Lemma rbtHeight_node t fuel s :
  rep (store s) t → t ≠ Leaf →
  rbtHeight (S fuel) (ptr t) s = (Ret (sizeAtT t), s).
Proof.
  destruct t as [|a l k v c sz r]; [done|]. intros (Ha & _) _.
  cbn [rbtHeight ptr sizeAtT]. by erewrite getf_eq by exact Ha.
Qed.

(** The two calls on the children of one root. *)
Lemma rbtHeight_children {B} getRoot t fuel s (k : Z → Z → M B) :
  getRoot s = (Ret (ptr t), s) → rep (store s) t → childCount t ≠ None →
  (a <- (r0 <- getRoot ;; l <- getf left r0 ;; rbtHeight (S fuel) l) ;;
   b <- (r0 <- getRoot ;; r <- getf right r0 ;; rbtHeight (S fuel) r) ;;
   k a b) s
  = k (sizeAtT (leftT t)) (sizeAtT (rightT t)) s.
Proof.
  intros Hget Hrep Hm.
  destruct t as [|a l kk v c sz r]; [done|].
  destruct l as [|la ll lk lv lc lsz lr]; [done|].
  destruct r as [|ra rl rk rv rc rsz rr]; [done|].
  destruct Hrep as (Ha & Hl' & Hr'). cbn [ptr] in *.
  rewrite bind_assoc, (bind_eq _ _ _ _ _ Hget).
  rewrite bind_assoc. erewrite bind_getf by exact Ha. cbn [left].
  erewrite bind_eq by (by apply (rbtHeight_node (Node la ll lk lv lc lsz lr))).
  rewrite bind_assoc, (bind_eq _ _ _ _ _ Hget).
  rewrite bind_assoc. erewrite bind_getf by exact Ha. cbn [right].
  erewrite bind_eq by (by apply (rbtHeight_node (Node ra rl rk rv rc rsz rr))).
  done.
Qed.

Lemma childCount_sized t m :
  sized t = true → childCount t = Some m →
  Z.max (sizeAtT (leftT t)) (sizeAtT (rightT t)) = m.
Proof.
  intros Hsz Hm. destruct t as [|a l k v c sz r]; [done|].
  cbn [sized] in Hsz.
  apply andb_true_iff in Hsz as [[_ Hl]%andb_true_iff Hr].
  apply sized_count in Hl, Hr. cbn [leftT rightT]. rewrite Hl, Hr.
  destruct l; [done|]. destruct r; [done|]. by injection Hm as <-.
Qed.

Lemma rbtHeight_children_loop {B} getRoot t fuel s (k : Z → Z → M B) :
  getRoot s = (Ret (ptr t), s) → rep (store s) t → t ≠ Leaf →
  childCount t = None →
  rbtHeight fuel None s = (OutOfFuel, s) →
  (a <- (r0 <- getRoot ;; l <- getf left r0 ;; rbtHeight fuel l) ;;
   b <- (r0 <- getRoot ;; r <- getf right r0 ;; rbtHeight fuel r) ;;
   k a b) s
  = (OutOfFuel, s).
Proof.
  intros Hget Hrep Hne Hm Hloop.
  destruct t as [|a l kk v c sz r]; [done|].
  destruct Hrep as (Ha & Hl' & Hr'). cbn [ptr] in *.
  rewrite bind_assoc, (bind_eq _ _ _ _ _ Hget).
  rewrite bind_assoc. erewrite bind_getf by exact Ha. cbn [left].
  destruct l as [|la ll lk lv lc lsz lr].
  { cbn [ptr]. unfold bind at 1. by rewrite Hloop. }
  destruct fuel as [|fuel]; [done|].
  erewrite bind_eq by (by apply (rbtHeight_node (Node la ll lk lv lc lsz lr))).
  rewrite bind_assoc, (bind_eq _ _ _ _ _ Hget).
  rewrite bind_assoc. erewrite bind_getf by exact Ha. cbn [right].
  destruct r as [|ra rl rk rv rc rsz rr]; [|done].
  cbn [ptr]. unfold bind at 1. by rewrite Hloop.
Qed.

Lemma bind_outOfFuel_eq {A B} (m : M A) (k : A → M B) s s' :
  m s = (OutOfFuel, s') → bind m k s = (OutOfFuel, s').
Proof. unfold bind. by intros ->. Qed.

Lemma getNumberRoot_ptr s t :
  ptr t = numberRoot s → getNumberRoot s = (Ret (ptr t), s).
Proof. by intros ->. Qed.

Lemma getStringRoot_ptr s t :
  ptr t = stringRoot s → getStringRoot s = (Ret (ptr t), s).
Proof. by intros ->. Qed.

(** The tests that open a call of [height] without a node. *)
Lemma rbtHeight_roots s tn ts fuel :
  ptr tn = numberRoot s → ptr ts = stringRoot s →
  rbtHeight (S fuel) None s
  = match tn, ts with
    | Leaf, Leaf => (Ret 0, s)
    | Leaf, _ =>
        (a <- (s <- getStringRoot ;; l <- getf left s ;; rbtHeight fuel l) ;;
         b <- (s <- getStringRoot ;; r <- getf right s ;; rbtHeight fuel r) ;;
         ret (1 + Z.max a b)) s
    | _, Leaf =>
        (a <- (n <- getNumberRoot ;; l <- getf left n ;; rbtHeight fuel l) ;;
         b <- (n <- getNumberRoot ;; r <- getf right n ;; rbtHeight fuel r) ;;
         ret (1 + Z.max a b)) s
    | _, _ =>
        (strings <-
           (a <- (s <- getStringRoot ;; l <- getf left s ;; rbtHeight fuel l) ;;
            b <- (s <- getStringRoot ;; r <- getf right s ;; rbtHeight fuel r) ;;
            ret (Z.max a b)) ;;
         numbers <-
           (a <- (n <- getNumberRoot ;; l <- getf left n ;; rbtHeight fuel l) ;;
            b <- (n <- getNumberRoot ;; r <- getf right n ;; rbtHeight fuel r) ;;
            ret (Z.max a b)) ;;
         ret (1 + strings + numbers)) s
    end.
Proof.
  intros Hpn Hps. destruct s as [h nr sr idx].
  cbn [numberRoot stringRoot] in *. subst nr sr.
  destruct tn, ts; reflexivity.
Qed.

(** X18.  [height()] never returns on a well-formed table in which a
    root has a missing child (a table with a single key, for one): the
    call for the missing child is a call with [null], which looks at the
    roots again, so the calls nest without end, whatever depth the
    engine allows. *)
Theorem X18_height_does_not_return_when_a_root_lacks_a_child s tn ts :
  wellFormed s = true → numberTree s = Some tn → stringTree s = Some ts →
  heightResult tn ts = None →
  ∀ fuel, rbtHeight fuel None s = (OutOfFuel, s).
Proof.
  intros Hwf En0 Es0 Hres fuel.
  destruct (wellFormed_unpack s Hwf)
    as (tn' & ts' & En & Es & Hn & Hpn & Hs & Hps & _).
  assert (tn' = tn) as -> by congruence. assert (ts' = ts) as -> by congruence.
  pose proof (getNumberRoot_ptr s tn Hpn) as Hgn.
  pose proof (getStringRoot_ptr s ts Hps) as Hgs.
  induction fuel as [|fuel IH]; [done|].
  rewrite (rbtHeight_roots s tn ts fuel Hpn Hps).
  destruct tn as [|a1 l1 k1 v1 c1 z1 r1] eqn:Etn,
           ts as [|a2 l2 k2 v2 c2 z2 r2] eqn:Ets; try done;
    rewrite <- ?Etn, <- ?Ets in *.
  - apply (rbtHeight_children_loop getStringRoot ts); subst; try done.
    cbn [heightResult] in Hres. by destruct (childCount _).
  - apply (rbtHeight_children_loop getNumberRoot tn); subst; try done.
    cbn [heightResult] in Hres. by destruct (childCount _).
  - assert (heightResult tn ts
            = match childCount ts, childCount tn with
              | Some a, Some b => Some (1 + a + b)
              | _, _ => None
              end) as Hh by by subst.
    rewrite Hh in Hres.
    destruct (childCount ts) as [m2|] eqn:E2.
    + destruct fuel as [|fuel].
      { apply bind_outOfFuel_eq.
        rewrite bind_assoc, (bind_eq _ _ _ _ _ Hgs).
        subst ts. destruct Hs as (Ha & _). cbn [ptr].
        rewrite bind_assoc. by erewrite bind_getf by exact Ha. }
      erewrite bind_eq;
        [|apply (rbtHeight_children getStringRoot ts fuel s
                  (λ a b, ret (Z.max a b))); [done|done|by rewrite E2]].
      assert (childCount tn = None) as E1 by by destruct (childCount tn).
      apply bind_outOfFuel_eq.
      apply (rbtHeight_children_loop getNumberRoot tn); subst; done.
    + apply bind_outOfFuel_eq.
      apply (rbtHeight_children_loop getStringRoot ts); subst; done.
Qed.

Lemma X18_height_does_not_return_when_a_root_lacks_a_child_witness :
  rbtHeight 100 None oneNumberTable = (OutOfFuel, oneNumberTable).
Proof.
  apply (X18_height_does_not_return_when_a_root_lacks_a_child
           oneNumberTable (default Leaf (numberTree oneNumberTable)) Leaf);
    by_eval.
Defined.

(** X19.  When [height()] returns, the number is not a height: on an
    empty table it is 0; on a table built so that every root has both
    children it is 1 plus the larger of the entry counts of the two
    subtrees of the root (the [size] fields of the root's children), and
    with keys of both types 1 plus that number for the string tree plus
    that number for the number tree. *)
Theorem X19_height_returns_subtree_sizes s tn ts z fuel :
  wellFormed s = true → sizedTable s = true →
  numberTree s = Some tn → stringTree s = Some ts →
  heightResult tn ts = Some z →
  rbtHeight (S (S fuel)) None s = (Ret z, s).
Proof.
  intros Hwf Hsz En0 Es0 Hres.
  destruct (wellFormed_unpack s Hwf)
    as (tn' & ts' & En & Es & Hn & Hpn & Hs & Hps & _).
  assert (tn' = tn) as -> by congruence. assert (ts' = ts) as -> by congruence.
  unfold sizedTable in Hsz. rewrite En, Es in Hsz.
  apply andb_true_iff in Hsz as [Hszn Hszs].
  pose proof (getNumberRoot_ptr s tn Hpn) as Hgn.
  pose proof (getStringRoot_ptr s ts Hps) as Hgs.
  rewrite (rbtHeight_roots s tn ts (S fuel) Hpn Hps).
  destruct tn as [|a1 l1 k1 v1 c1 z1 r1] eqn:Etn,
           ts as [|a2 l2 k2 v2 c2 z2 r2] eqn:Ets;
    rewrite <- ?Etn, <- ?Ets in *.
  - subst. by injection Hres as <-.
  - assert (heightResult tn ts = (λ m, 1 + m) <$> childCount ts) as Hh
      by by subst.
    rewrite Hh in Hres. destruct (childCount ts) as [m2|] eqn:E2; [|done].
    injection Hres as <-.
    rewrite (rbtHeight_children getStringRoot ts); [|done|done|by rewrite E2].
    by rewrite (childCount_sized _ _ Hszs E2).
  - assert (heightResult tn ts = (λ m, 1 + m) <$> childCount tn) as Hh
      by by subst.
    rewrite Hh in Hres. destruct (childCount tn) as [m1|] eqn:E1; [|done].
    injection Hres as <-.
    rewrite (rbtHeight_children getNumberRoot tn); [|done|done|by rewrite E1].
    by rewrite (childCount_sized _ _ Hszn E1).
  - assert (heightResult tn ts
            = match childCount ts, childCount tn with
              | Some a, Some b => Some (1 + a + b)
              | _, _ => None
              end) as Hh by by subst.
    rewrite Hh in Hres.
    destruct (childCount ts) as [m2|] eqn:E2; [|done].
    destruct (childCount tn) as [m1|] eqn:E1; [|done].
    injection Hres as <-.
    erewrite bind_eq;
      [|apply (rbtHeight_children getStringRoot ts fuel s
                  (λ a b, ret (Z.max a b))); [done|done|by rewrite E2]].
    erewrite bind_eq;
      [|apply (rbtHeight_children getNumberRoot tn fuel s
                  (λ a b, ret (Z.max a b))); [done|done|by rewrite E1]].
    by rewrite (childCount_sized _ _ Hszs E2), (childCount_sized _ _ Hszn E1).
Qed.

Lemma X19_height_returns_subtree_sizes_witness :
  rbtHeight 2 None threeTable = (Ret 2, threeTable).
Proof.
  apply (X19_height_returns_subtree_sizes threeTable
           (default Leaf (numberTree threeTable)) Leaf 2 0);
    by_eval.
Defined.

(** ** Rotations and the fix-up of [putRecv] *)

(** X20.  [fixRightLining] never changes the order of the entries: called
    on the root of a subtree, it returns the root of a subtree with the
    same node objects and the same entries from left to right, and it
    touches no node object outside the subtree.  (What it can leave
    wrong are the colours, not the search order.) *)
Theorem X20_fixRightLining_keeps_the_entries_in_order s t :
  t ≠ Leaf → rep (store s) t → NoDup (addrs t) →
  ∃ h' t',
    fixRightLining (ptr t) s = (Ret (ptr t'), withStore s h')
    ∧ rep h' t'
    ∧ elems t' = elems t
    ∧ addrs t' ≡ₚ addrs t
    ∧ footprint (addrs t) (store s) h'.
Proof.
  intros Hne Hrep Hnd.
  destruct (fixRightLining_rep s t Hne Hrep Hnd) as (h' & Hrun & Hrep' & Hfp).
  exists h', (fixRightLiningT t). split_and!; try done.
  - apply fixRightLiningT_elems.
  - apply fixRightLiningT_addrs.
Qed.

Lemma X20_fixRightLining_keeps_the_entries_in_order_witness :
  let t := default Leaf (numberTree sampleTable) in
  ∃ h' t',
    fixRightLining (ptr t) sampleTable = (Ret (ptr t'), withStore sampleTable h')
    ∧ rep h' t'
    ∧ elems t' = elems t
    ∧ addrs t' ≡ₚ addrs t
    ∧ footprint (addrs t) (store sampleTable) h'.
Proof.
  intros t.
  apply (X20_fixRightLining_keeps_the_entries_in_order sampleTable t).
  - vm_compute. discriminate.
  - vm_compute. repeat split.
  - apply (bool_decide_unpack _). vm_compute. exact I.
Defined.

Lemma footprint_same_list (A : list addr) (h h' : list RedBlackNode) :
  footprint A h h' → (∀ p, p ∈ A → h' !! p = h !! p) → h' = h.
Proof.
  intros [Hlen Hfp] Hin. apply list_eq. intros p.
  destruct (decide (p ∈ A)); auto.
Qed.

(** X21.  A rotation to the right undoes a rotation to the left: on a
    node whose right child is red and carries its size, [rotateLeft]
    followed by [rotateRight] on its result returns the node it started
    from and leaves every node object as it was.  (And [rotateLeft]
    needs a right child: without one it throws a [TypeError] before it
    changes anything.) *)
Theorem X21_rotateRight_undoes_rotateLeft s a l k v c sz b xl xk xv xsz xr :
  let t := Node a l k v c sz (Node b xl xk xv RED xsz xr) in
  rep (store s) t → NoDup (addrs t) →
  xsz = sizeAtT xl + sizeAtT xr + 1 →
  (x <- rotateLeft (Some a) ;; rotateRight x) s = (Ret (Some a), s)
  ∧ ∀ s0 n, store s0 !! a = Some n → right n = None →
            rotateLeft (Some a) s0 = (Throw TypeError, s0).
Proof.
  intros t Hrep Hnd Hsz. split.
  - destruct (rotateLeft_rep s a l k v c sz b xl xk xv RED xsz xr Hrep Hnd)
      as (h1 & Hrun1 & Hrep1 & Hfp1).
    rewrite (bind_eq _ _ _ _ _ Hrun1).
    cbn [rotateLeftT] in Hrep1.
    assert (NoDup (addrs (Node b (Node a l k v RED (sizeAtT l + sizeAtT xl + 1)
                                       xl) xk xv c sz xr))) as Hnd1.
    { revert Hnd. apply NoDup_Permutation_proper. simpl. solve_Permutation. }
    destruct (rotateRight_rep (withStore s h1) b a l k v RED
                (sizeAtT l + sizeAtT xl + 1) xl xk xv c sz xr Hrep1 Hnd1)
      as (h2 & Hrun2 & Hrep2 & Hfp2).
    rewrite Hrun2. cbn [rotateRightT] in Hrep2. rewrite <- Hsz in Hrep2.
    assert (h2 = store s) as ->.
    { apply (footprint_same_list [a; b]).
      - eapply footprint_trans; [exact Hfp1|].
        eapply footprint_weaken; [|exact Hfp2].
        intros p. rewrite !elem_of_cons. tauto.
      - destruct Hrep as (Ha & _ & Hb & _), Hrep2 as (Ha2 & _ & Hb2 & _).
        intros p [->|[->|[]%elem_of_nil]%elem_of_cons]%elem_of_cons;
          congruence. }
    by destruct s.
  - intros s0 n Hn Hr. unfold rotateLeft.
    erewrite bind_getf by exact Hn. rewrite Hr.
    by destruct s0.
Qed.

Lemma X21_rotateRight_undoes_rotateLeft_witness :
  let s := mkRbt [ mkNode None (Some 1%nat) (JNum 1) (JNum 10) BLACK 2;
                   mkNode None None (JNum 2) (JNum 20) RED 1 ]
                 (Some 0%nat) None ∅ in
  (x <- rotateLeft (Some 0%nat) ;; rotateRight x) s = (Ret (Some 0%nat), s).
Proof.
  intros s.
  apply (X21_rotateRight_undoes_rotateLeft s 0%nat Leaf (JNum 1) (JNum 10)
           BLACK 2 1%nat Leaf (JNum 2) (JNum 20) 1 Leaf).
  - vm_compute. repeat split.
  - apply (bool_decide_unpack _). vm_compute. exact I.
  - reflexivity.
Defined.

(** ** Two more edges of [put] *)

(** *** A value named like a member of [Object.prototype] *)

Lemma putRecv_inherited ty n len t : ∀ fuel s,
  ty = TNumber ∨ ty = TString → typeof (key n) = ty → keysTyped ty t →
  rep (store s) t → (height t < fuel)%nat →
  findT t (key n) = None →
  indexSlot (invertedIndex s) (value n) = SlotInherited len →
  putRecv fuel (ptr t) n s = (Throw TypeError, s).
Proof.
  induction t as [|a l IHl k v c sz r IHr];
    intros fuel s Hty Hn Hkeys Hrep Hfuel Hfind Hslot;
    (destruct fuel as [|fuel]; [simpl in Hfuel; lia|]).
  - cbn [putRecv ptr]. apply bind_throw_eq. unfold indexAdd. by rewrite Hslot.
  - apply keysTyped_node in Hkeys as (Hkl & Hk & Hkr).
    pose proof Hrep as (Ha & Hl & Hr). simpl in Hfuel.
    cbn [putRecv ptr]. msteps.
    rewrite (bind_lift _ _ _ _ (compareTo_typed _ _ _ Hty Hn Hk)).
    cbn [findT] in Hfind.
    destruct (bool_decide_reflect (cmpKeys (key n) k < 0)) as [C1|C1].
    + msteps. apply bind_throw_eq. apply IHl; auto. lia.
    + destruct (bool_decide_reflect (cmpKeys (key n) k > 0)) as [C2|C2];
        [|done].
      msteps. apply bind_throw_eq. apply IHr; auto. lia.
Qed.

(** X23.  A value whose property name is that of a member of
    [Object.prototype] ("constructor", "toString", "valueOf", ...)
    cannot be put under a new key: on a well-formed table whose index
    has no key set of that name, [put(k, v)] for a storable key that
    compares equal to no key of its tree throws a [TypeError] (the
    inherited member has no [add]), and the table is as before. *)
Theorem X23_put_refuses_values_named_like_object_members now s k v len :
  wellFormed s = true → storableKey k = true →
  lookupE k (routedEntries s k) = None →
  indexSlot (invertedIndex s) (storedValue v) = SlotInherited len →
  put now k v s = (Throw TypeError, s).
Proof.
  intros Hwf Hk Hnew Hslot.
  destruct (wellFormed_unpack s Hwf)
    as (tn & ts & En & Es & Hn & Hpn & Hs & Hps & Hnd & Hbn & Hbs).
  pose proof Hnd as (Hndn & _ & Hnds)%NoDup_app.
  pose proof (storableKey_keyOk k Hk) as Hok.
  unfold routedEntries in Hnew. rewrite En, Es in Hnew. cbn [entriesOf] in Hnew.
  unfold put.
  assert (isNullish k = false) as -> by by destruct k.
  rewrite bind_ret.
  rewrite (bind_lift _ _ _ _ (newRedBlackNode_put k v Hk)).
  set (n := mkNode None None k (storedValue v) RED 1).
  destruct k as [| | |z|str|]; try done.
  - rewrite bool_decide_true by done. apply bind_throw_eq.
    this_step. rewrite <- Hpn. apply bind_throw_eq.
    apply (putRecv_inherited TNumber n len);
      eauto using keysTyped_bst, rep_fuel.
    by rewrite (findT_lookupE TNumber).
  - rewrite bool_decide_false by done. rewrite bind_ret.
    rewrite bool_decide_true by done.
    this_step. rewrite <- Hps. apply bind_throw_eq.
    apply (putRecv_inherited TString n len);
      eauto using keysTyped_bst, rep_fuel.
    by rewrite (findT_lookupE TString).
Qed.

Lemma X23_put_refuses_values_named_like_object_members_witness :
  put 0 (JNum 9) (JStr "constructor") sampleTable
  = (Throw TypeError, sampleTable).
Proof.
  apply (X23_put_refuses_values_named_like_object_members
           0 sampleTable (JNum 9) (JStr "constructor") 1%nat); by_eval.
Defined.

(** *** The empty string as a key *)

Lemma cmpKeys_empty k : typeof k = TString → cmpKeys (JStr "") k = 0.
Proof. destruct k as [| | | |str|]; try done. by destruct str. Qed.

(** X22.  [put("", v)] does not store a key "": on a well-formed table
    with string keys, it overwrites the value of the key at the root of
    the string tree (the empty string decodes to [NaN], which compares
    equal to every key) and adds no entry; the number entries stay, and
    the index lists "" under [v] although no entry has that key. *)
Theorem X22_put_with_the_empty_string_overwrites_the_root now s v a l k0 v0 c sz r :
  wellFormed s = true →
  stringTree s = Some (Node a l k0 v0 c sz r) →
  indexable (storedValue v) →
  ∃ s', put now (JStr "") v s = (Ret tt, s')
        ∧ wellFormed s' = true
        ∧ entriesOf (numberTree s') = entriesOf (numberTree s)
        ∧ entriesOf (stringTree s')
          = elems l ++ (k0, storedValue v) :: elems r
        ∧ JStr "" ∈ indexKeys s' (storedValue v).
Proof.
  intros Hwf Es [_ Hown].
  destruct (wellFormed_trees s Hwf) as (tn & ts & En & Es').
  rewrite Es in Es'. injection Es' as <-.
  destruct (wellFormed_unpack s Hwf)
    as (tn' & ts' & _ & Es' & _ & _ & _ & _ & _ & _ & Hbs).
  rewrite Es in Es'. injection Es' as <-.
  assert (typeof k0 = TString) as Hk0.
  { apply bst_typed in Hbs. rewrite Forall_forall in Hbs.
    apply (Hbs (k0, v0)). simpl. apply elem_of_app. right.
    apply elem_of_cons. by left. }
  assert (elems (putTree s (Node a l k0 v0 c sz r) (JStr "") v)
          = elems l ++ (k0, storedValue v) :: elems r) as Hel.
  { unfold putTree. rewrite elems_setColorT. cbn [putRecvT key value].
    rewrite (cmpKeys_empty k0 Hk0).
    rewrite !bool_decide_false by lia.
    by rewrite elems_setSizeT, fixRightLiningT_elems. }
  destruct (put_string_trees now s "" v tn (Node a l k0 v0 c sz r))
    as (s' & Hrun & Hwf' & En' & Es' & Hidx); try done.
  { destruct Hbs as [Hok Hs]. split.
    - rewrite Hel. simpl in Hok. apply Forall_app in Hok as [Hl Hr].
      apply Forall_cons in Hr as [Hk Hr]. apply Forall_app. split; [done|].
      by apply Forall_cons.
    - rewrite Hel. revert Hs. unfold ranks. simpl.
      by rewrite !fmap_app, !fmap_cons. }
  exists s'. split_and!; try done.
  - by rewrite En', En.
  - by rewrite Es'.
  - unfold indexKeys. rewrite Hidx, indexAddT_lookup.
    rewrite bool_decide_true by done. apply setAdd_elem. by right.
Qed.

Lemma X22_put_with_the_empty_string_overwrites_the_root_witness :
  ∃ s', put 0 (JStr "") (JNum 99) oneStringTable = (Ret tt, s')
        ∧ wellFormed s' = true
        ∧ entriesOf (numberTree s') = entriesOf (numberTree oneStringTable)
        ∧ entriesOf (stringTree s') = [] ++ (JStr "k", JNum 99) :: []
        ∧ JStr "" ∈ indexKeys s' (JNum 99).
Proof.
  apply (X22_put_with_the_empty_string_overwrites_the_root
           0 oneStringTable (JNum 99) 0%nat Leaf (JStr "k") (JNum 70)
           BLACK 1 Leaf); by_eval.
Defined.

(** ** The search order under [put], [find] by key, [removeMinFrom] *)

(** X24.  [put] keeps the search order whatever it does to the colours:
    on a well-formed table, [put(k, v)] of a storable key returns and
    leaves a well-formed table (both trees in strictly ascending key
    order, sharing no node); the entries of the tree of [k]'s type are
    the old ones with [(k, v)] inserted in order, or with the value of the
    entry that compares equal to [k] replaced, and the entries of the
    other tree are the old ones. *)
Theorem X24_put_keeps_both_trees_in_search_order now s k v :
  wellFormed s = true → storableKey k = true → indexable (storedValue v) →
  ∃ s', put now k v s = (Ret tt, s')
        ∧ wellFormed s' = true
        ∧ entriesOf (numberTree s')
          = (if bool_decide (typeof k = TNumber)
             then insE k (storedValue v) (entriesOf (numberTree s))
             else entriesOf (numberTree s))
        ∧ entriesOf (stringTree s')
          = (if bool_decide (typeof k = TString)
             then insE k (storedValue v) (entriesOf (stringTree s))
             else entriesOf (stringTree s)).
Proof.
  intros Hwf Hk [_ Hown].
  destruct (put_spec now s k v Hwf Hk Hown) as (s' & Hrun & Hwf' & Hent & _).
  exists s'. split; [done|]. split; [done|].
  pose proof (Hent (JNum 0)) as Hn. pose proof (Hent (JStr "a")) as Hs.
  unfold routedEntries in Hn, Hs. cbn [typeof] in Hn, Hs.
  rewrite Hn, Hs. clear Hn Hs Hent.
  split; repeat case_bool_decide; congruence.
Qed.

Lemma X24_put_keeps_both_trees_in_search_order_witness :
  ∃ s', put 0 (JNum 9) (JNum 30) sampleTable = (Ret tt, s')
        ∧ wellFormed s' = true
        ∧ entriesOf (numberTree s')
          = (if bool_decide (typeof (JNum 9) = TNumber)
             then insE (JNum 9) (storedValue (JNum 30))
                       (entriesOf (numberTree sampleTable))
             else entriesOf (numberTree sampleTable))
        ∧ entriesOf (stringTree s')
          = (if bool_decide (typeof (JNum 9) = TString)
             then insE (JNum 9) (storedValue (JNum 30))
                       (entriesOf (stringTree sampleTable))
             else entriesOf (stringTree sampleTable)).
Proof.
  apply (X24_put_keeps_both_trees_in_search_order 0 sampleTable (JNum 9)
           (JNum 30)); by_eval.
Defined.

(** X25.  [find({ key: k })] on a well-formed table, for a truthy number
    or string key: the result is the value of the entry that compares
    equal to [k], or [null] when the tree of [k]'s type has none.  And
    [find] only reads: whatever it is called with, in whatever state, and
    whether it returns or throws, the table is as before. *)
Theorem X25_find_by_key_reads_the_entry s k :
  wellFormed s = true → searchableKey k = true →
  find k JUndefined s
  = (Ret (FValue (match lookupE k (routedEntries s k) with
                  | Some (_, v) => v
                  | None => JNull
                  end)), s)
  ∧ ∀ k1 v1 s0 o s1, find k1 v1 s0 = (o, s1) → s1 = s0.
Proof.
  intros Hwf Hk. split.
  - by rewrite find_key_spec.
  - intros k1 v1 s0 o s1. apply readOnly_find.
Qed.

Lemma X25_find_by_key_reads_the_entry_witness :
  find (JNum 3) JUndefined sampleTable = (Ret (FValue (JNum 30)), sampleTable)
  ∧ find (JNum 9) JUndefined sampleTable = (Ret (FValue JNull), sampleTable).
Proof.
  split.
  - destruct (X25_find_by_key_reads_the_entry sampleTable (JNum 3))
      as [H _]; [by_eval..|].
    rewrite H. vm_compute. reflexivity.
  - destruct (X25_find_by_key_reads_the_entry sampleTable (JNum 9))
      as [H _]; [by_eval..|].
    rewrite H. vm_compute. reflexivity.
Defined.

(** X26.  [removeMinFrom] does not remove the minimum: called on a node
    whose left child is there and is red (or has a red left child), and
    whose right child is not red, it cuts off the whole left subtree
    ([removeMin] has an empty body, so the left link becomes
    [undefined]) and returns the node with its size set anew; the node
    and its right subtree are what is left. *)
Theorem X26_removeMinFrom_cuts_off_the_left_subtree s a l k v c sz r :
  let t := Node a l k v c sz r in
  rep (store s) t → NoDup (addrs t) →
  l ≠ Leaf → isRedT l || isRedT (leftT l) = true → isRedT r = false →
  ∃ h', removeMinFrom (Some a) s = (Ret (Some a), withStore s h')
        ∧ rep h' (Node a Leaf k v c (sizeAtT r + 1) r)
        ∧ footprint [a] (store s) h'.
Proof.
  intros t Hrep Hnd Hl Hred Hr.
  pose proof Hrep as (Ha & Hrl & Hrr).
  assert (a ∉ addrs r) as Har by nd Hnd.
  destruct l as [|b ll lk lv lc lsz lr]; [done|].
  pose proof Hrl as (Hb & Hrll & _).
  unfold removeMinFrom, removeMin.
  msteps. rewrite bool_decide_false by done.
  assert (andM (notM (l0 <- getf left (Some a) ;; isRed l0))
               (notM (l0 <- getf left (Some a) ;; ll0 <- getf left l0 ;;
                      isRed ll0)) s = (Ret false, s)) as Hc.
  { unfold andM, notM. msteps. cbn [isRedT leftT] in Hred.
    destruct (strictEq lc RED) eqn:E; cbn [negb].
    - by msteps.
    - cbn [orb] in Hred. by msteps. }
  rewrite (bind_eq _ _ _ _ _ Hc).
  unfold balance, andM. msteps.
  repeat (cbn [isRed sizeAt negb andb]; msteps).
  eexists. split; [reflexivity|]. split.
  - simpl. split_and!.
    + by rewrite list_lookup_insert_eq
        by (rewrite ?length_insert; eauto using lookup_lt_Some).
    + done.
    + apply rep_insert; [|done]. by apply rep_insert.
  - solve_footprint.
Qed.

Lemma X26_removeMinFrom_cuts_off_the_left_subtree_witness :
  let s := mkRbt [ mkNode (Some 1%nat) (Some 2%nat) (JNum 5) (JNum 50) BLACK 3;
                   mkNode None None (JNum 3) (JNum 30) RED 1;
                   mkNode None None (JNum 8) (JNum 80) BLACK 1 ]
                 (Some 0%nat) None ∅ in
  let r := Node 2%nat Leaf (JNum 8) (JNum 80) BLACK 1 Leaf in
  ∃ h', removeMinFrom (Some 0%nat) s = (Ret (Some 0%nat), withStore s h')
        ∧ rep h' (Node 0%nat Leaf (JNum 5) (JNum 50) BLACK (sizeAtT r + 1) r)
        ∧ footprint [0%nat] (store s) h'.
Proof.
  intros s r.
  apply (X26_removeMinFrom_cuts_off_the_left_subtree s 0%nat
           (Node 1%nat Leaf (JNum 3) (JNum 30) RED 1 Leaf)
           (JNum 5) (JNum 50) BLACK 3 r).
  - vm_compute. repeat split.
  - apply (bool_decide_unpack _). vm_compute. exact I.
  - discriminate.
  - reflexivity.
  - reflexivity.
Defined.

(** ** The fix-up of the removal methods *)

Lemma bind_eq2 {A B C} (m : M A) (f : A → M B) (k : B → M C) s b s' :
  bind m f s = (Ret b, s') → bind m (λ a, bind (f a) k) s = k b s'.
Proof. intros H. rewrite <- bind_assoc. by apply bind_eq. Qed.

Lemma balance_rotateLeft s t :
  t ≠ Leaf → rep (store s) t → NoDup (addrs t) →
  let t1 := if isRedT (rightT t) then rotateLeftT t else t in
  ∃ h1, (c <- (r <- getf right (ptr t) ;; isRed r) ;;
         if c then rotateLeft (ptr t) else ret (ptr t)) s
        = (Ret (ptr t1), withStore s h1)
        ∧ rep h1 t1 ∧ footprint (addrs t) (store s) h1.
Proof.
  intros Hne Hrep Hnd. destruct t as [|a l k v c sz r]; [done|]. clear Hne.
  destruct s as [h0 nr sr idx]. norm.
  pose proof Hrep as (Ha & Hl & Hr).
  cbn [rightT]. msteps.
  destruct (isRedT r) eqn:Er; msteps.
  - destruct (isRedT_node _ Er) as (d & rl & rk & rv & rc & rsz & rr & ->).
    edestruct (rotateLeft_rep (mkRbt h0 nr sr idx))
      as (h1 & Hrun & Hrep1 & Hfp1); [exact Hrep|exact Hnd|].
    exists h1. split; [exact Hrun|]. split; [done|].
    eapply footprint_weaken; [|done]. intros p Hp. solve_elem.
  - exists h0. split; [done|]. split; [done|]. apply footprint_refl.
Qed.

Lemma balance_rotateRight s t :
  t ≠ Leaf → rep (store s) t → NoDup (addrs t) →
  let t2 := if isRedT (leftT t) && isRedT (leftT (leftT t))
            then rotateRightT t else t in
  ∃ h2, (c <- andM (l <- getf left (ptr t) ;; isRed l)
                   (l <- getf left (ptr t) ;; ll <- getf left l ;; isRed ll) ;;
         if c then rotateRight (ptr t) else ret (ptr t)) s
        = (Ret (ptr t2), withStore s h2)
        ∧ rep h2 t2 ∧ footprint (addrs t) (store s) h2.
Proof.
  intros Hne Hrep Hnd. destruct t as [|a l k v c sz r]; [done|]. clear Hne.
  destruct s as [h0 nr sr idx]. norm.
  pose proof Hrep as (Ha & Hl & Hr).
  cbn [leftT]. unfold andM. msteps.
  destruct (isRedT l) eqn:El; msteps.
  - destruct (isRedT_node _ El) as (b & ll & lk & lv & lc & lsz & lr & ->).
    pose proof Hl as (Hb & Hll & Hlr).
    cbn [leftT]. msteps.
    destruct (isRedT ll) eqn:Ell; msteps.
    + edestruct (rotateRight_rep (mkRbt h0 nr sr idx))
        as (h1 & Hrun & Hrep1 & Hfp1); [exact Hrep|exact Hnd|].
      exists h1. split; [exact Hrun|]. split; [done|].
      eapply footprint_weaken; [|done]. intros p Hp. solve_elem.
    + exists h0. split; [done|]. split; [done|]. apply footprint_refl.
  - exists h0. split; [done|]. split; [done|]. apply footprint_refl.
Qed.

Lemma balance_flipColors s t :
  t ≠ Leaf → rep (store s) t → NoDup (addrs t) →
  let t3 := if isRedT (leftT t) && isRedT (rightT t)
            then flipColorsT t else t in
  ∃ h3, (c <- andM (l <- getf left (ptr t) ;; isRed l)
                   (r <- getf right (ptr t) ;; isRed r) ;;
         if c then flipColors (ptr t) else ret tt) s
        = (Ret tt, withStore s h3)
        ∧ rep h3 t3 ∧ ptr t3 = ptr t ∧ footprint (addrs t) (store s) h3.
Proof.
  intros Hne Hrep Hnd. destruct t as [|a l k v c sz r]; [done|]. clear Hne.
  destruct s as [h0 nr sr idx]. norm.
  pose proof Hrep as (Ha & Hl & Hr).
  cbn [leftT rightT]. unfold andM. msteps.
  destruct (isRedT l) eqn:El; msteps.
  - destruct (isRedT r) eqn:Er; msteps.
    + destruct (isRedT_node _ El) as (b & ll & lk & lv & lc & lsz & lr & ->).
      destruct (isRedT_node _ Er) as (d & rl & rk & rv & rc & rsz & rr & ->).
      edestruct (flipColors_rep (mkRbt h0 nr sr idx))
        as (h1 & Hrun & Hrep1 & Hfp1); [exact Hrep|exact Hnd|].
      exists h1. split; [exact Hrun|]. split; [done|]. split; [done|].
      eapply footprint_weaken; [|done]. intros p Hp. solve_elem.
    + exists h0. split; [done|]. split_and!; [done..|]. apply footprint_refl.
  - exists h0. split; [done|]. split_and!; [done..|]. apply footprint_refl.
Qed.

Lemma balance_setSize s t :
  t ≠ Leaf → rep (store s) t → NoDup (addrs t) →
  ∃ h4, (a <- (hl <- getf left (ptr t) ;; sizeAt hl) ;;
         b <- (hr <- getf right (ptr t) ;; sizeAt hr) ;;
         setf (setSize (a + b + 1)) (ptr t) ;;
         ret (ptr t)) s
        = (Ret (ptr (setSizeT t)), withStore s h4)
        ∧ rep h4 (setSizeT t) ∧ footprint (addrs t) (store s) h4.
Proof.
  intros Hne Hrep Hnd. destruct t as [|a l k v c sz r]; [done|]. clear Hne.
  destruct s as [h0 nr sr idx]. norm.
  pose proof Hrep as (Ha & Hl & Hr).
  assert ((a ∉ addrs l) ∧ (a ∉ addrs r)) as [? ?] by nd Hnd.
  msteps.
  eexists. split; [reflexivity|]. split.
  - simpl. split_and!.
    + by rewrite list_lookup_insert_eq by eauto using lookup_lt_Some.
    + by apply rep_insert.
    + by apply rep_insert.
  - solve_footprint.
Qed.

Lemma balanceT_step_addrs t :
  addrs (if isRedT (rightT t) then rotateLeftT t else t) ≡ₚ addrs t
  ∧ addrs (if isRedT (leftT t) && isRedT (leftT (leftT t))
           then rotateRightT t else t) ≡ₚ addrs t
  ∧ addrs (if isRedT (leftT t) && isRedT (rightT t)
           then flipColorsT t else t) ≡ₚ addrs t.
Proof.
  destruct t as [|a l k v c sz r]; [done|]. cbn [leftT rightT].
  split_and!; case_colors;
    cbn [rotateLeftT rotateRightT flipColorsT flipT addrs];
    rewrite ?addrs_flipT; try done; solve_Permutation.
Qed.

Lemma balanceT_step_elems t :
  elems (if isRedT (rightT t) then rotateLeftT t else t) = elems t
  ∧ elems (if isRedT (leftT t) && isRedT (leftT (leftT t))
           then rotateRightT t else t) = elems t
  ∧ elems (if isRedT (leftT t) && isRedT (rightT t)
           then flipColorsT t else t) = elems t.
Proof.
  destruct t as [|a l k v c sz r]; [done|]. cbn [leftT rightT].
  split_and!; case_colors;
    cbn [rotateLeftT rotateRightT flipColorsT flipT elems];
    rewrite ?elems_flipT; try done; by simplify_list_eq.
Qed.

Lemma balanceT_step_sizedBelow t :
  sizedBelow t = true →
  sizedBelow (if isRedT (rightT t) then rotateLeftT t else t) = true
  ∧ sizedBelow (if isRedT (leftT t) && isRedT (leftT (leftT t))
                then rotateRightT t else t) = true
  ∧ sizedBelow (if isRedT (leftT t) && isRedT (rightT t)
                then flipColorsT t else t) = true.
Proof.
  destruct t as [|a l k v c sz r]; [done|]. cbn [leftT rightT]. intros Hs.
  split_and!; case_colors;
    cbn [rotateLeftT rotateRightT flipColorsT flipT]; sized_tac.
Qed.

Lemma balanceT_elems t : elems (balanceT t) = elems t.
Proof.
  unfold balanceT. cbv zeta. rewrite elems_setSizeT.
  rewrite (proj2 (proj2 (balanceT_step_elems _))).
  rewrite (proj1 (proj2 (balanceT_step_elems _))).
  apply (proj1 (balanceT_step_elems _)).
Qed.

Lemma balanceT_addrs t : addrs (balanceT t) ≡ₚ addrs t.
Proof.
  unfold balanceT. cbv zeta. rewrite addrs_setSizeT.
  etrans; [apply (proj2 (proj2 (balanceT_step_addrs _)))|].
  etrans; [apply (proj1 (proj2 (balanceT_step_addrs _)))|].
  apply (proj1 (balanceT_step_addrs _)).
Qed.

Lemma balanceT_sized t : sizedBelow t = true → sized (balanceT t) = true.
Proof.
  intros Hs. unfold balanceT. cbv zeta. apply setSizeT_sized.
  apply balanceT_step_sizedBelow. apply balanceT_step_sizedBelow.
  by apply balanceT_step_sizedBelow.
Qed.

Lemma perm_node (t t' : tree) : t ≠ Leaf → addrs t' ≡ₚ addrs t → t' ≠ Leaf.
Proof.
  intros Ht Hp ->. destruct t; [done|]. by apply Permutation_nil_cons in Hp.
Qed.

Lemma balance_rep s t :
  t ≠ Leaf → rep (store s) t → NoDup (addrs t) →
  ∃ h', balance (ptr t) s = (Ret (ptr (balanceT t)), withStore s h')
        ∧ rep h' (balanceT t)
        ∧ footprint (addrs t) (store s) h'.
Proof.
  intros Hne Hrep Hnd. unfold balance, balanceT.
  destruct (balanceT_step_addrs t) as (P1 & _ & _).
  destruct (balance_rotateLeft s t Hne Hrep Hnd) as (h1 & E1 & R1 & F1).
  set (t1 := if isRedT (rightT t) then rotateLeftT t else t) in *.
  assert (t1 ≠ Leaf) as N1 by by eapply perm_node.
  assert (NoDup (addrs t1)) as D1 by by rewrite P1.
  destruct (balanceT_step_addrs t1) as (_ & P2 & _).
  destruct (balance_rotateRight (withStore s h1) t1 N1 R1 D1)
    as (h2 & E2 & R2 & F2).
  set (t2 := if isRedT (leftT t1) && isRedT (leftT (leftT t1))
             then rotateRightT t1 else t1) in *.
  assert (t2 ≠ Leaf) as N2 by by eapply perm_node.
  assert (NoDup (addrs t2)) as D2 by by rewrite P2.
  destruct (balanceT_step_addrs t2) as (_ & _ & P3).
  destruct (balance_flipColors (withStore (withStore s h1) h2) t2 N2 R2 D2)
    as (h3 & E3 & R3 & Q3 & F3).
  set (t3 := if isRedT (leftT t2) && isRedT (rightT t2)
             then flipColorsT t2 else t2) in *.
  assert (t3 ≠ Leaf) as N3 by by eapply perm_node.
  assert (NoDup (addrs t3)) as D3 by by rewrite P3.
  destruct (balance_setSize
              (withStore (withStore (withStore s h1) h2) h3) t3 N3 R3 D3)
    as (h4 & E4 & R4 & F4).
  exists h4. split; [|split; [exact R4|]].
  - rewrite (bind_eq2 _ _ _ _ _ _ E1).
    rewrite (bind_eq2 _ _ _ _ _ _ E2).
    rewrite (bind_eq2 _ _ _ _ _ _ E3).
    rewrite <- Q3. exact E4.
  - cbn [store withStore] in *.
    eapply footprint_trans; [exact F1|].
    eapply footprint_trans.
    { eapply footprint_weaken; [|exact F2]. intros p Hp. by rewrite <- P1. }
    eapply footprint_trans.
    { eapply footprint_weaken; [|exact F3]. intros p Hp.
      by rewrite <- P1, <- P2. }
    eapply footprint_weaken; [|exact F4]. intros p Hp.
    by rewrite <- P1, <- P2, <- P3.
Qed.

(** X27.  [balance] keeps the order of the entries and closes with the
    size: called on the root of a subtree, it returns the root of a
    subtree with the same node objects and the same entries from left to
    right, touching no node object outside; and if the subtrees below
    the root carry their sizes, so does every node of the result, the
    root included, whose size is then the number of entries. *)
Theorem X27_balance_keeps_the_entries_and_sets_the_size s t :
  t ≠ Leaf → rep (store s) t → NoDup (addrs t) →
  ∃ h' t',
    balance (ptr t) s = (Ret (ptr t'), withStore s h')
    ∧ rep h' t'
    ∧ elems t' = elems t
    ∧ addrs t' ≡ₚ addrs t
    ∧ footprint (addrs t) (store s) h'
    ∧ (sizedBelow t = true →
       sized t' = true ∧ sizeAtT t' = Z.of_nat (length (elems t))).
Proof.
  intros Hne Hrep Hnd.
  destruct (balance_rep s t Hne Hrep Hnd) as (h' & Hrun & Hrep' & Hfp).
  exists h', (balanceT t). split_and!; try done.
  - apply balanceT_elems.
  - apply balanceT_addrs.
  - intros Hs. pose proof (balanceT_sized t Hs) as Hsz.
    split; [done|]. by rewrite sized_count, balanceT_elems.
Qed.

Lemma X27_balance_keeps_the_entries_and_sets_the_size_witness :
  let s := mkRbt [ mkNode None (Some 1%nat) (JNum 1) (JNum 10) BLACK 1;
                   mkNode None None (JNum 2) (JNum 20) RED 1 ]
                 (Some 0%nat) None ∅ in
  let t := Node 0%nat Leaf (JNum 1) (JNum 10) BLACK 1
             (Node 1%nat Leaf (JNum 2) (JNum 20) RED 1 Leaf) in
  ∃ h' t',
    balance (ptr t) s = (Ret (ptr t'), withStore s h')
    ∧ rep h' t'
    ∧ elems t' = elems t
    ∧ addrs t' ≡ₚ addrs t
    ∧ footprint (addrs t) (store s) h'
    ∧ (sizedBelow t = true →
       sized t' = true ∧ sizeAtT t' = Z.of_nat (length (elems t))).
Proof.
  intros s t.
  apply (X27_balance_keeps_the_entries_and_sets_the_size s t).
  - discriminate.
  - vm_compute. repeat split.
  - apply (bool_decide_unpack _). vm_compute. exact I.
Defined.

(** ** The borrowing steps of the removal methods *)

Lemma moveRedRight_rep s a b ll lk lv lc lsz lr k v c sz d rl rk rv rc rsz rr :
  let t := Node a (Node b ll lk lv lc lsz lr) k v c sz
                  (Node d rl rk rv rc rsz rr) in
  rep (store s) t → NoDup (addrs t) →
  ∃ h', moveRedRight (Some a) s = (Ret (ptr (moveRedRightT t)), withStore s h')
        ∧ rep h' (moveRedRightT t)
        ∧ footprint (addrs t) (store s) h'.
Proof.
  intros t Hrep Hnd. destruct s as [h0 nr sr idx]. norm.
  unfold moveRedRight, moveRedRightT.
  edestruct (flipColors_rep (mkRbt h0 nr sr idx))
    as (h1 & Hrun1 & Hrep1 & Hfp1); [exact Hrep|exact Hnd|].
  norm. rewrite (bind_eq _ _ _ _ _ Hrun1).
  subst t. cbn [flipColorsT flipT leftT rightT] in *.
  pose proof Hrep1 as (Ha1 & (Hb1 & Hll1 & Hlr1) & Hr1).
  msteps.
  destruct (isRedT ll) eqn:Ell; msteps.
  - destruct (isRedT_node _ Ell) as (e & ? & ? & ? & ? & ? & ? & ->).
    edestruct (rotateRight_rep (mkRbt h1 nr sr idx))
      as (h2 & Hrun2 & Hrep2 & Hfp2); [exact Hrep1|exact Hnd|].
    norm. rewrite (bind_eq _ _ _ _ _ Hrun2).
    cbn [rotateRightT] in *.
    edestruct (flipColors_rep (mkRbt h2 nr sr idx))
      as (h3 & Hrun3 & Hrep3 & Hfp3); [exact Hrep2|nd Hnd|].
    norm. rewrite (bind_eq _ _ _ _ _ Hrun3). msteps.
    eexists. split; [reflexivity|]. split; [exact Hrep3|].
    eapply footprint_trans.
    { eapply footprint_weaken; [|exact Hfp1]. intros p Hp. solve_elem. }
    eapply footprint_trans.
    { eapply footprint_weaken; [|exact Hfp2]. intros p Hp. solve_elem. }
    eapply footprint_weaken; [|exact Hfp3]. intros p Hp. solve_elem.
  - eexists. split; [reflexivity|]. split; [exact Hrep1|].
    eapply footprint_weaken; [|exact Hfp1]. intros p Hp. solve_elem.
Qed.

Lemma moveRedLeft_rep s a b ll lk lv lc lsz lr k v c sz d rl rk rv rc rsz rr :
  let t := Node a (Node b ll lk lv lc lsz lr) k v c sz
                  (Node d rl rk rv rc rsz rr) in
  rep (store s) t → NoDup (addrs t) →
  ∃ h', moveRedLeft (Some a) s = (Ret (ptr (moveRedLeftT t)), withStore s h')
        ∧ rep h' (moveRedLeftT t)
        ∧ footprint (addrs t) (store s) h'.
Proof.
  intros t Hrep Hnd. destruct s as [h0 nr sr idx]. norm.
  unfold moveRedLeft, moveRedLeftT.
  edestruct (flipColors_rep (mkRbt h0 nr sr idx))
    as (h1 & Hrun1 & Hrep1 & Hfp1); [exact Hrep|exact Hnd|].
  norm. rewrite (bind_eq _ _ _ _ _ Hrun1).
  subst t. cbn [flipColorsT flipT leftT rightT] in *.
  pose proof Hrep1 as (Ha1 & Hl1 & Hr1).
  pose proof Hr1 as (Hd1 & Hrl1 & Hrr1).
  msteps.
  destruct (isRedT rl) eqn:Erl; msteps.
  - destruct (isRedT_node _ Erl) as (e & xl & xk & xv & xc & xsz & xr & ->).
    edestruct (rotateRight_rep (mkRbt h1 nr sr idx) d)
      as (h2 & Hrun2 & Hrep2 & Hfp2); [exact Hr1|nd Hnd|].
    norm. rewrite (bind_eq _ _ _ _ _ Hrun2).
    cbn [rotateRightT setRightT] in *.
    assert (a ≠ d ∧ a ≠ e) as [? ?] by nd Hnd.
    assert (h2 !! a = h1 !! a) as Ha2.
    { destruct Hfp2 as [_ F]. apply F. solve_elem. }
    rewrite Ha1 in Ha2.
    msteps.
    set (h3 := <[a:=_]> h2).
    assert (rep h3 (Node a (Node b ll lk lv (notColor lc) lsz lr) k v
                      (notColor c) sz
                      (Node e xl xk xv (notColor rc) rsz
                         (Node d xr rk rv RED
                            (sizeAtT xr + sizeAtT rr + 1) rr)))) as Hrep3.
    { split_and!.
      - subst h3. by rewrite list_lookup_insert_eq by eauto using lookup_lt_Some.
      - subst h3. apply rep_insert; [|nd Hnd].
        eapply footprint_rep; [exact Hfp2|exact Hl1|].
        intros p Hp. simpl in Hp. intros Hq.
        assert (p ∉ [d; e]); [|done]. nd Hnd.
      - subst h3. apply rep_insert; [exact Hrep2|]. nd Hnd. }
    edestruct (rotateLeft_rep (mkRbt h3 nr sr idx))
      as (h4 & Hrun4 & Hrep4 & Hfp4); [exact Hrep3|nd Hnd|].
    norm. rewrite (bind_eq _ _ _ _ _ Hrun4).
    cbn [rotateLeftT] in *.
    edestruct (flipColors_rep (mkRbt h4 nr sr idx))
      as (h5 & Hrun5 & Hrep5 & Hfp5); [exact Hrep4|nd Hnd|].
    norm. rewrite (bind_eq _ _ _ _ _ Hrun5). msteps.
    eexists. split; [reflexivity|]. split; [exact Hrep5|].
    eapply footprint_trans.
    { eapply footprint_weaken; [|exact Hfp1]. intros p Hp. solve_elem. }
    eapply footprint_trans.
    { eapply footprint_weaken; [|exact Hfp2]. intros p Hp. solve_elem. }
    eapply footprint_trans.
    { instantiate (1 := h3). subst h3. split; [by rewrite length_insert|].
      intros p Hp. rewrite list_lookup_insert_ne; [done|].
      intros ->. apply Hp. solve_elem. }
    eapply footprint_trans.
    { eapply footprint_weaken; [|exact Hfp4]. intros p Hp. solve_elem. }
    eapply footprint_weaken; [|exact Hfp5]. intros p Hp. solve_elem.
  - eexists. split; [reflexivity|]. split; [exact Hrep1|].
    eapply footprint_weaken; [|exact Hfp1]. intros p Hp. solve_elem.
Qed.

Lemma moveRedT_elems t :
  elems (moveRedLeftT t) = elems t ∧ elems (moveRedRightT t) = elems t.
Proof.
  destruct t as [|a l k v c sz r]; [done|].
  unfold moveRedLeftT, moveRedRightT.
  cbn [flipColorsT leftT rightT]. split.
  - destruct r as [|d [|e xl xk xv xc xsz xr] rk rv rc rsz rr];
      cbn [flipT leftT isRedT elems]; rewrite ?elems_flipT; try done.
    destruct (strictEq xc RED);
      cbn [rotateRightT setRightT rotateLeftT flipColorsT flipT elems];
      rewrite ?elems_flipT; try done; by simplify_list_eq.
  - destruct l as [|b [|e xl xk xv xc xsz xr] lk lv lc lsz lr];
      cbn [flipT leftT isRedT elems]; rewrite ?elems_flipT; try done.
    destruct (strictEq xc RED);
      cbn [rotateRightT flipColorsT flipT elems];
      rewrite ?elems_flipT; try done; by simplify_list_eq.
Qed.

Lemma moveRedT_addrs t :
  addrs (moveRedLeftT t) ≡ₚ addrs t ∧ addrs (moveRedRightT t) ≡ₚ addrs t.
Proof.
  destruct t as [|a l k v c sz r]; [done|].
  unfold moveRedLeftT, moveRedRightT.
  cbn [flipColorsT leftT rightT]. split.
  - destruct r as [|d [|e xl xk xv xc xsz xr] rk rv rc rsz rr];
      cbn [flipT leftT isRedT addrs]; rewrite ?addrs_flipT; try done.
    destruct (strictEq xc RED);
      cbn [rotateRightT setRightT rotateLeftT flipColorsT flipT addrs];
      rewrite ?addrs_flipT; try done; solve_Permutation.
  - destruct l as [|b [|e xl xk xv xc xsz xr] lk lv lc lsz lr];
      cbn [flipT leftT isRedT addrs]; rewrite ?addrs_flipT; try done.
    destruct (strictEq xc RED);
      cbn [rotateRightT flipColorsT flipT addrs];
      rewrite ?addrs_flipT; try done; solve_Permutation.
Qed.

(** X28.  [moveRedLeft] and [moveRedRight] keep the order of the
    entries: called on a node that has both children, each returns the
    root of a subtree with the same node objects and the same entries
    from left to right, and touches no node object outside the subtree
    it was called on. *)
Theorem X28_moveRed_steps_keep_the_entries_in_order s t :
  leftT t ≠ Leaf → rightT t ≠ Leaf → rep (store s) t → NoDup (addrs t) →
  (∃ h' t',
     moveRedLeft (ptr t) s = (Ret (ptr t'), withStore s h')
     ∧ rep h' t' ∧ elems t' = elems t ∧ addrs t' ≡ₚ addrs t
     ∧ footprint (addrs t) (store s) h')
  ∧ (∃ h' t',
       moveRedRight (ptr t) s = (Ret (ptr t'), withStore s h')
       ∧ rep h' t' ∧ elems t' = elems t ∧ addrs t' ≡ₚ addrs t
       ∧ footprint (addrs t) (store s) h').
Proof.
  intros Hl Hr Hrep Hnd.
  destruct t as [|a [|b ll lk lv lc lsz lr] k v c sz [|d rl rk rv rc rsz rr]];
    try done.
  split.
  - destruct (moveRedLeft_rep s a b ll lk lv lc lsz lr k v c sz d rl rk rv rc
                rsz rr Hrep Hnd) as (h' & Hrun & Hrep' & Hfp).
    eexists h', _. split_and!; [exact Hrun|exact Hrep'| | |exact Hfp].
    + apply moveRedT_elems.
    + apply moveRedT_addrs.
  - destruct (moveRedRight_rep s a b ll lk lv lc lsz lr k v c sz d rl rk rv rc
                rsz rr Hrep Hnd) as (h' & Hrun & Hrep' & Hfp).
    eexists h', _. split_and!; [exact Hrun|exact Hrep'| | |exact Hfp].
    + apply moveRedT_elems.
    + apply moveRedT_addrs.
Qed.

Lemma X28_moveRed_steps_keep_the_entries_in_order_witness :
  let s := mkRbt [ mkNode (Some 1%nat) (Some 2%nat) (JNum 5) (JNum 50) RED 4;
                   mkNode None None (JNum 3) (JNum 30) BLACK 1;
                   mkNode (Some 3%nat) None (JNum 8) (JNum 80) BLACK 2;
                   mkNode None None (JNum 7) (JNum 70) RED 1 ]
                 (Some 0%nat) None ∅ in
  let t := Node 0%nat (Node 1%nat Leaf (JNum 3) (JNum 30) BLACK 1 Leaf)
             (JNum 5) (JNum 50) RED 4
             (Node 2%nat (Node 3%nat Leaf (JNum 7) (JNum 70) RED 1 Leaf)
                (JNum 8) (JNum 80) BLACK 2 Leaf) in
  (∃ h' t',
     moveRedLeft (ptr t) s = (Ret (ptr t'), withStore s h')
     ∧ rep h' t' ∧ elems t' = elems t ∧ addrs t' ≡ₚ addrs t
     ∧ footprint (addrs t) (store s) h')
  ∧ (∃ h' t',
       moveRedRight (ptr t) s = (Ret (ptr t'), withStore s h')
       ∧ rep h' t' ∧ elems t' = elems t ∧ addrs t' ≡ₚ addrs t
       ∧ footprint (addrs t) (store s) h').
Proof.
  intros s t.
  apply (X28_moveRed_steps_keep_the_entries_in_order s t).
  - discriminate.
  - discriminate.
  - vm_compute. repeat split.
  - apply (bool_decide_unpack _). vm_compute. exact I.
Defined.
